(** * ISS tracker: orbital prediction and simulation core (App.js)

    A shallow embedding of the pure core of the tracker: geodesy helpers,
    the two-phase pass predictor, the simulation path builder, the polyline
    segmentation, the playback clock and the live telemetry handler; then
    the synthetic live position and the history it shares with the
    telemetry, the arrival estimates, the TLE download, the projection of
    EarthGlobe.js and the earlier single-phase predictor.

    Number model.  JavaScript numbers holding epoch milliseconds
    ([Date.now()] and sums of it with integer steps) are integers far below
    2^53 and are modelled in [Z].  A finite JavaScript number is modelled by
    the real number it is; [NaN] and the infinities are explicit where the
    code can meet them ([num]).

    The haversine distance, on which the predictor and the path builder
    branch, is computed with the rounding of doubles: the rounding and the
    engine's [Math.sin], [Math.cos] and [Math.atan2] are the fields of a
    class [Float64], of which only laws common to all engines are assumed,
    and the [NaN] the function returns when [a] leaves [0, 1] is modelled.
    Properties of the predictor and of the path builder are proved for
    every [Float64].  Its instance [exactArithmetic] (no rounding, the
    mathematical functions) is used to evaluate sample inputs, and module
    [Double] runs the same formula on machine doubles.

    The remaining arithmetic (interpolation, progress, projection on the
    globe, speeds and arrival estimates) is read over the reals: [+], [-],
    [*], [/] exact and [Math.sin], [Math.cos], [Math.sqrt] the mathematical
    functions.  What is stated of it is stated of the formulas; the doubles
    follow them up to rounding.

    The orbital model (satellite.js acting on a [satrec]) is external to the
    repository; it enters as the ground-track function it induces. *)

From Stdlib Require Import Floats.
From Stdlib Require Import Ascii String Reals Lra Lia ZArith List Bool Sorted.
Import ListNotations.

Open Scope R_scope.

(* ================================================================== *)
(** * Part I: definitions *)
(* ================================================================== *)

(** ** JavaScript numbers *)

Inductive num : Type :=
| Fin (r : R)
| PInf
| NInf
| NaN.

Definition Number_isFinite (x : num) : bool :=
  match x with Fin _ => true | _ => false end.

(** [a < b] and [a <= b] on numbers; any comparison with [NaN] is false. *)
Definition num_lt (a b : num) : bool :=
  match a, b with
  | NaN, _ | _, NaN => false
  | Fin x, Fin y => if Rlt_dec x y then true else false
  | NInf, NInf => false
  | NInf, _ => true
  | _, PInf => match a with PInf => false | _ => true end
  | _, _ => false
  end.

Definition num_le (a b : num) : bool :=
  match a, b with
  | NaN, _ | _, NaN => false
  | Fin x, Fin y => if Rle_dec x y then true else false
  | NInf, _ => true
  | _, PInf => true
  | _, _ => false
  end.

(** Truncation towards zero and the remainder [x % y] (sign of the dividend),
    for finite [x] and finite non-zero [y]. *)
Definition Rtrunc (r : R) : Z :=
  if Rle_dec 0 r then Int_part r else (- Int_part (- r))%Z.

Definition js_rem (x y : R) : R := x - y * IZR (Rtrunc (x / y)).

(** ** Geodesy utilities *)

Record GeoPoint : Type := mkGeo { lat : R; lng : R }.

(** *** Double-precision arithmetic

    The arithmetic of [haversineDistanceKm] is that of IEEE 754 doubles:
    every operation returns the exact result rounded to a double, and
    [Math.sin], [Math.cos] and [Math.atan2] are the engine's approximations.
    [round] stands for that rounding and the [Math_] fields for the engine's
    functions; a double is read as the real number it is.  Nothing is assumed
    of them beyond the laws below, which hold of every IEEE 754 arithmetic
    and of every ECMAScript engine (0 and 1 are doubles, rounding keeps the
    sign, [Math.sin(0)] and [Math.atan2(0, 1)] are 0, [Math.atan2] of two
    non-negative numbers is non-negative), so what is proved for every
    [Float64] holds of the doubles the program computes with.  Overflow to
    an infinity is outside the model: coordinates are degrees. *)
Class Float64 : Type :=
  { round : R -> R;
    Math_PI : R;
    Math_sin : R -> R;
    Math_cos : R -> R;
    Math_atan2 : R -> R -> R;
    round_0 : round 0 = 0;
    round_1 : round 1 = 1;
    round_nonneg : forall x, 0 <= x -> 0 <= round x;
    Math_sin_0 : Math_sin 0 = 0;
    Math_atan2_0_1 : Math_atan2 0 1 = 0;
    Math_atan2_nonneg : forall y x, 0 <= y -> 0 <= x -> 0 <= Math_atan2 y x }.

(** The value of [a] in [haversineDistanceKm], with [toRad] as the function
    defines it. *)
Definition haversineA {F : Float64} (o t : GeoPoint) : R :=
  let toRad := fun deg => round (round (deg * Math_PI) / 180) in
  let dLat := toRad (round (lat t - lat o)) in
  let dLon := toRad (round (lng t - lng o)) in
  let lat1 := toRad (lat o) in
  let lat2 := toRad (lat t) in
  round
    (round (Math_sin (round (dLat / 2)) * Math_sin (round (dLat / 2))) +
     round (round (round (Math_sin (round (dLon / 2)) *
                          Math_sin (round (dLon / 2))) *
                   Math_cos lat1) *
            Math_cos lat2)).

Definition EARTH_RADIUS_KM : R := 6371.

(** [haversineDistanceKm(origin, target)]: [None] is JavaScript's [null].
    There is no clamp on [a]: [Math.sqrt] of a negative number is [NaN], and
    [NaN] goes through [Math.atan2] and the two products. *)
Definition haversineDistanceKm {F : Float64} (origin target : option GeoPoint)
  : option num :=
  match origin, target with
  | Some o, Some t =>
      let a := haversineA o t in
      if Rlt_dec a 0 then Some NaN
      else if Rlt_dec (round (1 - a)) 0 then Some NaN
      else
        let c :=
          round (2 * Math_atan2 (round (sqrt a))
                                (round (sqrt (round (1 - a))))) in
        Some (Fin (round (EARTH_RADIUS_KM * c)))
  | _, _ => None
  end.

(** [dist != null && dist < x] and [dist != null && dist <= x], the only
    tests the predictor and the path builder make on a distance, fail alike
    for [null] and for [NaN]: [comparable] keeps the distances that are
    numbers. *)
Definition comparable (dist : option num) : option R :=
  match dist with
  | Some (Fin d) => Some d
  | _ => None
  end.

(** *** Exact arithmetic

    The arithmetic without rounding, with the mathematical functions: what
    the doubles approximate.  Sample values below are computed in it. *)

Definition toRad (deg : R) : R := deg * PI / 180.

(** The mathematical [atan2(y, x)]. *)
Definition atan2 (y x : R) : R :=
  if Rlt_dec 0 x then atan (y / x)
  else if Rlt_dec x 0 then
    (if Rle_dec 0 y then atan (y / x) + PI else atan (y / x) - PI)
  else if Rlt_dec 0 y then PI / 2
  else if Rlt_dec y 0 then - (PI / 2)
  else 0.

#[export] Instance exactArithmetic : Float64.
Proof.
  refine {| round := fun x => x;
            Math_PI := PI;
            Math_sin := sin;
            Math_cos := cos;
            Math_atan2 := atan2 |}.
  - reflexivity.
  - reflexivity.
  - intros x Hx. exact Hx.
  - exact sin_0.
  - unfold atan2. destruct (Rlt_dec 0 1); [| lra].
    replace (0 / 1) with 0 by field. exact atan_0.
  - intros y x Hy Hx. unfold atan2. pose proof PI_RGT_0 as Hpi.
    destruct (Rlt_dec 0 x) as [Hxpos | Hx0].
    + assert (Hz : 0 <= y / x).
      { unfold Rdiv. apply Rmult_le_pos; [assumption |].
        left. now apply Rinv_0_lt_compat. }
      destruct Hz as [Hz | <-]; [| rewrite atan_0; lra].
      left. rewrite <- atan_0. now apply atan_increasing.
    + destruct (Rlt_dec x 0); [lra |].
      destruct (Rlt_dec 0 y); [lra |].
      destruct (Rlt_dec y 0); lra.
Defined.

(** The great-circle distance of the haversine formula in exact
    arithmetic. *)
Definition greatCircleKm (o t : GeoPoint) : R :=
  let dLat := toRad (lat t - lat o) in
  let dLon := toRad (lng t - lng o) in
  let lat1 := toRad (lat o) in
  let lat2 := toRad (lat t) in
  let a :=
    sin (dLat / 2) * sin (dLat / 2) +
    sin (dLon / 2) * sin (dLon / 2) * cos lat1 * cos lat2 in
  let c := 2 * atan2 (sqrt a) (sqrt (1 - a)) in
  EARTH_RADIUS_KM * c.

(** *** The doubles themselves

    [haversineDistanceKm] once more, on IEEE 754 doubles with their own
    sums, products, quotients and square roots, for evaluating it at given
    coordinates.  [Math] holds the engine's [Math.sin], [Math.cos] and
    [Math.atan2], which ECMAScript leaves to the implementation. *)
Module Double.

Local Open Scope float_scope.

Record MathLibrary : Type :=
  mkMath { sin : float -> float;
           cos : float -> float;
           atan2 : float -> float -> float }.

Record GeoPoint : Type := mkGeo { lat : float; lng : float }.

(** [Math.PI] *)
Definition PI : float := 0x1.921fb54442d18p+1.

Definition haversineDistanceKm (Math : MathLibrary)
           (origin target : option GeoPoint) : option float :=
  match origin, target with
  | Some origin, Some target =>
      let toRad := fun deg => (deg * PI) / 180 in
      let R := 6371 in
      let dLat := toRad (lat target - lat origin) in
      let dLon := toRad (lng target - lng origin) in
      let lat1 := toRad (lat origin) in
      let lat2 := toRad (lat target) in
      let a :=
        sin Math (dLat / 2) * sin Math (dLat / 2) +
        sin Math (dLon / 2) * sin Math (dLon / 2) * cos Math lat1 *
        cos Math lat2 in
      let c := 2 * atan2 Math (PrimFloat.sqrt a) (PrimFloat.sqrt (1 - a)) in
      Some (R * c)
  | _, _ => None
  end.

(** The sines, cosines and arctangents met when the distance between
    (70, -129) and (21, -90) is computed in either direction: at each
    argument the double nearest to the mathematical value, which lies
    within 0.08 units in the last place of it. *)
Definition nearestAtSamples (Math : MathLibrary) : Prop :=
  sin Math (-0x1.b5de4288e80bfp-2) = -0x1.a8a5586c52ad3p-2 /\
  sin Math 0x1.b5de4288e80bfp-2 = 0x1.a8a5586c52ad3p-2 /\
  sin Math 0x1.5c81e15d4af9dp-2 = 0x1.55d1771e5bab9p-2 /\
  sin Math (-0x1.5c81e15d4af9dp-2) = -0x1.55d1771e5bab9p-2 /\
  cos Math 0x1.38c35418a5bf6p+0 = 0x1.5e3a8748a0bf7p-2 /\
  cos Math 0x1.7750cb50c6e5bp-2 = 0x1.ddfe40effb805p-1 /\
  atan2 Math 0x1.d282848eeff10p-2 0x1.c7c7e2ec79ea0p-1 =
  0x1.e45f22f62a900p-2 /\
  atan2 Math 0x1.d282848eeff11p-2 0x1.c7c7e2ec79ea0p-1 =
  0x1.e45f22f62a901p-2.

(** The sines and cosines met when the distance from (8, -180) to (-8, 0)
    is computed, at each argument the double nearest to the mathematical
    value; and [Math.atan2], which returns NaN when an argument is NaN. *)
Definition nearestNearAntipode (Math : MathLibrary) : Prop :=
  sin Math (-0x1.1df46a2529d39p-3) = -0x1.1d06c968d9e19p-3 /\
  sin Math 0x1.921fb54442d18p+0 = 1 /\
  cos Math 0x1.1df46a2529d39p-3 = 0x1.fb046a930947ap-1 /\
  cos Math (-0x1.1df46a2529d39p-3) = 0x1.fb046a930947ap-1 /\
  (forall y, atan2 Math y nan = nan).

End Double.

(** The body of [normalizeLng] once [Number.isFinite(lng)] holds. *)
Definition normalizeFinite (lng : R) : R :=
  let normalized := js_rem lng 360 in
  let normalized :=
    if Rgt_dec normalized 180 then normalized - 360 else normalized in
  let normalized :=
    if Rlt_dec normalized (-180) then normalized + 360 else normalized in
  normalized.

Definition normalizeLng (lng : num) : num :=
  if Number_isFinite lng then
    match lng with
    | Fin x => Fin (normalizeFinite x)
    | _ => lng
    end
  else lng.

(** ** Configuration constants *)

Definition PASS_LOOKAHEAD_MINUTES : Z := 1440.
Definition PASS_COARSE_STEP_SECONDS : Z := 30.
Definition PASS_REFINE_STEP_SECONDS : Z := 1.
Definition PASS_REFINE_WINDOW_SECONDS : Z := 240.
Definition PASS_THRESHOLD_COARSE_KM : R := 75.
Definition PASS_THRESHOLD_DEFAULT_KM : R := 5.
Definition SIM_STEP_SECONDS : Z := 15.
Definition SIM_TIME_SCALE : R := 120.

(** ** Orbital model adapter *)

(** What satellite.js yields for one [satrec]: the sub-satellite point at a
    timestamp, or nothing when [propagate] returns no position. *)
Definition OrbitalModel : Type := Z -> option GeoPoint.

Definition computeGroundPoint (satrec : option OrbitalModel) (timeMs : Z)
  : option GeoPoint :=
  match satrec with
  | None => None
  | Some propagate => propagate timeMs
  end.

(** ** Loops over time *)

(** The values taken by [t] in [for (let t = from; t <= to; t += step)]. *)
Definition loop_times (from to step : Z) : list Z :=
  map (fun k => (from + Z.of_nat k * step)%Z)
      (seq 0 (Z.to_nat ((to - from) / step + 1))).

(** [dist != null && dist <= thresholdKm] *)
Definition within (dist : option R) (thresholdKm : R) : bool :=
  match dist with
  | Some d => if Rle_dec d thresholdKm then true else false
  | None => false
  end.

(** ** Pass predictor *)

Record Best : Type := mkBest { best_distance : num; best_time : option Z }.

Record Window : Type := mkWindow { w_start : Z; w_end : Z }.

Record PassPrediction : Type :=
  mkPrediction { time : Z; distance : num; thresholdHit : bool }.

(** Truthiness of a [time] field: [null] and [0] are falsy. *)
Definition truthyTime (t : option Z) : option Z :=
  match t with
  | Some v => if (v =? 0)%Z then None else Some v
  | None => None
  end.

Section PassPredictor.

Context {F : Float64}.
Variable satrec : option OrbitalModel.
Variable targetPoint : option GeoPoint.
Variable passThresholdKm : R.
Variable now : Z.

Definition lookaheadEnd : Z := (now + PASS_LOOKAHEAD_MINUTES * 60 * 1000)%Z.
Definition coarseStepMs : Z := (PASS_COARSE_STEP_SECONDS * 1000)%Z.
Definition refineStepMs : Z := (PASS_REFINE_STEP_SECONDS * 1000)%Z.
Definition refineWindowMs : Z := (PASS_REFINE_WINDOW_SECONDS * 1000)%Z.

(** The distance [evaluatePoint] computes and returns, as far as the tests
    made on it can tell ([comparable]): from the ground point at [timeMs],
    its longitude normalized (coordinates are finite here, so [normalizeLng]
    acts as [normalizeFinite]), to the target.  [None] is a sample without a
    ground point or whose distance is [null] or [NaN]. *)
Definition groundDistance (timeMs : Z) : option R :=
  match computeGroundPoint satrec timeMs with
  | None => None
  | Some groundPoint =>
      let ground :=
        mkGeo (lat groundPoint) (normalizeFinite (lng groundPoint)) in
      comparable (haversineDistanceKm (Some ground) targetPoint)
  end.

(** [evaluatePoint]: returns the distance and the updated [best]. *)
Definition evaluatePoint (timeMs : Z) (best : Best) : option R * Best :=
  let dist := groundDistance timeMs in
  match dist with
  | Some d =>
      if num_lt (Fin d) (best_distance best)
      then (dist, mkBest (Fin d) (Some timeMs))
      else (dist, best)
  | None => (dist, best)
  end.

(** The coarse loop: stops at the first sample within the coarse threshold. *)
Fixpoint coarseScan (ts : list Z) (best : Best) : Best * option Window :=
  match ts with
  | [] => (best, None)
  | t :: rest =>
      let '(dist, best1) := evaluatePoint t best in
      if within dist PASS_THRESHOLD_COARSE_KM
      then (best1,
            Some (mkWindow (Z.max now (t - refineWindowMs))
                           (Z.min lookaheadEnd (t + refineWindowMs))))
      else coarseScan rest best1
  end.

(** The refine loop: [inl] is the early return with a qualifying sample,
    [inr] carries [best] and [bestRefined] out of the loop. *)
Fixpoint refineScan (ts : list Z) (best bestRefined : Best)
  : PassPrediction + (Best * Best) :=
  match ts with
  | [] => inr (best, bestRefined)
  | t :: rest =>
      let '(dist, best1) := evaluatePoint t best in
      let bestRefined1 :=
        match dist with
        | Some d =>
            if num_lt (Fin d) (best_distance bestRefined)
            then mkBest (Fin d) (Some t)
            else bestRefined
        | None => bestRefined
        end in
      match dist with
      | Some d =>
          if Rle_dec d passThresholdKm
          then inl (mkPrediction t (Fin d) true)
          else refineScan rest best1 bestRefined1
      | None => refineScan rest best1 bestRefined1
      end
  end.

(** The closing [if (best.time) ... else setNextPassPrediction(null)]. *)
Definition fallbackPrediction (best : Best) : option PassPrediction :=
  match truthyTime (best_time best) with
  | Some t => Some (mkPrediction t (best_distance best) false)
  | None => None
  end.

(** The value handed to [setNextPassPrediction] by the prediction effect. *)
Definition nextPassPrediction : option PassPrediction :=
  match satrec, targetPoint with
  | Some _, Some _ =>
      let '(best, refineWindow) :=
        coarseScan (loop_times now lookaheadEnd coarseStepMs)
                   (mkBest PInf None) in
      match refineWindow with
      | Some w =>
          match refineScan (loop_times (w_start w) (w_end w) refineStepMs)
                           best (mkBest PInf None) with
          | inl prediction => Some prediction
          | inr (best1, bestRefined) =>
              match truthyTime (best_time bestRefined) with
              | Some t =>
                  Some (mkPrediction t (best_distance bestRefined)
                          (num_le (best_distance bestRefined)
                                  (Fin passThresholdKm)))
              | None => fallbackPrediction best1
              end
          end
      | None => fallbackPrediction best
      end
  | _, _ => None
  end.

End PassPredictor.

(** ** Simulation path builder *)

(** A path sample; [pt_distance] is the [distance] field as far as a test
    on it can tell ([comparable]): absent on the start and final samples,
    and nothing reads it back. *)
Record PathPoint : Type :=
  mkPoint { pt_lat : R; pt_lng : R; pt_time : Z; pt_distance : option R }.

Section SimulationPath.

Context {F : Float64}.
Variable satrec : option OrbitalModel.
Variable targetPoint : option GeoPoint.
Variable passThresholdKm : R.
Variable now : Z.

Definition simStepMs : Z := (SIM_STEP_SECONDS * 1000)%Z.

(** The stepping loop: skips instants without a ground point and stops
    after pushing a sample within the pass threshold. *)
Fixpoint stepSamples (ts : list Z) (path : list PathPoint) : list PathPoint :=
  match ts with
  | [] => path
  | t :: rest =>
      match computeGroundPoint satrec t with
      | None => stepSamples rest path
      | Some groundPoint =>
          let ground :=
            mkGeo (lat groundPoint) (normalizeFinite (lng groundPoint)) in
          let dist :=
            comparable (haversineDistanceKm (Some ground) targetPoint) in
          let path1 := path ++ [mkPoint (lat ground) (lng ground) t dist] in
          if within dist passThresholdKm then path1
          else stepSamples rest path1
      end
  end.

(** The samples gathered before the [path.length < 2] test. *)
Definition gatheredSamples (endMs : Z) : list PathPoint :=
  let path :=
    match computeGroundPoint satrec now with
    | Some startPoint => [mkPoint (lat startPoint) (lng startPoint) now None]
    | None => []
    end in
  stepSamples (loop_times (now + simStepMs) (endMs + simStepMs) simStepMs) path.

Definition simulationPath (prediction : option PassPrediction)
  : option (list PathPoint) :=
  match satrec, targetPoint, prediction with
  | Some _, Some _, Some p =>
      if (time p =? 0)%Z then None
      else
        let endMs := time p in
        if (endMs <=? now)%Z then None
        else
          let path := gatheredSamples endMs in
          if (length path <? 2)%nat then None
          else
            let lastPoint := last path (mkPoint 0 0 0 None) in
            if (pt_time lastPoint <? endMs)%Z then
              match computeGroundPoint satrec endMs with
              | Some finalPoint =>
                  Some (path ++
                        [mkPoint (lat finalPoint)
                                 (normalizeFinite (lng finalPoint))
                                 endMs None])
              | None => Some path
              end
            else Some path
  | _, _, _ => None
  end.

End SimulationPath.

(** ** Polyline segmentation *)

Definition Coords : Type := (R * R)%type.

(** One call of the [forEach] callback; the state is [(segments, current)]. *)
Definition segmentStep (len : nat) (st : list (list Coords) * list Coords)
           (entry : nat * PathPoint) : list (list Coords) * list Coords :=
  let '(segments, current) := st in
  let '(index, point) := entry in
  let coords : Coords := (pt_lat point, pt_lng point) in
  let '(segments1, current1) :=
    match current with
    | [] => (segments, [coords])
    | _ :: _ =>
        let prev := last current coords in
        let diff := Rabs (snd coords - snd prev) in
        if Rgt_dec diff 180 then
          ((if (1 <? length current)%nat then segments ++ [current]
            else segments),
           [coords])
        else (segments, current ++ [coords])
    end in
  if ((index =? len - 1)%nat && (1 <? length current1)%nat)%bool
  then (segments1 ++ [current1], current1)
  else (segments1, current1).

Definition simulationSegments (simulationPath : option (list PathPoint))
  : option (list (list Coords)) :=
  match simulationPath with
  | None => None
  | Some [] => None
  | Some path =>
      let '(segments, _) :=
        fold_left (segmentStep (length path))
                  (combine (seq 0 (length path)) path) ([], []) in
      match segments with
      | [] => None
      | _ :: _ => Some segments
      end
  end.

(** ** Playback *)

Record PlaybackState : Type :=
  mkPlayback { isSimPlaying : bool;
               simTimeMs : option R;
               simSpeedMultiplier : R }.

(** The locals of one run of the animation effect. *)
Record FrameLoop : Type := mkLoop { running : bool; previous : option R }.

Definition firstTime (path : list PathPoint) : R :=
  IZR (pt_time (hd (mkPoint 0 0 0 None) path)).

Definition lastTime (path : list PathPoint) : R :=
  IZR (pt_time (last path (mkPoint 0 0 0 None))).

(** One [requestAnimationFrame] callback, the state updater applied at once. *)
Definition step (path : list PathPoint) (speedFactor : R)
           (st : FrameLoop * PlaybackState) (timestamp : R)
  : FrameLoop * PlaybackState :=
  let '(loop, pb) := st in
  if negb (running loop) then st
  else
    let prev := match previous loop with Some p => p | None => timestamp end in
    let delta := timestamp - prev in
    let base := match simTimeMs pb with Some c => c | None => firstTime path end in
    let next := base + delta * speedFactor in
    if Rge_dec next (lastTime path)
    then (mkLoop false (Some timestamp),
          mkPlayback false (Some (lastTime path)) (simSpeedMultiplier pb))
    else (mkLoop true (Some timestamp),
          mkPlayback (isSimPlaying pb) (Some next) (simSpeedMultiplier pb)).

(** One run of the animation effect over the frames delivered to it. *)
Definition playFrames (simulationPath : option (list PathPoint))
           (pb : PlaybackState) (timestamps : list R) : PlaybackState :=
  match simulationPath with
  | Some ((_ :: _) as path) =>
      if isSimPlaying pb then
        let speedFactor := SIM_TIME_SCALE * simSpeedMultiplier pb in
        snd (fold_left (step path speedFactor) timestamps
                       (mkLoop true None, pb))
      else pb
  | _ => pb
  end.

Definition simulationAvailable (simulationPath : option (list PathPoint)) : bool :=
  match simulationPath with
  | Some (_ :: _) => true
  | _ => false
  end.

Definition handleSimPlayPause (simulationPath : option (list PathPoint))
           (pb : PlaybackState) : PlaybackState :=
  if simulationAvailable simulationPath
  then mkPlayback (negb (isSimPlaying pb)) (simTimeMs pb) (simSpeedMultiplier pb)
  else pb.


Definition handleSimSpeedToggle (pb : PlaybackState) : PlaybackState :=
  mkPlayback (isSimPlaying pb) (simTimeMs pb)
             (if Req_dec_T (simSpeedMultiplier pb) 1 then 8 else 1).

(** ** Live telemetry *)

(** An entry of [issPosition] and [issHistory], as both writers build it;
    [velocityKmh] is null when the synthetic writer has no velocity. *)
Record IssPosition : Type :=
  mkIss { iss_lat : R;
          iss_lng : R;
          iss_timestamp : R;
          velocityKmh : option R }.

Record TelemetryState : Type :=
  mkTelemetry { issPosition : option IssPosition;
                issHistory : list IssPosition;
                error : option string }.

(** How one [fetch(ISS_API)] round can end. *)
Inductive FetchOutcome : Type :=
| FetchThrew (message : string)
| ResponseNotOk
| JsonThrew (message : string)
| ResponseData (latitude longitude timestamp velocity : R).

(** [array.slice(-n)] *)
Definition sliceLast {A : Type} (n : nat) (l : list A) : list A :=
  skipn (length l - n) l.

Definition fetchIssData (cancelled : bool) (outcome : FetchOutcome)
           (st : TelemetryState) : TelemetryState :=
  let onError message :=
    if cancelled then st
    else mkTelemetry (issPosition st) (issHistory st) (Some message) in
  match outcome with
  | FetchThrew message => onError message
  | ResponseNotOk => onError "No se pudo leer la telemetría de la ISS"%string
  | JsonThrew message => onError message
  | ResponseData latitude longitude timestamp velocity =>
      if cancelled then st
      else
        let position :=
          mkIss latitude longitude (timestamp * 1000) (Some velocity) in
        mkTelemetry (Some position)
                    (sliceLast 120 (issHistory st ++ [position]))
                    None
  end.

(** ** Specification vocabulary *)

(** [t] is the first sample of [ts] at minimum distance [d]: every sample
    before it is strictly farther, every sample after it is no closer. *)
Definition EarliestClosest (ev : Z -> option R) (ts : list Z) (t : Z) (d : R)
  : Prop :=
  exists l1 l2,
    ts = l1 ++ t :: l2 /\ ev t = Some d /\
    (forall u du, In u l1 -> ev u = Some du -> d < du) /\
    (forall u du, In u l2 -> ev u = Some du -> d <= du).

(** What a [best] record holds once the samples [seen] were evaluated. *)
Definition BestOf (ev : Z -> option R) (seen : list Z) (best : Best) : Prop :=
  (best = mkBest PInf None /\ forall u, In u seen -> ev u = None) \/
  (exists t d, best = mkBest (Fin d) (Some t) /\ EarliestClosest ev seen t d).

(** [tc] is where the coarse scan stops: the first coarse sample within the
    coarse threshold. *)
Definition FirstCoarseHit (ev : Z -> option R) (now tc : Z) : Prop :=
  In tc (loop_times now (lookaheadEnd now) coarseStepMs) /\
  within (ev tc) PASS_THRESHOLD_COARSE_KM = true /\
  (forall u, In u (loop_times now (lookaheadEnd now) coarseStepMs) ->
             (u < tc)%Z -> within (ev u) PASS_THRESHOLD_COARSE_KM = false).

(** The one-second range scanned around a coarse hit at [tc]. *)
Definition refineTimes (now tc : Z) : list Z :=
  loop_times (Z.max now (tc - refineWindowMs))
             (Z.min (lookaheadEnd now) (tc + refineWindowMs))
             refineStepMs.

(** The instants the predictor evaluates: the coarse samples up to the
    first coarse hit (all of them when there is none), and the refine range
    around that hit. *)
Definition Evaluated (ev : Z -> option R) (now t : Z) : Prop :=
  (In t (loop_times now (lookaheadEnd now) coarseStepMs) /\
   forall u, In u (loop_times now (lookaheadEnd now) coarseStepMs) ->
             (u < t)%Z -> within (ev u) PASS_THRESHOLD_COARSE_KM = false) \/
  (exists tc, FirstCoarseHit ev now tc /\ In t (refineTimes now tc)).

(** ** Sample inputs *)

(** A ground track confined to the equator, at longitude [l t] at time [t]. *)
Definition equatorTrack (l : Z -> R) : OrbitalModel :=
  fun t => Some (mkGeo 0 (l t)).

Definition origin : GeoPoint := mkGeo 0 0.

Definition sampleNow : Z := 1700000000000.

(** One degree away, then 0.03 degrees away during the second that starts
    30 s after [sampleNow], then over the target. *)
Definition approachLng (t : Z) : R :=
  if (t <? sampleNow + 30000)%Z then 1
  else if (t <? sampleNow + 31000)%Z then 3 / 100
  else 0.

(** A track along the equator that approaches the target until 105 s after
    [sampleNow], to one degree east of it, and recedes afterwards, at one
    degree per hour: the coarse samples 90 s and 120 s after [sampleNow]
    are equally close, and closer than every other coarse sample. *)
Definition veeLng (t : Z) : R :=
  1 + IZR (Z.abs (t - (sampleNow + 105000))) / 3600000.

(** A track known only from 10 s after [sampleNow]: two degrees east of the
    origin from then on, no position before. *)
Definition lateTrack : OrbitalModel :=
  fun t => if (sampleNow + 10000 <? t)%Z then Some (mkGeo 0 2) else None.

(** A reading of the clock 40 ms after [sampleNow]: the path builder reads
    the clock after the predictor did. *)
Definition sampleLater : Z := sampleNow + 40.

(** A track known only during the 30 s that follow [sampleNow]: two degrees
    east of the origin while it lasts, no position at [sampleNow] itself nor
    later. *)
Definition gapTrack : OrbitalModel :=
  fun t =>
    if ((sampleNow <? t)%Z && (t <=? sampleNow + 30000)%Z)%bool
    then Some (mkGeo 0 2)
    else None.

(** ** Vocabulary for the polyline segmentation *)

Definition coordsOf (p : PathPoint) : Coords := (pt_lat p, pt_lng p).

(** Two consecutive samples whose longitudes differ by more than 180. *)
Definition jump (prev cur : Coords) : bool :=
  if Rgt_dec (Rabs (snd cur - snd prev)) 180 then true else false.

(** Number of jumps along [prev :: l]. *)
Fixpoint jumpsFrom (prev : Coords) (l : list Coords) : nat :=
  match l with
  | [] => 0
  | c :: rest => (if jump prev c then 1 else 0) + jumpsFrom c rest
  end.

Definition jumps (l : list Coords) : nat :=
  match l with
  | [] => 0
  | c :: rest => jumpsFrom c rest
  end.

(** The path cut at every jump: [current] is the run being extended. *)
Fixpoint runsAcc (current : list Coords) (l : list Coords)
  : list (list Coords) :=
  match l with
  | [] => [current]
  | c :: rest =>
      if jump (last current c) c then current :: runsAcc [c] rest
      else runsAcc (current ++ [c]) rest
  end.

Definition runs (l : list Coords) : list (list Coords) :=
  match l with
  | [] => []
  | c :: rest => runsAcc [c] rest
  end.

Definition longRun (r : list Coords) : bool := (1 <? length r)%nat.

(** [segments.length ? segments : null] *)
Definition orNull (segments : list (list Coords)) : option (list (list Coords)) :=
  match segments with
  | [] => None
  | _ :: _ => Some segments
  end.

(** Sample paths: longitudes hopping across the antimeridian. *)
Definition hopPath : list PathPoint :=
  [mkPoint 0 179 0 None; mkPoint 0 (-179) 15000 None].

Definition lateHopPath : list PathPoint :=
  [mkPoint 0 178 0 None; mkPoint 0 179 15000 None; mkPoint 0 (-179) 30000 None].

Definition plainPath : list PathPoint :=
  [mkPoint 0 10 0 None; mkPoint 0 11 15000 None; mkPoint 0 12 30000 None].

(** ** 3D globe (EarthGlobe.js) *)

Definition EARTH_RADIUS : R := 1.
Definition ISS_RADIUS : R := 115 / 100.
Definition TARGET_RADIUS : R := 103 / 100.

Definition Vec3 : Type := (R * R * R)%type.

(** [latLngToCartesian(lat, lng, radius = EARTH_RADIUS)] on finite
    coordinates, its products and its sines and cosines read over the
    reals; [None] is an argument whose type is not number, and for [radius]
    an absent one.  NaN, which is of type number and passes the guard into
    the formula, is not among the inputs modelled here. *)
Definition latLngToCartesian (lat lng radius : option R) : Vec3 :=
  match lat, lng with
  | Some lat, Some lng =>
      let radius := match radius with Some r => r | None => EARTH_RADIUS end in
      let latRad := (lat * PI) / 180 in
      let lonRad := (lng * PI) / 180 in
      let x := radius * cos latRad * cos lonRad in
      let y := radius * sin latRad in
      let z := radius * cos latRad * sin lonRad in
      (x, y, z)
  | _, _ => (0, 0, 0)
  end.

(** The radius given to the sample of index [index] of a path of [len]
    samples by [Trajectory]. *)
Definition trajectoryRadius (len index : nat) : R :=
  let lastIndex := INR (Nat.max (len - 1) 1) in
  ISS_RADIUS - ((ISS_RADIUS - TARGET_RADIUS) * INR index) / lastIndex.

(** The [points] memo of [Trajectory]. *)
Definition Trajectory (path : option (list PathPoint)) : option (list Vec3) :=
  match path with
  | Some ((_ :: _) as samples) =>
      Some (map (fun entry : nat * PathPoint =>
                   let '(index, point) := entry in
                   latLngToCartesian
                     (Some (pt_lat point)) (Some (pt_lng point))
                     (Some (trajectoryRadius (length samples) index)))
                (combine (seq 0 (length samples)) samples))
  | _ => None
  end.

(** Squared Euclidean norm. *)
Definition norm2 (v : Vec3) : R :=
  let '(x, y, z) := v in x * x + y * y + z * z.

(** A sample read off the model at its own timestamp, as the stepping loop
    and the closing sample build it; only the start sample keeps the raw
    longitude. *)
Definition FromModel {F : Float64} (satrec : option OrbitalModel)
           (targetPoint : option GeoPoint) (now : Z) (s : PathPoint) : Prop :=
  exists gp,
    computeGroundPoint satrec (pt_time s) = Some gp /\
    pt_lat s = lat gp /\
    (pt_lng s = normalizeFinite (lng gp) \/
     (pt_time s = now /\ pt_lng s = lng gp)) /\
    (pt_distance s = None \/
     pt_distance s =
     comparable
       (haversineDistanceKm
          (Some (mkGeo (lat gp) (normalizeFinite (lng gp)))) targetPoint)).

(** ** Derived metrics of the simulation *)

(** What consumers read of a simulated position: [lat], [lng] and [time]. *)
Record SimPosition : Type := mkSim { sim_lat : R; sim_lng : R; sim_time : R }.

(** A path sample returned as the simulated position. *)
Definition atSample (p : PathPoint) : SimPosition :=
  mkSim (pt_lat p) (pt_lng p) (IZR (pt_time p)).

(** The loop of [simulatedPosition] over the pairs of consecutive samples,
    [current] being [simulationPath[i]] and the head of [rest] being
    [simulationPath[i + 1]]; [None] when the loop ends without returning.
    The interpolation is read over the reals: in doubles
    [current + (next - current) * ratio] is rounded at each step, and need
    not give [next] back at [ratio = 1]. *)
Fixpoint interpolate (current : PathPoint) (rest : list PathPoint)
         (simTimeMs : R) : option SimPosition :=
  match rest with
  | [] => None
  | next :: rest' =>
      if Rge_dec simTimeMs (IZR (pt_time current)) then
        if Rle_dec simTimeMs (IZR (pt_time next)) then
          let diff := IZR (pt_time next) - IZR (pt_time current) in
          let segment := if Req_dec_T diff 0 then 1 else diff in
          let ratio := (simTimeMs - IZR (pt_time current)) / segment in
          Some (mkSim (pt_lat current + (pt_lat next - pt_lat current) * ratio)
                      (pt_lng current + (pt_lng next - pt_lng current) * ratio)
                      simTimeMs)
        else interpolate next rest' simTimeMs
      else interpolate next rest' simTimeMs
  end.

Definition simulatedPosition (simulationPath : option (list PathPoint))
           (simTimeMs : option R) : option SimPosition :=
  match simulationPath, simTimeMs with
  | Some ((first :: rest) as path), Some t =>
      if Rle_dec t (IZR (pt_time first)) then Some (atSample first)
      else
        match interpolate first rest t with
        | Some position => Some position
        | None => Some (atSample (last path first))
        end
  | _, _ => None
  end.

Definition simProgress (simulationPath : option (list PathPoint))
           (simTimeMs : option R) : R :=
  match simulationPath, simTimeMs with
  | Some ((_ :: _) as path), Some t =>
      let total := lastTime path - firstTime path in
      if Rle_dec total 0 then 0
      else Rmin 1 (Rmax 0 ((t - firstTime path) / total))
  | _, _ => 0
  end.

Definition simEtaMs (simulationPath : option (list PathPoint))
           (simTimeMs : option R) : option R :=
  match simulationPath, simTimeMs with
  | Some ((_ :: _) as path), Some t => Some (Rmax (lastTime path - t) 0)
  | _, _ => None
  end.

(** The effect run whenever a new path is produced. *)
Definition onSimulationPath (simulationPath : option (list PathPoint))
           (pb : PlaybackState) : PlaybackState :=
  match simulationPath with
  | Some ((_ :: _) as path) =>
      mkPlayback false (Some (firstTime path)) (simSpeedMultiplier pb)
  | _ => mkPlayback false None (simSpeedMultiplier pb)
  end.

(** Linear interpolation between two samples at ratio [ratio]. *)
Definition between (a b : PathPoint) (ratio t : R) : SimPosition :=
  mkSim (pt_lat a + (pt_lat b - pt_lat a) * ratio)
        (pt_lng a + (pt_lng b - pt_lng a) * ratio) t.

(** ** Synthetic live position *)

Definition LIVE_UPDATE_INTERVAL_MS : Z := 1000.
Definition HISTORY_SAMPLE_INTERVAL_MS : Z := 10000.

(** The [velocity] field of what [satellite.propagate] yields at a
    timestamp: a vector in km/s, or nothing. *)
Definition VelocityModel : Type := Z -> option Vec3.

Definition computeIssState (satrec : option OrbitalModel)
           (velocity : VelocityModel) (timeMs : Z) : option IssPosition :=
  match satrec with
  | None => None
  | Some propagate =>
      match propagate timeMs with
      | None => None
      | Some geodetic =>
          let lat := lat geodetic in
          let lng := normalizeFinite (lng geodetic) in
          let velocityKmh :=
            match velocity timeMs with
            | Some (x, y, z) =>
                let kmPerSecond := sqrt (x * x + y * y + z * z) in
                Some (kmPerSecond * 3600)
            | None => None
            end in
          Some (mkIss lat lng (IZR timeMs) velocityKmh)
      end
  end.

(** The state the two writers share, [fetchIssData] and [updateFromTle]:
    the telemetry state and [lastHistoryUpdateRef.current]. *)
Record LiveState : Type :=
  mkLive { live_telemetry : TelemetryState;
           lastHistoryUpdateRef : Z }.

Definition updateFromTle (satrec : option OrbitalModel)
           (velocity : VelocityModel) (cancelled : bool) (now : Z)
           (st : LiveState) : LiveState :=
  if cancelled then st
  else
    match computeIssState satrec velocity now with
    | None => st
    | Some state =>
        let telemetry := live_telemetry st in
        if (now - lastHistoryUpdateRef st >=? HISTORY_SAMPLE_INTERVAL_MS)%Z
        then mkLive (mkTelemetry (Some state)
                                 (sliceLast 120 (issHistory telemetry ++ [state]))
                                 (error telemetry))
                    now
        else mkLive (mkTelemetry (Some state) (issHistory telemetry)
                                 (error telemetry))
                    (lastHistoryUpdateRef st)
    end.

(** What happens to the shared state while both effects are mounted: a
    round of [fetchIssData] with its outcome, or a call of [updateFromTle]
    at a reading [now] of the clock. *)
Inductive LiveEvent : Type :=
| Poll (outcome : FetchOutcome)
| Tick (now : Z).

Definition liveStep (satrec : option OrbitalModel) (velocity : VelocityModel)
           (st : LiveState) (event : LiveEvent) : LiveState :=
  match event with
  | Poll outcome =>
      mkLive (fetchIssData false outcome (live_telemetry st))
             (lastHistoryUpdateRef st)
  | Tick now => updateFromTle satrec velocity false now st
  end.

Definition liveRun (satrec : option OrbitalModel) (velocity : VelocityModel)
           (events : list LiveEvent) (st : LiveState) : LiveState :=
  fold_left (liveStep satrec velocity) events st.

(** The position a round of [fetchIssData] stores, if it stores one. *)
Definition positionOf (outcome : FetchOutcome) : option IssPosition :=
  match outcome with
  | ResponseData latitude longitude timestamp velocity =>
      Some (mkIss latitude longitude (timestamp * 1000) (Some velocity))
  | _ => None
  end.

(** The position an event hands to [setIssPosition], if any. *)
Definition writtenPosition (satrec : option OrbitalModel)
           (velocity : VelocityModel) (event : LiveEvent)
  : option IssPosition :=
  match event with
  | Poll outcome => positionOf outcome
  | Tick now => computeIssState satrec velocity now
  end.

(** The outcomes of the rounds among the events, and the positions their
    successful rounds store, in order. *)
Definition pollsOf (events : list LiveEvent) : list FetchOutcome :=
  flat_map (fun event =>
              match event with Poll outcome => [outcome] | Tick _ => [] end)
           events.

Definition storedPositions (outcomes : list FetchOutcome) : list IssPosition :=
  flat_map (fun outcome =>
              match positionOf outcome with
              | Some position => [position]
              | None => []
              end) outcomes.

(** Which writer appended a history entry. *)
Inductive Writer : Type := Telemetry | Synthetic.

Definition entriesOf (w : Writer) (entries : list (Writer * IssPosition))
  : list IssPosition :=
  map snd (filter (fun e => match fst e, w with
                            | Telemetry, Telemetry => true
                            | Synthetic, Synthetic => true
                            | _, _ => false
                            end) entries).

(** [haversineDistanceKm(issPosition, targetPoint)]. *)
Definition distanceKm {F : Float64} (issPosition : option IssPosition)
           (targetPoint : option GeoPoint) : option num :=
  haversineDistanceKm
    (match issPosition with
     | Some s => Some (mkGeo (iss_lat s) (iss_lng s))
     | None => None
     end)
    targetPoint.

(** ** Arrival estimates *)

Definition ORBIT_MINUTES : R := 92.

(** [dateNow] is the reading of [Date.now()] inside the memo. *)
Definition etaMinutes (nextPassPrediction : option PassPrediction)
           (dateNow : Z) (fallbackEtaMinutes : option R) : option R :=
  match nextPassPrediction with
  | Some p =>
      if (time p =? 0)%Z then fallbackEtaMinutes
      else Some (IZR (time p - dateNow) / 60000)
  | None => fallbackEtaMinutes
  end.

Definition orbitsRemaining (etaMinutes : option R) : option R :=
  match etaMinutes with
  | None => None
  | Some eta => Some (eta / ORBIT_MINUTES)
  end.

(** ** TLE download *)

Definition newline : string := String "010"%char EmptyString.

(** Truthiness of a string that may be absent. *)
Definition truthyString (s : option string) : option string :=
  match s with
  | Some EmptyString => None
  | Some s => Some s
  | None => None
  end.

(** [text.split('\n')] *)
Fixpoint splitLines (text : string) : list string :=
  match text with
  | EmptyString => [EmptyString]
  | String c rest =>
      if Ascii.eqb c "010"%char then EmptyString :: splitLines rest
      else
        match splitLines rest with
        | [] => [String c EmptyString]
        | line :: lines => String c line :: lines
        end
  end.

(** [array.findIndex(p)], [None] for -1. *)
Fixpoint findIndex {A : Type} (p : A -> bool) (l : list A) : option nat :=
  match l with
  | [] => None
  | x :: rest =>
      if p x then Some 0%nat
      else
        match findIndex p rest with
        | Some i => Some (S i)
        | None => None
        end
  end.

(** The body a JSON source answers with: an object whose fields may be
    absent. *)
Record JsonTle : Type :=
  mkJsonTle { json_name : option string;
              json_line1 : option string;
              json_line2 : option string }.

(** How the request to one source can end: [fetch] rejects, the response is
    not ok (with its status as printed), reading the body rejects, or the
    body is read. *)
Inductive Fetched (A : Type) : Type :=
| Threw (message : string)
| NotOk (status : string)
| ReadThrew (message : string)
| Body (body : A).

Arguments Threw {A} message.
Arguments NotOk {A} status.
Arguments ReadThrew {A} message.
Arguments Body {A} body.

(** One entry of [TLE_SOURCES] together with what the network gives for it:
    a source of format 'text' is read with [response.text()], one of format
    'json' with [response.json()] ([None] is a body that is null). *)
Inductive Attempt : Type :=
| TextAttempt (response : Fetched string)
| JsonAttempt (response : Fetched (option JsonTle)).

(** The shape of [TLE_SOURCES]: two text sources, then a JSON source. *)
Definition TLE_SOURCES (celestrakOrg celestrakCom : Fetched string)
           (ivanstanojevic : Fetched (option JsonTle)) : list Attempt :=
  [TextAttempt celestrakOrg; TextAttempt celestrakCom;
   JsonAttempt ivanstanojevic].

(** The body of the inner [try]: [inr] is the value assigned to [text],
    [inl] the message of the error caught. *)
Definition attemptText (a : Attempt) : string + string :=
  match a with
  | TextAttempt response =>
      match response with
      | Threw message => inl message
      | NotOk status => inl ("Respuesta " ++ status)%string
      | ReadThrew message => inl message
      | Body text => inr text
      end
  | JsonAttempt response =>
      match response with
      | Threw message => inl message
      | NotOk status => inl ("Respuesta " ++ status)%string
      | ReadThrew message => inl message
      | Body data =>
          match data with
          | Some d =>
              match truthyString (json_line1 d), truthyString (json_line2 d) with
              | Some line1, Some line2 =>
                  let name :=
                    match truthyString (json_name d) with
                    | Some n => n
                    | None => "ISS (ZARYA)"%string
                    end in
                  inr (name ++ newline ++ line1 ++ newline ++ line2)%string
              | _, _ => inl "JSON sin lineas TLE"%string
              end
          | None => inl "JSON sin lineas TLE"%string
          end
      end
  end.

(** The loop over the sources: [text] and [lastError] when it ends. *)
Fixpoint downloadLoop (attempts : list Attempt) (lastError : option string)
  : option string * option string :=
  match attempts with
  | [] => (None, lastError)
  | a :: rest =>
      match attemptText a with
      | inr text => (Some text, lastError)
      | inl message => downloadLoop rest (Some message)
      end
  end.

Record Tle : Type := mkTle { line1 : string; line2 : string; fetchedAt : Z }.

(** The state both downloads write: [error] is the one [setError] shared
    with the telemetry effect. *)
Record AppState : Type :=
  mkApp { telemetry : TelemetryState; tle : option Tle }.

Definition setError (message : option string) (st : AppState) : AppState :=
  mkApp (mkTelemetry (issPosition (telemetry st)) (issHistory (telemetry st))
                     message)
        (tle st).

Section TleDownload.

(** [String.prototype.trim] and [String.prototype.toUpperCase]. *)
Variable trim : string -> string.
Variable toUpperCase : string -> string.

(** The two lines that follow the first line starting with the station's
    name, when both are present and not empty. *)
Definition parseTle (text : string) : option (string * string) :=
  let lines := map trim (splitLines text) in
  let index :=
    findIndex (fun line => String.prefix "ISS (ZARYA)" (toUpperCase line))
              lines in
  match index with
  | Some index =>
      match truthyString (nth_error lines (index + 1)),
            truthyString (nth_error lines (index + 2)) with
      | Some line1, Some line2 => Some (line1, line2)
      | _, _ => None
      end
  | None => None
  end.

Definition fetchTle (cancelled : bool) (attempts : list Attempt)
           (dateNow : Z) (st : AppState) : AppState :=
  let onError message :=
    if cancelled then st else setError (Some message) st in
  let '(text, lastError) := downloadLoop attempts None in
  match truthyString text with
  | None =>
      let msg :=
        match truthyString lastError with
        | Some m => m
        | None => "No se pudo descargar el TLE de la ISS"%string
        end in
      onError ("Fuentes TLE inalcanzables (" ++ msg ++ ")")%string
  | Some text =>
      if cancelled then st
      else
        match parseTle text with
        | Some (line1, line2) =>
            setError None
                     (mkApp (telemetry st) (Some (mkTle line1 line2 dateNow)))
        | None => onError "No encontramos el TLE de la ISS"%string
        end
  end.

End TleDownload.

(** ** The earlier single-phase predictor (part_000) *)

Module Legacy.

Definition PASS_STEP_SECONDS : Z := 30.
Definition PASS_THRESHOLD_KM : R := 75.

Section Predictor.

Context {F : Float64}.
Variable satrec : option OrbitalModel.
Variable targetPoint : option GeoPoint.
Variable now : Z.

(** The loop: [inl] is the early return at a sample within the threshold,
    [inr] carries [best] out of the loop. *)
Fixpoint scan (ts : list Z) (best : Best) : PassPrediction + Best :=
  match ts with
  | [] => inr best
  | t :: rest =>
      match groundDistance satrec targetPoint t with
      | None => scan rest best
      | Some dist =>
          let best1 :=
            if num_lt (Fin dist) (best_distance best)
            then mkBest (Fin dist) (Some t)
            else best in
          if Rle_dec dist PASS_THRESHOLD_KM
          then inl (mkPrediction t (Fin dist) true)
          else scan rest best1
      end
  end.

Definition nextPassPrediction : option PassPrediction :=
  match satrec, targetPoint with
  | Some _, Some _ =>
      match scan (loop_times now (lookaheadEnd now)
                             (PASS_STEP_SECONDS * 1000)%Z)
                 (mkBest PInf None) with
      | inl prediction => Some prediction
      | inr best => fallbackPrediction best
      end
  | _, _ => None
  end.

End Predictor.

End Legacy.

(** A string without a line feed. *)
Fixpoint singleLine (s : string) : bool :=
  match s with
  | EmptyString => true
  | String c rest => negb (Ascii.eqb c "010"%char) && singleLine rest
  end.

(** An attempt that ends in the [catch] of the loop. *)
Definition fails (a : Attempt) : Prop := exists message, attemptText a = inl message.

(* ================================================================== *)
(** * Part II: properties *)
(* ================================================================== *)

(** ** Truncation and remainder *)

Lemma Rtrunc_nonneg (r : R) :
  0 <= r -> IZR (Rtrunc r) <= r < IZR (Rtrunc r) + 1.
Proof.
  intros Hr. unfold Rtrunc.
  destruct (Rle_dec 0 r) as [_ | Hn]; [| contradiction].
  destruct (base_Int_part r) as [H1 H2]. lra.
Qed.

Lemma Rtrunc_neg (r : R) :
  r < 0 -> r <= IZR (Rtrunc r) < r + 1.
Proof.
  intros Hr. unfold Rtrunc.
  destruct (Rle_dec 0 r) as [Hn | _]; [lra |].
  rewrite opp_IZR.
  destruct (base_Int_part (- r)) as [H1 H2]. lra.
Qed.

Lemma Rtrunc_small (r : R) : -1 < r < 1 -> Rtrunc r = 0%Z.
Proof.
  intros [Hlo Hhi]. unfold Rtrunc.
  destruct (Rle_dec 0 r) as [Hp | Hn].
  - symmetry. apply Int_part_spec. simpl. lra.
  - replace (Int_part (- r)) with 0%Z; [reflexivity |].
    apply Int_part_spec. simpl. lra.
Qed.

Lemma js_rem_360_bounds (x : R) :
  (0 <= x -> 0 <= js_rem x 360 < 360) /\
  (x < 0 -> -360 < js_rem x 360 <= 0).
Proof.
  unfold js_rem. split; intros Hx.
  - assert (Hq : 0 <= x / 360) by lra.
    pose proof (Rtrunc_nonneg _ Hq). lra.
  - assert (Hq : x / 360 < 0) by lra.
    pose proof (Rtrunc_neg _ Hq). lra.
Qed.

Lemma js_rem_360_small (x : R) : -360 < x < 360 -> js_rem x 360 = x.
Proof.
  intros Hx. unfold js_rem.
  rewrite Rtrunc_small by lra. simpl. lra.
Qed.

(** ** Geodesy *)

Lemma normalizeFinite_range (x : R) : -180 <= normalizeFinite x <= 180.
Proof.
  unfold normalizeFinite.
  destruct (js_rem_360_bounds x) as [Hpos Hneg].
  destruct (Rle_dec 0 x) as [Hx | Hx].
  - specialize (Hpos Hx).
    destruct (Rgt_dec (js_rem x 360) 180);
      match goal with |- context [Rlt_dec ?a ?b] => destruct (Rlt_dec a b) end;
      lra.
  - assert (Hx' : x < 0) by lra. specialize (Hneg Hx').
    destruct (Rgt_dec (js_rem x 360) 180);
      match goal with |- context [Rlt_dec ?a ?b] => destruct (Rlt_dec a b) end;
      lra.
Qed.

Lemma normalizeFinite_fixed (y : R) :
  -180 <= y <= 180 -> normalizeFinite y = y.
Proof.
  intros Hy. unfold normalizeFinite.
  rewrite js_rem_360_small by lra.
  destruct (Rgt_dec y 180); [lra |].
  destruct (Rlt_dec y (-180)); [lra | reflexivity].
Qed.

Lemma toRad_half_swap (x y : R) :
  toRad (x - y) / 2 = - (toRad (y - x) / 2).
Proof. unfold toRad. field. Qed.

Lemma sin_sq_half_swap (x y : R) :
  sin (toRad (x - y) / 2) * sin (toRad (x - y) / 2) =
  sin (toRad (y - x) / 2) * sin (toRad (y - x) / 2).
Proof. rewrite toRad_half_swap, sin_neg. ring. Qed.

Lemma atan2_0_1 : atan2 0 1 = 0.
Proof.
  unfold atan2. destruct (Rlt_dec 0 1) as [_ | H]; [| lra].
  replace (0 / 1) with 0 by field. apply atan_0.
Qed.

Lemma greatCircleKm_same (p : GeoPoint) : greatCircleKm p p = 0.
Proof.
  unfold greatCircleKm.
  replace (lat p - lat p) with 0 by ring.
  replace (lng p - lng p) with 0 by ring.
  replace (toRad 0 / 2) with 0 by (unfold toRad; field).
  rewrite sin_0.
  replace (0 * 0 + 0 * 0 * cos (toRad (lat p)) * cos (toRad (lat p)))
    with 0 by ring.
  rewrite sqrt_0, Rminus_0_r, sqrt_1, atan2_0_1. ring.
Qed.

Lemma greatCircleKm_comm (a b : GeoPoint) :
  greatCircleKm a b = greatCircleKm b a.
Proof.
  unfold greatCircleKm.
  rewrite (sin_sq_half_swap (lat b) (lat a)).
  rewrite (sin_sq_half_swap (lng b) (lng a)).
  replace (sin (toRad (lng a - lng b) / 2) * sin (toRad (lng a - lng b) / 2) *
           cos (toRad (lat a)) * cos (toRad (lat b)))
    with (sin (toRad (lng a - lng b) / 2) * sin (toRad (lng a - lng b) / 2) *
          cos (toRad (lat b)) * cos (toRad (lat a))) by ring.
  reflexivity.
Qed.

(** In exact arithmetic [a] is the haversine of the central angle and lies
    in [0, 1]. *)
Lemma exact_a_range (x y l : R) :
  0 <= sin ((y - x) / 2) * sin ((y - x) / 2) +
       sin (l / 2) * sin (l / 2) * cos x * cos y <= 1.
Proof.
  pose proof (cos_2a_sin ((y - x) / 2)) as Hhalf.
  replace (2 * ((y - x) / 2)) with (y - x) in Hhalf by field.
  pose proof (cos_minus y x) as Hminus.
  pose proof (cos_plus y x) as Hplus.
  pose proof (COS_bound (y - x)) as [HD1 HD2].
  pose proof (COS_bound (y + x)) as [HS1 HS2].
  pose proof (SIN_bound (l / 2)) as [Hu1 Hu2].
  set (u := sin (l / 2) * sin (l / 2)).
  assert (Hu : 0 <= u <= 1) by (unfold u; split; nra).
  set (D := cos (y - x)) in *. set (S := cos (y + x)) in *.
  assert (Ha : sin ((y - x) / 2) * sin ((y - x) / 2) + u * cos x * cos y =
               (1 - D + u * D + u * S) / 2) by nra.
  rewrite Ha. split; nra.
Qed.

Lemma toRad_minus (x y : R) : toRad (x - y) = toRad x - toRad y.
Proof. unfold toRad. field. Qed.

(** In exact arithmetic the function returns the great-circle distance of
    the formula: [a] never leaves [0, 1]. *)
Lemma haversine_exact (o t : GeoPoint) :
  haversineDistanceKm (F := exactArithmetic) (Some o) (Some t) =
  Some (Fin (greatCircleKm o t)).
Proof.
  pose proof (exact_a_range (toRad (lat o)) (toRad (lat t))
                            (toRad (lng t - lng o))) as Ha.
  rewrite <- toRad_minus in Ha.
  unfold haversineDistanceKm, haversineA, greatCircleKm.
  cbn [round Math_PI Math_sin Math_cos Math_atan2 exactArithmetic].
  fold (toRad (lat t - lat o)) (toRad (lng t - lng o))
       (toRad (lat o)) (toRad (lat t)).
  destruct (Rlt_dec _ 0); [lra |].
  destruct (Rlt_dec _ 0); [lra |].
  reflexivity.
Qed.

(** Whatever the rounding, two identical points are at distance 0. *)
Lemma haversine_identical {F : Float64} (p : GeoPoint) :
  haversineDistanceKm (Some p) (Some p) = Some (Fin 0).
Proof.
  assert (Ha : haversineA p p = 0).
  { unfold haversineA.
    replace (lat p - lat p) with 0 by ring.
    replace (lng p - lng p) with 0 by ring.
    rewrite round_0. rewrite !Rmult_0_l, round_0.
    replace (0 / 180) with 0 by field. rewrite round_0.
    replace (0 / 2) with 0 by field. rewrite round_0, Math_sin_0.
    repeat (rewrite Rmult_0_l || rewrite round_0 || rewrite Rplus_0_l).
    reflexivity. }
  unfold haversineDistanceKm. rewrite Ha.
  destruct (Rlt_dec 0 0); [lra |].
  rewrite Rminus_0_r, round_1.
  destruct (Rlt_dec 1 0); [lra |].
  rewrite sqrt_0, sqrt_1, round_0, round_1, Math_atan2_0_1.
  rewrite Rmult_0_r, round_0, Rmult_0_r, round_0. reflexivity.
Qed.

(** C9, as stated, fails on the doubles the program computes with.  From
    (70, -129) to (21, -90) the distance is 6027.210228570416 km; from
    (21, -90) to (70, -129) it is 6027.210228570417 km: swapping the
    arguments swaps the two cosines, so the products of [a] are taken in
    another order and round differently.  This holds for every engine whose
    [Math.sin], [Math.cos] and [Math.atan2] return the nearest double at the
    eight arguments met, and such a library exists. *)
Lemma haversineDistanceKm_direction_changes_last_digit :
  exists a b : Double.GeoPoint,
    a = Double.mkGeo 70 (-129) /\
    b = Double.mkGeo 21 (-90) /\
    (exists Math, Double.nearestAtSamples Math) /\
    (forall Math,
        Double.nearestAtSamples Math ->
        Double.haversineDistanceKm Math (Some a) (Some b) =
        Some 0x1.78b35d18a229fp+12%float /\
        Double.haversineDistanceKm Math (Some b) (Some a) =
        Some 0x1.78b35d18a22a0p+12%float /\
        Double.haversineDistanceKm Math (Some a) (Some b) <>
        Double.haversineDistanceKm Math (Some b) (Some a)).
Proof.
  eexists _, _. split; [reflexivity |]. split; [reflexivity |].
  split.
  { exists (Double.mkMath
              (fun x =>
                 if PrimFloat.ltb x 0 then
                   (if PrimFloat.eqb x (-0x1.b5de4288e80bfp-2)
                    then -0x1.a8a5586c52ad3p-2
                    else -0x1.55d1771e5bab9p-2)%float
                 else
                   (if PrimFloat.eqb x 0x1.b5de4288e80bfp-2
                    then 0x1.a8a5586c52ad3p-2
                    else 0x1.55d1771e5bab9p-2)%float)
              (fun x =>
                 if PrimFloat.eqb x 0x1.38c35418a5bf6p+0
                 then 0x1.5e3a8748a0bf7p-2%float
                 else 0x1.ddfe40effb805p-1%float)
              (fun y _ =>
                 if PrimFloat.eqb y 0x1.d282848eeff10p-2
                 then 0x1.e45f22f62a900p-2%float
                 else 0x1.e45f22f62a901p-2%float)).
    unfold Double.nearestAtSamples.
    cbn [Double.sin Double.cos Double.atan2].
    repeat split; vm_compute; reflexivity. }
  intros [sin cos atan2] H. unfold Double.nearestAtSamples in H.
  cbn [Double.sin Double.cos Double.atan2] in H.
  destruct H as (H1 & H2 & H3 & H4 & H5 & H6 & H7 & H8).
  assert (Hab : Double.haversineDistanceKm
                  (Double.mkMath sin cos atan2)
                  (Some (Double.mkGeo 70 (-129))) (Some (Double.mkGeo 21 (-90))) =
                Some 0x1.78b35d18a229fp+12%float).
  { vm_compute. rewrite H1, H3, H5, H6. vm_compute. rewrite H7.
    vm_compute. reflexivity. }
  assert (Hba : Double.haversineDistanceKm
                  (Double.mkMath sin cos atan2)
                  (Some (Double.mkGeo 21 (-90))) (Some (Double.mkGeo 70 (-129))) =
                Some 0x1.78b35d18a22a0p+12%float).
  { vm_compute. rewrite H2, H4, H5, H6. vm_compute. rewrite H8.
    vm_compute. reflexivity. }
  split; [exact Hab |]. split; [exact Hba |].
  rewrite Hab, Hba. discriminate.
Qed.

(** C9 (amended). A null argument on either side gives null; whatever the
    rounding, the distance from a point to itself is 0; and in exact
    arithmetic the distance is symmetric (in doubles the two argument orders
    round the product of [a] in different orders). *)
Theorem haversineDistanceKm_null_zero_exact_symmetry :
  (forall (F : Float64) (p : option GeoPoint),
      haversineDistanceKm None p = None /\ haversineDistanceKm p None = None) /\
  (forall (F : Float64) (a : GeoPoint),
      haversineDistanceKm (Some a) (Some a) = Some (Fin 0)) /\
  (forall a b : GeoPoint,
      haversineDistanceKm (F := exactArithmetic) (Some a) (Some b) =
      haversineDistanceKm (F := exactArithmetic) (Some b) (Some a)).
Proof.
  split; [intros F [p |]; split; reflexivity |].
  split; [intros F a; apply haversine_identical |].
  intros a b. rewrite !haversine_exact. now rewrite greatCircleKm_comm.
Qed.

(** C3, as stated, fails at -180: the remainder of -180 by 360 is -180,
    neither correction applies, and -180 is outside (-180, 180]. *)
Lemma normalizeLng_minus_180_outside :
  exists y, normalizeLng (Fin (-180)) = Fin y /\ ~ (-180 < y <= 180).
Proof.
  exists (-180). split; [| lra].
  unfold normalizeLng. cbn [Number_isFinite].
  f_equal. apply normalizeFinite_fixed. lra.
Qed.

(** C3 (amended). For every finite x, normalizeLng(x) is finite and lies in
    the closed interval [-180, 180]; normalizeLng is idempotent; NaN and the
    two infinities are returned unchanged. *)
Theorem normalizeLng_closed_range_idempotent :
  (forall x : R,
      exists y, normalizeLng (Fin x) = Fin y /\ -180 <= y <= 180) /\
  (forall n : num, normalizeLng (normalizeLng n) = normalizeLng n) /\
  normalizeLng NaN = NaN /\
  normalizeLng PInf = PInf /\
  normalizeLng NInf = NInf.
Proof.
  split.
  { intros x. exists (normalizeFinite x). split; [reflexivity |].
    apply normalizeFinite_range. }
  split.
  { intros [x | | |]; unfold normalizeLng; cbn [Number_isFinite];
      try reflexivity.
    f_equal. apply normalizeFinite_fixed, normalizeFinite_range. }
  repeat split.
Qed.

(** ** The iteration space of a counting loop *)

Lemma loop_times_nil (from to step : Z) :
  (0 < step)%Z -> (to < from)%Z -> loop_times from to step = [].
Proof.
  intros Hs Hlt. unfold loop_times.
  assert (H : ((to - from) / step < 0)%Z)
    by (apply Z.div_lt_upper_bound; lia).
  replace (Z.to_nat ((to - from) / step + 1)) with 0%nat by lia.
  reflexivity.
Qed.

Lemma loop_times_cons (from to step : Z) :
  (0 < step)%Z -> (from <= to)%Z ->
  loop_times from to step = from :: loop_times (from + step) to step.
Proof.
  intros Hs Hle. unfold loop_times.
  assert (Hq : (0 <= (to - from) / step)%Z) by (apply Z.div_pos; lia).
  assert (Hd : ((to - (from + step)) / step = (to - from) / step - 1)%Z).
  { replace (to - (from + step))%Z with ((to - from) + (-1) * step)%Z by ring.
    rewrite Z.div_add by lia. ring. }
  rewrite Hd.
  replace (Z.to_nat ((to - from) / step + 1))
    with (S (Z.to_nat ((to - from) / step))) by lia.
  replace ((to - from) / step - 1 + 1)%Z with ((to - from) / step)%Z by ring.
  simpl. f_equal; [lia |].
  rewrite <- seq_shift, map_map.
  apply map_ext. intros k. lia.
Qed.

Lemma loop_times_length (from to step : Z) :
  length (loop_times from to step) = Z.to_nat ((to - from) / step + 1).
Proof. unfold loop_times. now rewrite length_map, length_seq. Qed.

(** Induction along the loop: the empty range, and one iteration followed by
    the loop restarted one step later. *)
Lemma loop_times_rect (step to : Z) (P : Z -> list Z -> Prop) :
  (0 < step)%Z ->
  (forall from, (to < from)%Z -> P from []) ->
  (forall from, (from <= to)%Z ->
                P (from + step)%Z (loop_times (from + step) to step) ->
                P from (from :: loop_times (from + step) to step)) ->
  forall from, P from (loop_times from to step).
Proof.
  intros Hs Hnil Hcons from.
  remember (length (loop_times from to step)) as n eqn:Hn.
  revert from Hn. induction n as [| n IH]; intros from Hn.
  - destruct (Z_lt_le_dec to from) as [Hlt | Hle].
    + rewrite loop_times_nil by assumption. now apply Hnil.
    + rewrite loop_times_cons in Hn by assumption. discriminate.
  - destruct (Z_lt_le_dec to from) as [Hlt | Hle].
    + rewrite loop_times_nil in Hn by assumption. discriminate.
    + rewrite loop_times_cons in * by assumption.
      apply Hcons; [assumption |].
      apply IH. simpl in Hn. congruence.
Qed.

Lemma loop_times_In (from to step t : Z) :
  (0 < step)%Z ->
  In t (loop_times from to step) <->
  (exists k : Z, (0 <= k)%Z /\ t = (from + k * step)%Z /\ (t <= to)%Z).
Proof.
  intros Hs. revert t.
  apply (loop_times_rect step to
           (fun from l => forall t, In t l <->
              exists k : Z, (0 <= k)%Z /\ t = (from + k * step)%Z /\ (t <= to)%Z));
    [assumption | |].
  - intros a Hlt t. split; [intros [] |].
    intros (k & Hk & -> & Hle). nia.
  - intros a Hle IH t. simpl. rewrite IH. split.
    + intros [<- | (k & Hk & -> & Ht)].
      * exists 0%Z. repeat split; lia.
      * exists (k + 1)%Z. repeat split; lia.
    + intros (k & Hk & -> & Ht).
      destruct (Z.eq_dec k 0) as [-> | Hnz]; [left; lia |].
      right. exists (k - 1)%Z. repeat split; lia.
Qed.

Lemma loop_times_lower (from to step t : Z) :
  (0 < step)%Z -> In t (loop_times from to step) -> (from <= t <= to)%Z.
Proof.
  intros Hs Hin. apply loop_times_In in Hin; [| assumption].
  destruct Hin as (k & Hk & -> & Hle). nia.
Qed.

Lemma loop_times_sorted (from to step : Z) :
  (0 < step)%Z -> StronglySorted Z.lt (loop_times from to step).
Proof.
  intros Hs.
  apply (loop_times_rect step to (fun _ l => StronglySorted Z.lt l));
    [assumption | |].
  - intros a _. constructor.
  - intros a Hle IH. constructor; [assumption |].
    apply Forall_forall. intros t Hin.
    apply loop_times_lower in Hin; [lia | assumption].
Qed.

Lemma StronglySorted_split (l1 l2 : list Z) (x : Z) :
  StronglySorted Z.lt (l1 ++ x :: l2) ->
  (forall t, In t l1 -> (t < x)%Z) /\ (forall t, In t l2 -> (x < t)%Z).
Proof.
  induction l1 as [| y l1 IH]; simpl; intros Hs.
  - apply StronglySorted_inv in Hs. destruct Hs as [_ Hall].
    rewrite Forall_forall in Hall. split; [intros t [] | exact Hall].
  - apply StronglySorted_inv in Hs. destruct Hs as [Hs Hall].
    destruct (IH Hs) as [H1 H2]. rewrite Forall_forall in Hall.
    split; [| exact H2].
    intros t [<- | Hin]; [| now apply H1].
    apply Hall. apply in_or_app. right. now left.
Qed.

(** The first element satisfying a test, with what precedes it. *)
Lemma first_split {A : Type} (p : A -> bool) (l : list A) :
  (exists x, In x l /\ p x = true) ->
  exists l1 x l2,
    l = l1 ++ x :: l2 /\ p x = true /\ (forall y, In y l1 -> p y = false).
Proof.
  induction l as [| a l IH]; intros (x & Hin & Hp); [destruct Hin |].
  destruct (p a) eqn:Ha.
  - exists [], a, l. repeat split; [assumption | intros y []].
  - destruct IH as (l1 & y & l2 & -> & Hy & Hl1).
    { destruct Hin as [-> | Hin]; [congruence | eauto]. }
    exists (a :: l1), y, l2. repeat split; [assumption |].
    intros z [<- | Hz]; [assumption | now apply Hl1].
Qed.

(** ** Haversine on the equator *)

Lemma PI_gt_3 : 3 < PI.
Proof. pose proof PI2_3_2. lra. Qed.

(** Between two points of the equator less than half a turn apart the
    distance is the arc length. *)
Lemma greatCircleKm_equator (l : R) :
  0 <= l < 180 ->
  greatCircleKm (mkGeo 0 l) (mkGeo 0 0) = EARTH_RADIUS_KM * toRad l.
Proof.
  intros Hl. unfold greatCircleKm. simpl.
  pose proof PI_gt_3 as Hpi.
  set (x := toRad l / 2).
  assert (Hx : 0 <= x < PI / 2).
  { unfold x, toRad. split.
    - apply Rmult_le_pos; [| lra].
      apply Rmult_le_pos; [| lra]. apply Rmult_le_pos; lra.
    - apply Rmult_lt_reg_r with (r := 360); [lra |].
      replace (l * PI / 180 / 2 * 360) with (l * PI) by field.
      replace (PI / 2 * 360) with (180 * PI) by field.
      apply Rmult_lt_compat_r; lra. }
  replace (0 - 0) with 0 by ring.
  replace (toRad 0) with 0 by (unfold toRad; field).
  replace (0 / 2) with 0 by field.
  replace (toRad (0 - l) / 2) with (- x) by (unfold x, toRad; field).
  rewrite sin_0, cos_0, sin_neg.
  assert (Hs : 0 <= sin x) by (apply sin_ge_0; lra).
  assert (Hc : 0 < cos x) by (apply cos_gt_0; lra).
  pose proof (sin2_cos2 x) as H2. unfold Rsqr in H2.
  replace (0 * 0 + - sin x * - sin x * 1 * 1) with (sin x * sin x) by ring.
  replace (1 - sin x * sin x) with (cos x * cos x) by lra.
  rewrite !sqrt_square by lra.
  unfold atan2. destruct (Rlt_dec 0 (cos x)) as [_ | Hn]; [| contradiction].
  change (sin x / cos x) with (tan x).
  rewrite atan_tan by lra.
  unfold x. field.
Qed.

Lemma haversine_equator (l : R) :
  0 <= l < 180 ->
  haversineDistanceKm (Some (mkGeo 0 l)) (Some (mkGeo 0 0)) =
  Some (Fin (EARTH_RADIUS_KM * toRad l)).
Proof.
  intros Hl. rewrite haversine_exact. now rewrite greatCircleKm_equator.
Qed.

(** ** Pass predictor: the bookkeeping of [best] *)

Section PredictorFacts.

Context {F : Float64}.
Variable m : OrbitalModel.
Variable tp : GeoPoint.
Variable thr : R.
Variable now : Z.

Let ev := groundDistance (Some m) (Some tp).
Let eval := evaluatePoint (Some m) (Some tp).

Lemma evaluatePoint_fst (t : Z) (b : Best) : fst (eval t b) = ev t.
Proof.
  unfold eval, evaluatePoint. fold ev.
  destruct (ev t) as [d |]; [| reflexivity].
  destruct (num_lt (Fin d) (best_distance b)); reflexivity.
Qed.

Lemma EarliestClosest_all (ts : list Z) (t : Z) (d : R) :
  EarliestClosest ev ts t d ->
  forall u du, In u ts -> ev u = Some du -> d <= du.
Proof.
  intros (l1 & l2 & -> & Ht & H1 & H2) u du Hin Hu.
  apply in_app_or in Hin. destruct Hin as [Hin | [<- | Hin]].
  - left. eapply H1; eassumption.
  - rewrite Ht in Hu. injection Hu as <-. lra.
  - eapply H2; eassumption.
Qed.

Lemma EarliestClosest_In (ts : list Z) (t : Z) (d : R) :
  EarliestClosest ev ts t d -> In t ts /\ ev t = Some d.
Proof.
  intros (l1 & l2 & -> & Ht & _). split; [| assumption].
  apply in_or_app. right. now left.
Qed.

Lemma BestOf_nil : BestOf ev [] (mkBest PInf None).
Proof. left. split; [reflexivity | intros u []]. Qed.

Lemma evaluatePoint_BestOf (seen : list Z) (t : Z) (b : Best) :
  BestOf ev seen b -> BestOf ev (seen ++ [t]) (snd (eval t b)).
Proof.
  intros Hb. unfold eval, evaluatePoint. fold ev.
  destruct (ev t) as [d |] eqn:Ht.
  - destruct Hb as [[-> Hnone] | (t0 & d0 & -> & Hec)]; simpl.
    + right. exists t, d. split; [reflexivity |].
      exists seen, []. repeat split; try assumption.
      * intros u du Hin Hu. rewrite (Hnone u Hin) in Hu. discriminate.
      * intros u du [].
    + destruct (Rlt_dec d d0) as [Hlt | Hge]; simpl.
      * right. exists t, d. split; [reflexivity |].
        exists seen, []. repeat split; try assumption.
        -- intros u du Hin Hu.
           pose proof (EarliestClosest_all _ _ _ Hec u du Hin Hu). lra.
        -- intros u du [].
      * right. exists t0, d0. split; [reflexivity |].
        destruct Hec as (l1 & l2 & -> & Ht0 & H1 & H2).
        exists l1, (l2 ++ [t]). rewrite <- app_assoc. simpl.
        repeat split; try assumption.
        intros u du Hin Hu. apply in_app_or in Hin.
        destruct Hin as [Hin | [<- | []]]; [eapply H2; eassumption |].
        rewrite Ht in Hu. injection Hu as <-. lra.
  - simpl. destruct Hb as [[-> Hnone] | (t0 & d0 & -> & Hec)].
    + left. split; [reflexivity |].
      intros u Hin. apply in_app_or in Hin.
      destruct Hin as [Hin | [<- | []]]; [now apply Hnone | assumption].
    + right. exists t0, d0. split; [reflexivity |].
      destruct Hec as (l1 & l2 & -> & Ht0 & H1 & H2).
      exists l1, (l2 ++ [t]). rewrite <- app_assoc. simpl.
      repeat split; try assumption.
      intros u du Hin Hu. apply in_app_or in Hin.
      destruct Hin as [Hin | [<- | []]]; [eapply H2; eassumption |].
      rewrite Ht in Hu. discriminate.
Qed.

(** A coarse scan that never comes within the coarse threshold runs to the
    end of its range and opens no refine window. *)
Lemma coarseScan_miss (ts seen : list Z) (b : Best) :
  (forall t, In t ts -> within (ev t) PASS_THRESHOLD_COARSE_KM = false) ->
  BestOf ev seen b ->
  exists b', coarseScan (Some m) (Some tp) now ts b = (b', None) /\
             BestOf ev (seen ++ ts) b'.
Proof.
  revert seen b. induction ts as [| t ts IH]; intros seen b Hmiss Hb.
  - exists b. rewrite app_nil_r. split; [reflexivity | assumption].
  - simpl. fold eval.
    pose proof (evaluatePoint_fst t b) as Hf.
    pose proof (evaluatePoint_BestOf seen t b Hb) as Hs.
    destruct (eval t b) as [dist b1]. simpl in Hf, Hs. subst dist.
    rewrite (Hmiss t (or_introl eq_refl)).
    destruct (IH (seen ++ [t]) b1) as (b' & Hscan & Hb').
    { intros u Hu. apply Hmiss. now right. }
    { assumption. }
    exists b'. split; [assumption |].
    now rewrite <- app_assoc in Hb'.
Qed.

(** A coarse scan stops at the first sample within the coarse threshold and
    opens the refine window around it. *)
Lemma coarseScan_hit (l1 l2 seen : list Z) (tc : Z) (b : Best) :
  (forall t, In t l1 -> within (ev t) PASS_THRESHOLD_COARSE_KM = false) ->
  within (ev tc) PASS_THRESHOLD_COARSE_KM = true ->
  BestOf ev seen b ->
  exists b',
    coarseScan (Some m) (Some tp) now (l1 ++ tc :: l2) b =
    (b', Some (mkWindow (Z.max now (tc - refineWindowMs))
                        (Z.min (lookaheadEnd now) (tc + refineWindowMs)))) /\
    BestOf ev (seen ++ l1 ++ [tc]) b'.
Proof.
  revert seen b. induction l1 as [| t l1 IH]; intros seen b Hmiss Hhit Hb.
  - simpl. fold eval.
    pose proof (evaluatePoint_fst tc b) as Hf.
    pose proof (evaluatePoint_BestOf seen tc b Hb) as Hs.
    destruct (eval tc b) as [dist b1]. simpl in Hf, Hs. subst dist.
    rewrite Hhit. exists b1. split; [reflexivity | assumption].
  - simpl. fold eval.
    pose proof (evaluatePoint_fst t b) as Hf.
    pose proof (evaluatePoint_BestOf seen t b Hb) as Hs.
    destruct (eval t b) as [dist b1]. simpl in Hf, Hs. subst dist.
    rewrite (Hmiss t (or_introl eq_refl)).
    destruct (IH (seen ++ [t]) b1) as (b' & Hscan & Hb').
    { intros u Hu. apply Hmiss. now right. }
    { assumption. }
    { assumption. }
    exists b'. split; [assumption |].
    now rewrite <- app_assoc in Hb'.
Qed.

(** The refine scan returns at the first sample within the pass threshold. *)
Lemma refineScan_hit (f1 f2 : list Z) (tq : Z) (dq : R) (b br : Best) :
  (forall t, In t f1 -> within (ev t) thr = false) ->
  ev tq = Some dq -> dq <= thr ->
  refineScan (Some m) (Some tp) thr (f1 ++ tq :: f2) b br =
  inl (mkPrediction tq (Fin dq) true).
Proof.
  revert b br. induction f1 as [| t f1 IH]; intros b br Hmiss Hq Hle.
  - simpl. fold eval.
    pose proof (evaluatePoint_fst tq b) as Hf.
    destruct (eval tq b) as [dist b1]. simpl in Hf. subst dist.
    rewrite Hq. destruct (Rle_dec dq thr); [reflexivity | contradiction].
  - simpl. fold eval.
    pose proof (evaluatePoint_fst t b) as Hf.
    destruct (eval t b) as [dist b1]. simpl in Hf. subst dist.
    pose proof (Hmiss t (or_introl eq_refl)) as Ht.
    assert (Hrest : forall u, In u f1 -> within (ev u) thr = false)
      by (intros u Hu; apply Hmiss; now right).
    destruct (ev t) as [d |]; simpl in Ht.
    + destruct (Rle_dec d thr); [discriminate |]. now apply IH.
    + now apply IH.
Qed.

End PredictorFacts.

(** ** Pass predictor: outcomes *)

Lemma EarliestClosest_sorted (ev : Z -> option R) (ts : list Z) (t : Z) (d : R) :
  StronglySorted Z.lt ts ->
  EarliestClosest ev ts t d ->
  In t ts /\ ev t = Some d /\
  (forall u du, In u ts -> ev u = Some du ->
                d <= du /\ (du = d -> (t <= u)%Z)).
Proof.
  intros Hs (l1 & l2 & -> & Ht & H1 & H2).
  destruct (StronglySorted_split _ _ _ Hs) as [Hb Ha].
  split; [apply in_or_app; right; now left |].
  split; [assumption |].
  intros u du Hin Hu. apply in_app_or in Hin.
  destruct Hin as [Hin | [<- | Hin]].
  - pose proof (H1 u du Hin Hu). split; lra.
  - rewrite Ht in Hu. injection Hu as <-. split; [lra | lia].
  - pose proof (H2 u du Hin Hu). pose proof (Ha u Hin). split; [lra | lia].
Qed.

Lemma coarseStepMs_pos : (0 < coarseStepMs)%Z.
Proof. reflexivity. Qed.

Lemma refineStepMs_pos : (0 < refineStepMs)%Z.
Proof. reflexivity. Qed.

Lemma truthyTime_pos (t : Z) : (0 < t)%Z -> truthyTime (Some t) = Some t.
Proof.
  intros Ht. unfold truthyTime.
  destruct (Z.eqb_spec t 0); [lia | reflexivity].
Qed.

(** The prediction when the coarse scan never comes within its threshold:
    the fallback on the [best] of the whole coarse range. *)
Lemma nextPassPrediction_miss {F : Float64} (m : OrbitalModel) (tp : GeoPoint) (thr : R)
      (now : Z) :
  (forall t, In t (loop_times now (lookaheadEnd now) coarseStepMs) ->
             within (groundDistance (Some m) (Some tp) t)
                    PASS_THRESHOLD_COARSE_KM = false) ->
  exists best,
    nextPassPrediction (Some m) (Some tp) thr now = fallbackPrediction best /\
    BestOf (groundDistance (Some m) (Some tp))
           (loop_times now (lookaheadEnd now) coarseStepMs) best.
Proof.
  intros Hmiss.
  destruct (coarseScan_miss m tp now _ [] (mkBest PInf None) Hmiss
                            (BestOf_nil m tp)) as (b' & Hscan & Hb').
  exists b'. split; [| exact Hb'].
  unfold nextPassPrediction. rewrite Hscan. reflexivity.
Qed.

(** C5. When no coarse sample of the lookahead window is within the coarse
    threshold: if some sample could be computed, the prediction is the
    closest coarse sample (the earliest one at the minimum distance) with
    thresholdHit = false; if no sample could be computed at all, the
    prediction is null.  A sample is computed when the model has a ground
    point and the distance is a number ([groundDistance]); this holds
    whatever the rounding of the distance. *)
Theorem coarse_miss_returns_closest_or_null {F : Float64}
        (m : OrbitalModel) (tp : GeoPoint) (thr : R) (now : Z) :
  (0 < now)%Z ->
  (forall t, In t (loop_times now (lookaheadEnd now) coarseStepMs) ->
             within (groundDistance (Some m) (Some tp) t)
                    PASS_THRESHOLD_COARSE_KM = false) ->
  ((exists t, In t (loop_times now (lookaheadEnd now) coarseStepMs) /\
              groundDistance (Some m) (Some tp) t <> None) ->
   exists t d,
     nextPassPrediction (Some m) (Some tp) thr now =
     Some (mkPrediction t (Fin d) false) /\
     In t (loop_times now (lookaheadEnd now) coarseStepMs) /\
     groundDistance (Some m) (Some tp) t = Some d /\
     (forall u du,
         In u (loop_times now (lookaheadEnd now) coarseStepMs) ->
         groundDistance (Some m) (Some tp) u = Some du ->
         d <= du /\ (du = d -> (t <= u)%Z))) /\
  ((forall t, In t (loop_times now (lookaheadEnd now) coarseStepMs) ->
              groundDistance (Some m) (Some tp) t = None) ->
   nextPassPrediction (Some m) (Some tp) thr now = None).
Proof.
  intros Hnow Hmiss.
  destruct (nextPassPrediction_miss m tp thr now Hmiss) as (best & -> & Hb).
  pose proof (loop_times_sorted now (lookaheadEnd now) _ coarseStepMs_pos)
    as Hsorted.
  split.
  - intros (t0 & Hin0 & Hsome).
    destruct Hb as [[_ Hnone] | (t & d & -> & Hec)].
    + exfalso. apply Hsome. now apply Hnone.
    + destruct (EarliestClosest_sorted _ _ _ _ Hsorted Hec) as (Hin & Ht & Hmin).
      exists t, d. unfold fallbackPrediction. cbn [best_time best_distance].
      rewrite truthyTime_pos.
      * split; [reflexivity |]. split; [assumption |].
        split; [assumption | exact Hmin].
      * apply loop_times_lower in Hin; [lia | exact coarseStepMs_pos].
  - intros Hnone.
    destruct Hb as [[-> _] | (t & d & -> & Hec)]; [reflexivity |].
    destruct (EarliestClosest_sorted _ _ _ _ Hsorted Hec) as (Hin & Ht & _).
    rewrite (Hnone t Hin) in Ht. discriminate.
Qed.

(** C6. When the coarse scan first comes within its threshold at [tc] and
    the one-second scan of the window around [tc] meets a sample within the
    configured threshold, the prediction is the earliest such sample of the
    window, with thresholdHit = true. *)
Theorem refine_hit_returns_earliest {F : Float64}
        (m : OrbitalModel) (tp : GeoPoint) (thr : R) (now tc : Z) :
  In tc (loop_times now (lookaheadEnd now) coarseStepMs) ->
  within (groundDistance (Some m) (Some tp) tc) PASS_THRESHOLD_COARSE_KM = true ->
  (forall t, In t (loop_times now (lookaheadEnd now) coarseStepMs) ->
             (t < tc)%Z ->
             within (groundDistance (Some m) (Some tp) t)
                    PASS_THRESHOLD_COARSE_KM = false) ->
  (exists t,
      In t (loop_times (Z.max now (tc - refineWindowMs))
                       (Z.min (lookaheadEnd now) (tc + refineWindowMs))
                       refineStepMs) /\
      within (groundDistance (Some m) (Some tp) t) thr = true) ->
  exists tq dq,
    nextPassPrediction (Some m) (Some tp) thr now =
    Some (mkPrediction tq (Fin dq) true) /\
    In tq (loop_times (Z.max now (tc - refineWindowMs))
                      (Z.min (lookaheadEnd now) (tc + refineWindowMs))
                      refineStepMs) /\
    groundDistance (Some m) (Some tp) tq = Some dq /\
    dq <= thr /\
    (forall t,
        In t (loop_times (Z.max now (tc - refineWindowMs))
                         (Z.min (lookaheadEnd now) (tc + refineWindowMs))
                         refineStepMs) ->
        within (groundDistance (Some m) (Some tp) t) thr = true ->
        (tq <= t)%Z).
Proof.
  intros Hin Hhit Hbefore Hfine.
  set (ev := groundDistance (Some m) (Some tp)) in *.
  set (fine := loop_times (Z.max now (tc - refineWindowMs))
                          (Z.min (lookaheadEnd now) (tc + refineWindowMs))
                          refineStepMs) in *.
  pose proof (loop_times_sorted now (lookaheadEnd now) _ coarseStepMs_pos)
    as Hsc.
  pose proof (loop_times_sorted (Z.max now (tc - refineWindowMs))
                (Z.min (lookaheadEnd now) (tc + refineWindowMs)) _
                refineStepMs_pos) as Hsf.
  fold fine in Hsf.
  destruct (in_split _ _ Hin) as (l1 & l2 & Hcoarse).
  rewrite Hcoarse in Hsc, Hbefore.
  destruct (StronglySorted_split _ _ _ Hsc) as [Hlt _].
  assert (Hmiss : forall t, In t l1 ->
                            within (ev t) PASS_THRESHOLD_COARSE_KM = false).
  { intros t Ht. apply Hbefore; [| now apply Hlt].
    apply in_or_app. now left. }
  destruct (coarseScan_hit m tp now l1 l2 [] tc (mkBest PInf None)
                           Hmiss Hhit (BestOf_nil m tp))
    as (b' & Hscan & _).
  destruct (first_split (fun t => within (ev t) thr) fine Hfine)
    as (f1 & tq & f2 & Hsplit & Hq & Hf1).
  assert (Hdq : exists dq, ev tq = Some dq /\ dq <= thr).
  { unfold within in Hq. destruct (ev tq) as [dq |]; [| discriminate].
    exists dq. split; [reflexivity |].
    destruct (Rle_dec dq thr); [assumption | discriminate]. }
  destruct Hdq as (dq & Hev & Hle).
  exists tq, dq.
  split.
  { unfold nextPassPrediction. rewrite Hcoarse, Hscan. simpl w_start. simpl w_end.
    fold fine. rewrite Hsplit.
    rewrite (refineScan_hit m tp thr f1 f2 tq dq b' (mkBest PInf None)
                            Hf1 Hev Hle).
    reflexivity. }
  rewrite Hsplit in Hsf.
  destruct (StronglySorted_split _ _ _ Hsf) as [_ Hafter].
  split; [rewrite Hsplit; apply in_or_app; right; now left |].
  split; [assumption |].
  split; [assumption |].
  intros t Ht Hw. rewrite Hsplit in Ht. apply in_app_or in Ht.
  destruct Ht as [Ht | [<- | Ht]].
  - rewrite (Hf1 t Ht) in Hw. discriminate.
  - lia.
  - pose proof (Hafter t Ht). lia.
Qed.

(** ** Pass predictor on equatorial sample tracks *)

Lemma groundDistance_equator (l : Z -> R) (t : Z) :
  0 <= l t < 180 ->
  groundDistance (Some (equatorTrack l)) (Some origin) t =
  Some (EARTH_RADIUS_KM * toRad (l t)).
Proof.
  intros Hl. unfold groundDistance, computeGroundPoint, equatorTrack.
  simpl lat. simpl lng.
  rewrite normalizeFinite_fixed by lra.
  unfold origin. now rewrite (haversine_equator (l t) Hl).
Qed.

Lemma equator_distance (l : R) :
  0 <= l < 180 ->
  comparable (haversineDistanceKm (Some (mkGeo 0 (normalizeFinite l)))
                                  (Some origin)) =
  Some (EARTH_RADIUS_KM * toRad l).
Proof.
  intros Hl. rewrite normalizeFinite_fixed by lra.
  unfold origin. now rewrite (haversine_equator l Hl).
Qed.

Lemma equator_km_bounds (l : R) :
  0 <= l ->
  EARTH_RADIUS_KM * (3 * l / 180) <= EARTH_RADIUS_KM * toRad l /\
  EARTH_RADIUS_KM * toRad l <= EARTH_RADIUS_KM * (4 * l / 180).
Proof.
  intros Hl. unfold EARTH_RADIUS_KM, toRad.
  pose proof PI_gt_3. pose proof PI_4. split; nra.
Qed.

Lemma within_false_gt (d thresholdKm : R) :
  thresholdKm < d -> within (Some d) thresholdKm = false.
Proof.
  intros H. unfold within. destruct (Rle_dec d thresholdKm); [lra | reflexivity].
Qed.

Lemma within_true_le (d thresholdKm : R) :
  d <= thresholdKm -> within (Some d) thresholdKm = true.
Proof.
  intros H. unfold within.
  destruct (Rle_dec d thresholdKm); [reflexivity | contradiction].
Qed.

Lemma now_in_coarse (now : Z) :
  loop_times now (lookaheadEnd now) coarseStepMs =
  now :: loop_times (now + coarseStepMs) (lookaheadEnd now) coarseStepMs.
Proof.
  apply loop_times_cons; [exact coarseStepMs_pos |].
  unfold lookaheadEnd, PASS_LOOKAHEAD_MINUTES. lia.
Qed.

(** A track that stays at one equatorial longitude farther than the coarse
    threshold: the prediction is the very first sample, flagged as a miss,
    whatever the configured threshold. *)
Lemma nextPassPrediction_constant_track (l0 thr : R) (now : Z) :
  (0 < now)%Z ->
  0 <= l0 < 180 ->
  PASS_THRESHOLD_COARSE_KM < EARTH_RADIUS_KM * toRad l0 ->
  nextPassPrediction (Some (equatorTrack (fun _ => l0))) (Some origin) thr now =
  Some (mkPrediction now (Fin (EARTH_RADIUS_KM * toRad l0)) false).
Proof.
  intros Hnow Hl Hfar.
  assert (Hev : forall t,
             groundDistance (Some (equatorTrack (fun _ => l0))) (Some origin) t =
             Some (EARTH_RADIUS_KM * toRad l0)).
  { intros t. now apply (groundDistance_equator (fun _ => l0) t). }
  destruct (nextPassPrediction_miss (equatorTrack (fun _ => l0)) origin thr now)
    as (best & -> & Hb).
  { intros t _. rewrite Hev. now apply within_false_gt. }
  rewrite now_in_coarse in Hb.
  destruct Hb as [[_ Hnone] | (t & d & -> & l1 & l2 & Hsplit & Ht & H1 & _)].
  - specialize (Hnone now (or_introl eq_refl)). rewrite Hev in Hnone.
    discriminate.
  - rewrite Hev in Ht. injection Ht as <-.
    destruct l1 as [| u l1].
    + simpl in Hsplit. injection Hsplit as <- _.
      unfold fallbackPrediction. cbn [best_time best_distance].
      now rewrite truthyTime_pos.
    + exfalso.
      pose proof (H1 u _ (or_introl eq_refl) (Hev u)). lra.
Qed.

(** C1 (failing input). Precision slider at 500 km, target at (0, 0), ground
    track resting two degrees east along the equator (about 222 km away):
    every sample lies within the configured threshold, and the prediction
    still carries thresholdHit = false. *)
Theorem wide_threshold_pass_reported_as_miss :
  nextPassPrediction (Some (equatorTrack (fun _ => 2))) (Some origin) 500
                     sampleNow =
  Some (mkPrediction sampleNow (Fin (EARTH_RADIUS_KM * toRad 2)) false) /\
  groundDistance (Some (equatorTrack (fun _ => 2))) (Some origin) sampleNow =
  Some (EARTH_RADIUS_KM * toRad 2) /\
  EARTH_RADIUS_KM * toRad 2 <= 500.
Proof.
  destruct (equator_km_bounds 2) as [Hlo Hhi]; [lra |].
  unfold EARTH_RADIUS_KM in Hlo, Hhi.
  split.
  - apply nextPassPrediction_constant_track.
    + reflexivity.
    + lra.
    + unfold PASS_THRESHOLD_COARSE_KM, EARTH_RADIUS_KM. lra.
  - split.
    + apply (groundDistance_equator (fun _ => 2)). lra.
    + unfold EARTH_RADIUS_KM. lra.
Qed.

Lemma veeLng_bounds (t : Z) :
  (sampleNow <= t <= lookaheadEnd sampleNow)%Z -> 1 <= veeLng t <= 25.
Proof.
  intros Ht. unfold veeLng.
  assert (Ha : (0 <= Z.abs (t - (sampleNow + 105000)) <= 86400000)%Z).
  { unfold lookaheadEnd, PASS_LOOKAHEAD_MINUTES in Ht. lia. }
  destruct Ha as [Hlo Hhi]. apply IZR_le in Hlo, Hhi. lra.
Qed.

(** Witness for C5: on the track [veeLng] every coarse sample is farther
    than the coarse threshold, the samples 90 s and 120 s after [sampleNow]
    tie for the minimum, and the earlier of the two is reported. *)
Lemma coarse_miss_returns_closest_or_null_witness :
  (0 < sampleNow)%Z /\
  (forall t,
      In t (loop_times sampleNow (lookaheadEnd sampleNow) coarseStepMs) ->
      within (groundDistance (Some (equatorTrack veeLng)) (Some origin) t)
             PASS_THRESHOLD_COARSE_KM = false) /\
  groundDistance (Some (equatorTrack veeLng)) (Some origin)
                 (sampleNow + 120000) =
  groundDistance (Some (equatorTrack veeLng)) (Some origin)
                 (sampleNow + 90000) /\
  nextPassPrediction (Some (equatorTrack veeLng)) (Some origin)
                     PASS_THRESHOLD_DEFAULT_KM sampleNow =
  Some (mkPrediction (sampleNow + 90000)
                     (Fin (EARTH_RADIUS_KM * toRad (veeLng (sampleNow + 90000))))
                     false).
Proof.
  set (coarse := loop_times sampleNow (lookaheadEnd sampleNow) coarseStepMs).
  assert (Hev : forall t,
             In t coarse ->
             groundDistance (Some (equatorTrack veeLng)) (Some origin) t =
             Some (EARTH_RADIUS_KM * toRad (veeLng t))).
  { intros t Hin. apply (groundDistance_equator veeLng t).
    apply loop_times_lower in Hin; [| exact coarseStepMs_pos].
    pose proof (veeLng_bounds t Hin). lra. }
  assert (Hmiss : forall t,
             In t coarse ->
             within (groundDistance (Some (equatorTrack veeLng)) (Some origin) t)
                    PASS_THRESHOLD_COARSE_KM = false).
  { intros t Hin. rewrite (Hev t Hin). apply within_false_gt.
    apply loop_times_lower in Hin; [| exact coarseStepMs_pos].
    pose proof (veeLng_bounds t Hin) as Hb.
    destruct (equator_km_bounds (veeLng t)) as [Hlo _]; [lra |].
    unfold PASS_THRESHOLD_COARSE_KM, EARTH_RADIUS_KM in *. lra. }
  assert (Hin90 : In (sampleNow + 90000)%Z coarse).
  { apply loop_times_In; [exact coarseStepMs_pos |].
    exists 3%Z. unfold coarseStepMs, lookaheadEnd, PASS_COARSE_STEP_SECONDS,
                  PASS_LOOKAHEAD_MINUTES, sampleNow. repeat split; lia. }
  assert (Hin120 : In (sampleNow + 120000)%Z coarse).
  { apply loop_times_In; [exact coarseStepMs_pos |].
    exists 4%Z. unfold coarseStepMs, lookaheadEnd, PASS_COARSE_STEP_SECONDS,
                  PASS_LOOKAHEAD_MINUTES, sampleNow. repeat split; lia. }
  assert (H90 : veeLng (sampleNow + 90000) = 1 + 15000 / 3600000).
  { unfold veeLng.
    replace (Z.abs (sampleNow + 90000 - (sampleNow + 105000))) with 15000%Z
      by lia.
    reflexivity. }
  assert (H120 : veeLng (sampleNow + 120000) = 1 + 15000 / 3600000).
  { unfold veeLng.
    replace (Z.abs (sampleNow + 120000 - (sampleNow + 105000))) with 15000%Z
      by lia.
    reflexivity. }
  split; [reflexivity |]. split; [exact Hmiss |].
  split; [rewrite (Hev _ Hin90), (Hev _ Hin120), H90, H120; reflexivity |].
  destruct (coarse_miss_returns_closest_or_null
              (equatorTrack veeLng) origin PASS_THRESHOLD_DEFAULT_KM
              sampleNow eq_refl Hmiss) as [Hsome _].
  destruct Hsome as (t & d & Hp & Hin & Hd & Hmin).
  { exists sampleNow. split; [unfold coarse; rewrite now_in_coarse; now left |].
    rewrite Hev by (unfold coarse; rewrite now_in_coarse; now left).
    discriminate. }
  fold coarse in Hin, Hmin.
  rewrite (Hev t Hin) in Hd. injection Hd as <-.
  destruct (Hmin _ _ Hin90 (Hev _ Hin90)) as [Hle Hearliest].
  assert (Habs : (Z.abs (t - (sampleNow + 105000)) = 15000)%Z).
  { assert (Hlng : veeLng t <= veeLng (sampleNow + 90000)).
    { unfold EARTH_RADIUS_KM, toRad in Hle. pose proof PI_gt_3. nra. }
    rewrite H90 in Hlng. unfold veeLng in Hlng.
    assert (Hup : IZR (Z.abs (t - (sampleNow + 105000))) <= IZR 15000) by lra.
    apply le_IZR in Hup.
    apply loop_times_In in Hin; [| exact coarseStepMs_pos].
    destruct Hin as (k & Hk & Ht & _).
    unfold coarseStepMs, PASS_COARSE_STEP_SECONDS in Ht. lia. }
  assert (Hsame : veeLng t = veeLng (sampleNow + 90000)).
  { rewrite H90. unfold veeLng. now rewrite Habs. }
  assert (Ht : t = (sampleNow + 90000)%Z).
  { assert (Hfirst : (t <= sampleNow + 90000)%Z)
      by (apply Hearliest; now rewrite Hsame).
    lia. }
  rewrite Hp, Ht. reflexivity.
Defined.

Lemma approachLng_far (t : Z) :
  (t < sampleNow + 30000)%Z -> approachLng t = 1.
Proof.
  intros H. unfold approachLng.
  destruct (Z.ltb_spec t (sampleNow + 30000)); [reflexivity | lia].
Qed.

Lemma approachLng_near (t : Z) :
  (sampleNow + 30000 <= t < sampleNow + 31000)%Z -> approachLng t = 3 / 100.
Proof.
  intros H. unfold approachLng.
  destruct (Z.ltb_spec t (sampleNow + 30000)); [lia |].
  destruct (Z.ltb_spec t (sampleNow + 31000)); [reflexivity | lia].
Qed.

Lemma approachLng_over (t : Z) :
  (sampleNow + 31000 <= t)%Z -> approachLng t = 0.
Proof.
  intros H. unfold approachLng.
  destruct (Z.ltb_spec t (sampleNow + 30000)); [lia |].
  destruct (Z.ltb_spec t (sampleNow + 31000)); [lia | reflexivity].
Qed.

(** Witness for C6: on the approaching track the coarse scan stops 30 s
    after [sampleNow]; the refine scan returns that same instant, 0.03
    degrees (a little over 3 km) from the target, although one second later
    the track is over the target itself. *)
Lemma refine_hit_returns_earliest_witness :
  In (sampleNow + 30000)%Z
     (loop_times sampleNow (lookaheadEnd sampleNow) coarseStepMs) /\
  within (groundDistance (Some (equatorTrack approachLng)) (Some origin)
                         (sampleNow + 30000))
         PASS_THRESHOLD_COARSE_KM = true /\
  nextPassPrediction (Some (equatorTrack approachLng)) (Some origin)
                     PASS_THRESHOLD_DEFAULT_KM sampleNow =
  Some (mkPrediction (sampleNow + 30000)
                     (Fin (EARTH_RADIUS_KM * toRad (3 / 100))) true) /\
  0 < EARTH_RADIUS_KM * toRad (3 / 100) /\
  groundDistance (Some (equatorTrack approachLng)) (Some origin)
                 (sampleNow + 31000) = Some 0.
Proof.
  set (m := equatorTrack approachLng).
  set (tc := (sampleNow + 30000)%Z).
  assert (Hfar : forall t, (t < tc)%Z ->
             groundDistance (Some m) (Some origin) t =
             Some (EARTH_RADIUS_KM * toRad 1)).
  { intros t Ht. unfold m. rewrite groundDistance_equator;
      rewrite approachLng_far by exact Ht; [reflexivity | lra]. }
  assert (Hnear : groundDistance (Some m) (Some origin) tc =
                  Some (EARTH_RADIUS_KM * toRad (3 / 100))).
  { unfold m. rewrite groundDistance_equator;
      rewrite approachLng_near by (unfold tc; lia); [reflexivity | lra]. }
  assert (Hover : groundDistance (Some m) (Some origin) (sampleNow + 31000) =
                  Some 0).
  { unfold m. rewrite groundDistance_equator;
      rewrite approachLng_over by lia; [| lra].
    f_equal. unfold toRad. field. }
  destruct (equator_km_bounds 1) as [Hlo1 _]; [lra |].
  destruct (equator_km_bounds (3 / 100)) as [Hlo3 Hhi3]; [lra |].
  unfold EARTH_RADIUS_KM in Hlo1, Hlo3, Hhi3.
  assert (H1 : In tc (loop_times sampleNow (lookaheadEnd sampleNow)
                                 coarseStepMs)).
  { apply loop_times_In; [exact coarseStepMs_pos |].
    exists 1%Z. split; [lia |]. split; [reflexivity |].
    unfold tc, lookaheadEnd, sampleNow, PASS_LOOKAHEAD_MINUTES. lia. }
  assert (H2 : within (groundDistance (Some m) (Some origin) tc)
                      PASS_THRESHOLD_COARSE_KM = true).
  { rewrite Hnear. apply within_true_le.
    unfold PASS_THRESHOLD_COARSE_KM, EARTH_RADIUS_KM. lra. }
  assert (H3 : forall t,
             In t (loop_times sampleNow (lookaheadEnd sampleNow) coarseStepMs) ->
             (t < tc)%Z ->
             within (groundDistance (Some m) (Some origin) t)
                    PASS_THRESHOLD_COARSE_KM = false).
  { intros t _ Ht. rewrite (Hfar t Ht). apply within_false_gt.
    unfold PASS_THRESHOLD_COARSE_KM, EARTH_RADIUS_KM. lra. }
  assert (Hfine : In tc (loop_times
                           (Z.max sampleNow (tc - refineWindowMs))
                           (Z.min (lookaheadEnd sampleNow) (tc + refineWindowMs))
                           refineStepMs)).
  { apply loop_times_In; [exact refineStepMs_pos |].
    exists 30%Z. split; [lia |]. split; [reflexivity |].
    unfold tc, lookaheadEnd, sampleNow, PASS_LOOKAHEAD_MINUTES, refineWindowMs,
      PASS_REFINE_WINDOW_SECONDS. lia. }
  assert (H5 : within (groundDistance (Some m) (Some origin) tc)
                      PASS_THRESHOLD_DEFAULT_KM = true).
  { rewrite Hnear. apply within_true_le.
    unfold PASS_THRESHOLD_DEFAULT_KM, EARTH_RADIUS_KM. lra. }
  split; [exact H1 |]. split; [exact H2 |].
  destruct (refine_hit_returns_earliest
              m origin PASS_THRESHOLD_DEFAULT_KM sampleNow tc H1 H2 H3
              (ex_intro _ tc (conj Hfine H5)))
    as (tq & dq & Hp & _ & Hev & Hle & Hearliest).
  pose proof (Hearliest tc Hfine H5) as Hq.
  assert (Heq : tq = tc).
  { destruct (Z_lt_le_dec tq tc) as [Hlt | Hge]; [| lia].
    exfalso. rewrite (Hfar tq Hlt) in Hev. injection Hev as <-.
    unfold PASS_THRESHOLD_DEFAULT_KM, EARTH_RADIUS_KM in Hle. lra. }
  subst tq. rewrite Hnear in Hev. injection Hev as <-.
  split; [exact Hp |].
  split; [unfold EARTH_RADIUS_KM; lra | exact Hover].
Defined.

(** ** Simulation path builder *)

Lemma simStepMs_pos : (0 < simStepMs)%Z.
Proof. reflexivity. Qed.

Lemma StronglySorted_last_max (l : list Z) (d : Z) :
  StronglySorted Z.lt l -> forall x, In x l -> (x <= last l d)%Z.
Proof.
  induction l as [| a l IH]; intros Hs x Hin; [destruct Hin |].
  apply StronglySorted_inv in Hs. destruct Hs as [Hs Hall].
  rewrite Forall_forall in Hall.
  destruct l as [| b l].
  - destruct Hin as [<- | []]. simpl. lia.
  - change (last (a :: b :: l) d) with (last (b :: l) d).
    destruct Hin as [<- | Hin].
    + assert (Hb : (b <= last (b :: l) d)%Z) by (apply IH; [assumption | now left]).
      pose proof (Hall b (or_introl eq_refl)). lia.
    + now apply IH.
Qed.

Lemma StronglySorted_snoc (l : list Z) (x : Z) :
  StronglySorted Z.lt l -> (forall y, In y l -> (y < x)%Z) ->
  StronglySorted Z.lt (l ++ [x]).
Proof.
  induction l as [| a l IH]; intros Hs Hlt; simpl.
  - constructor; [constructor | constructor].
  - apply StronglySorted_inv in Hs. destruct Hs as [Hs Hall].
    constructor.
    + apply IH; [assumption |]. intros y Hy. apply Hlt. now right.
    + apply Forall_app. split; [assumption |].
      constructor; [| constructor]. apply Hlt. now left.
Qed.

Lemma last_map_time (l : list PathPoint) (d : PathPoint) :
  pt_time (last l d) = last (map pt_time l) (pt_time d).
Proof.
  induction l as [| a l IH]; [reflexivity |].
  destruct l as [| b l]; [reflexivity |].
  change (last (a :: b :: l) d) with (last (b :: l) d).
  change (map pt_time (a :: b :: l)) with (pt_time a :: map pt_time (b :: l)).
  change (last (pt_time a :: map pt_time (b :: l)) (pt_time d))
    with (last (map pt_time (b :: l)) (pt_time d)).
  exact IH.
Qed.

Section PathFacts.

Context {F : Float64}.
Variable satrec : option OrbitalModel.
Variable targetPoint : option GeoPoint.
Variable thr : R.

(** The stepping loop only appends, at instants of its range, in order. *)
Lemma stepSamples_appends (ts : list Z) (path : list PathPoint) :
  StronglySorted Z.lt ts ->
  exists extra,
    stepSamples satrec targetPoint thr ts path = path ++ extra /\
    StronglySorted Z.lt (map pt_time extra) /\
    (forall p, In p extra -> In (pt_time p) ts).
Proof.
  revert path. induction ts as [| t ts IH]; intros path Hs.
  - exists []. rewrite app_nil_r. repeat split; [constructor | intros p []].
  - apply StronglySorted_inv in Hs. destruct Hs as [Hs Hall].
    rewrite Forall_forall in Hall. simpl.
    destruct (computeGroundPoint satrec t) as [gp |].
    + match goal with
      | |- context [within ?d thr] => destruct (within d thr)
      end.
      * eexists [_]. split; [reflexivity |].
        split; [repeat constructor |].
        intros p [<- | []]. now left.
      * match goal with
        | |- context [stepSamples _ _ _ ts (path ++ [?pt])] =>
            destruct (IH (path ++ [pt]) Hs) as (extra & Heq & Hsorted & Hin);
            exists (pt :: extra)
        end.
        split; [rewrite Heq, <- app_assoc; reflexivity |].
        split.
        -- simpl. constructor; [assumption |].
           apply Forall_forall. intros x Hx.
           apply in_map_iff in Hx. destruct Hx as (p & <- & Hp).
           apply Hall. now apply Hin.
        -- intros p [<- | Hp]; [now left | right; now apply Hin].
    + destruct (IH path Hs) as (extra & Heq & Hsorted & Hin).
      exists extra. repeat split; try assumption.
      intros p Hp. right. now apply Hin.
Qed.

(** The samples gathered before the length test: the start sample when the
    model has one, then samples at later instants in increasing order. *)
Lemma gatheredSamples_sorted (now endMs : Z) :
  StronglySorted Z.lt
    (map pt_time (gatheredSamples satrec targetPoint thr now endMs)) /\
  (computeGroundPoint satrec now <> None ->
   exists first rest,
     gatheredSamples satrec targetPoint thr now endMs = first :: rest /\
     pt_time first = now).
Proof.
  unfold gatheredSamples.
  pose proof (loop_times_sorted (now + simStepMs) (endMs + simStepMs) _
                                simStepMs_pos) as Hs.
  match goal with
  | |- context [stepSamples _ _ _ ?ts ?path] =>
      destruct (stepSamples_appends ts path Hs) as (extra & Heq & Hsorted & Hin)
  end.
  rewrite Heq.
  assert (Hlater : forall x, In x (map pt_time extra) -> (now < x)%Z).
  { intros x Hx. apply in_map_iff in Hx. destruct Hx as (p & <- & Hp).
    apply Hin in Hp. apply loop_times_lower in Hp; [| exact simStepMs_pos].
    pose proof simStepMs_pos. lia. }
  destruct (computeGroundPoint satrec now) as [sp |].
  - split.
    + simpl. constructor; [assumption |]. now apply Forall_forall.
    + intros _. eexists _, extra. split; reflexivity.
  - split; [assumption | intros H; now elim H].
Qed.

End PathFacts.

(** ** Polyline segmentation *)

Lemma last_nonempty {A : Type} (l : list A) (d d' : A) :
  l <> [] -> last l d = last l d'.
Proof.
  induction l as [| a l IH]; intros Hne; [contradiction |].
  destruct l as [| b l]; [reflexivity |].
  change (last (a :: b :: l) d) with (last (b :: l) d).
  change (last (a :: b :: l) d') with (last (b :: l) d').
  apply IH. discriminate.
Qed.

Lemma longRun_snoc (cur : list Coords) (c : Coords) :
  cur <> [] -> longRun (cur ++ [c]) = true.
Proof.
  intros Hne. unfold longRun. apply Nat.ltb_lt.
  rewrite length_app. simpl. destruct cur; [contradiction | simpl; lia].
Qed.

(** One callback on a non-empty [current], when the sample is not the last. *)
Lemma segmentStep_inner (len index : nat) (segments : list (list Coords))
      (current : list Coords) (p : PathPoint) :
  current <> [] -> index <> (len - 1)%nat ->
  segmentStep len (segments, current) (index, p) =
  if jump (last current (coordsOf p)) (coordsOf p)
  then ((if longRun current then segments ++ [current] else segments),
        [coordsOf p])
  else (segments, current ++ [coordsOf p]).
Proof.
  intros Hne Hidx. unfold segmentStep, jump, longRun, coordsOf.
  destruct current as [| c0 cur]; [contradiction |].
  set (cur0 := c0 :: cur).
  destruct (Rgt_dec _ 180);
    (destruct (Nat.eqb_spec index (len - 1)); [contradiction | reflexivity]).
Qed.

(** The callback on the last sample: the same, then the closing push. *)
Lemma segmentStep_last (len : nat) (segments : list (list Coords))
      (current : list Coords) (p : PathPoint) :
  current <> [] ->
  fst (segmentStep len (segments, current) ((len - 1)%nat, p)) =
  if jump (last current (coordsOf p)) (coordsOf p)
  then (if longRun current then segments ++ [current] else segments)
  else segments ++ [current ++ [coordsOf p]].
Proof.
  intros Hne. unfold segmentStep, jump, coordsOf.
  destruct current as [| c0 cur]; [contradiction |].
  set (cur0 := c0 :: cur).
  rewrite Nat.eqb_refl.
  destruct (Rgt_dec _ 180).
  - reflexivity.
  - pose proof (longRun_snoc cur0 (pt_lat p, pt_lng p) Hne) as Hlong.
    unfold longRun in Hlong. rewrite Hlong. reflexivity.
Qed.

Lemma filter_longRun_runsAcc_nil (cur : list Coords) :
  filter longRun (runsAcc cur []) = if longRun cur then [cur] else [].
Proof. reflexivity. Qed.

(** The loop over the samples after the first, from a non-empty [current]. *)
Lemma fold_segmentStep_runs (rest : list PathPoint) :
  forall (p : PathPoint) (index len : nat) (segments : list (list Coords))
         (current : list Coords),
    current <> [] ->
    len = (index + S (length rest))%nat ->
    fst (fold_left (segmentStep len)
                   (combine (seq index (S (length rest))) (p :: rest))
                   (segments, current)) =
    segments ++ filter longRun (runsAcc current (map coordsOf (p :: rest))).
Proof.
  induction rest as [| q rest IH]; intros p index len segments current Hne Hlen.
  - cbn [length combine seq fold_left] in *.
    replace index with (len - 1)%nat by lia.
    rewrite segmentStep_last by assumption.
    simpl map. simpl runsAcc.
    destruct (jump (last current (coordsOf p)) (coordsOf p)).
    + simpl. destruct (longRun current); [reflexivity |].
      now rewrite app_nil_r.
    + simpl. rewrite longRun_snoc by assumption. reflexivity.
  - change (combine (seq index (S (length (q :: rest)))) (p :: q :: rest))
      with ((index, p) ::
            combine (seq (S index) (S (length rest))) (q :: rest)).
    cbn [fold_left].
    rewrite segmentStep_inner by (try assumption; simpl in Hlen; lia).
    change (map coordsOf (p :: q :: rest))
      with (coordsOf p :: map coordsOf (q :: rest)).
    simpl runsAcc.
    destruct (jump (last current (coordsOf p)) (coordsOf p)).
    + rewrite IH by (try discriminate; simpl in Hlen; lia).
      simpl filter. destruct (longRun current).
      * now rewrite <- app_assoc.
      * reflexivity.
    + rewrite IH; [reflexivity | | simpl in Hlen; lia].
      destruct current; discriminate.
Qed.

(** The segmentation is the path cut at its jumps, single-point runs
    dropped, and null when nothing is left. *)
Lemma simulationSegments_runs (path : list PathPoint) :
  simulationSegments (Some path) =
  orNull (filter longRun (runs (map coordsOf path))).
Proof.
  destruct path as [| p0 rest]; [reflexivity |].
  unfold simulationSegments.
  change (combine (seq 0 (length (p0 :: rest))) (p0 :: rest))
    with ((0%nat, p0) :: combine (seq 1 (length rest)) rest).
  cbn [fold_left].
  assert (Hfirst : segmentStep (length (p0 :: rest)) ([], []) (0%nat, p0) =
                   ([], [coordsOf p0])).
  { unfold segmentStep, coordsOf. simpl.
    destruct (length rest - 0)%nat; reflexivity. }
  rewrite Hfirst.
  destruct rest as [| p1 rest].
  - reflexivity.
  - pose proof (fold_segmentStep_runs rest p1 1 (length (p0 :: p1 :: rest))
                                      [] [coordsOf p0]) as H.
    simpl app in H.
    change (length (p1 :: rest)) with (S (length rest)).
    destruct (fold_left _ _ _) as [segments current].
    simpl fst in H. rewrite H; [| discriminate | reflexivity].
    reflexivity.
Qed.

Lemma last_cons_default {A : Type} (a : A) (l : list A) (d : A) :
  last (a :: l) d = last l a.
Proof.
  revert a d. induction l as [| b l IH]; intros a d; [reflexivity |].
  change (last (a :: b :: l) d) with (last (b :: l) d).
  rewrite (IH b d). symmetry. apply (IH b a).
Qed.

Lemma jumpsFrom_snoc (l : list Coords) (prev c : Coords) :
  jumpsFrom prev (l ++ [c]) =
  (jumpsFrom prev l + (if jump (last l prev) c then 1 else 0))%nat.
Proof.
  revert prev. induction l as [| a l IH]; intros prev.
  - simpl. lia.
  - cbn [app jumpsFrom]. rewrite IH, (last_cons_default a l prev). lia.
Qed.

Lemma jumps_snoc (cur : list Coords) (c d : Coords) :
  cur <> [] ->
  jumps (cur ++ [c]) =
  (jumps cur + (if jump (last cur d) c then 1 else 0))%nat.
Proof.
  destruct cur as [| a l]; [contradiction |]. intros _.
  cbn [app jumps]. rewrite jumpsFrom_snoc.
  now rewrite (last_cons_default a l d).
Qed.

Lemma runsAcc_concat (l cur : list Coords) :
  concat (runsAcc cur l) = cur ++ l.
Proof.
  revert cur. induction l as [| c l IH]; intros cur; simpl.
  - reflexivity.
  - destruct (jump (last cur c) c); simpl.
    + now rewrite IH.
    + now rewrite IH, <- app_assoc.
Qed.

Lemma runsAcc_length (l cur : list Coords) (d : Coords) :
  cur <> [] ->
  length (runsAcc cur l) = S (jumpsFrom (last cur d) l).
Proof.
  revert cur d. induction l as [| c l IH]; intros cur d Hne; simpl.
  - reflexivity.
  - rewrite (last_nonempty cur c d Hne).
    destruct (jump (last cur d) c); simpl.
    + rewrite (IH [c] c) by discriminate. reflexivity.
    + rewrite (IH (cur ++ [c]) c) by (destruct cur; discriminate).
      now rewrite last_last.
Qed.

Lemma runsAcc_jump_free (l cur : list Coords) :
  cur <> [] -> jumps cur = 0%nat ->
  Forall (fun r => r <> [] /\ jumps r = 0%nat) (runsAcc cur l).
Proof.
  revert cur. induction l as [| c l IH]; intros cur Hne Hfree; simpl.
  - constructor; [split; assumption | constructor].
  - destruct (jump (last cur c) c) eqn:Hj.
    + constructor; [split; assumption |].
      apply IH; [discriminate | reflexivity].
    + apply IH; [destruct cur; discriminate |].
      rewrite (jumps_snoc cur c c Hne), Hj. lia.
Qed.

Lemma runsAcc_no_jump (l cur : list Coords) (d : Coords) :
  cur <> [] -> jumpsFrom (last cur d) l = 0%nat ->
  runsAcc cur l = [cur ++ l].
Proof.
  revert cur d. induction l as [| c l IH]; intros cur d Hne Hz; simpl.
  - now rewrite app_nil_r.
  - simpl in Hz. rewrite (last_nonempty cur c d Hne).
    destruct (jump (last cur d) c); [discriminate |].
    rewrite (IH (cur ++ [c]) c).
    + now rewrite <- app_assoc.
    + destruct cur; discriminate.
    + rewrite last_last. exact Hz.
Qed.

Lemma runs_partition (cs : list Coords) :
  concat (runs cs) = cs /\
  (cs <> [] -> length (runs cs) = S (jumps cs)) /\
  Forall (fun r => r <> [] /\ jumps r = 0%nat) (runs cs).
Proof.
  destruct cs as [| c l].
  - repeat split; [intros H; now elim H | constructor].
  - unfold runs, jumps. split; [apply runsAcc_concat |]. split.
    + intros _. rewrite (runsAcc_length l [c] c) by discriminate. reflexivity.
    + apply runsAcc_jump_free; [discriminate | reflexivity].
Qed.

Lemma jump_true (a b : Coords) : 180 < Rabs (snd b - snd a) -> jump a b = true.
Proof.
  intros H. unfold jump. destruct (Rgt_dec _ 180) as [| Hn]; [reflexivity |].
  exfalso. apply Hn. exact H.
Qed.

Lemma jump_false (a b : Coords) : Rabs (snd b - snd a) <= 180 -> jump a b = false.
Proof.
  intros H. unfold jump. destruct (Rgt_dec _ 180) as [Hg |]; [| reflexivity].
  exfalso. unfold Rgt in Hg. lra.
Qed.

(** Settles [jump a b] for literal coordinates. *)
Ltac settle_jumps :=
  repeat first
    [ rewrite jump_true
        by (simpl snd; unfold Rabs; destruct (Rcase_abs _); lra)
    | rewrite jump_false
        by (simpl snd; unfold Rabs; destruct (Rcase_abs _); lra) ].

(** C2, as stated, fails on two samples hopping across the antimeridian
    (no segment at all: null) and on a path whose only hop isolates its last
    sample (a single segment). *)
Lemma simulationSegments_hop_not_several :
  (2 <= length hopPath)%nat /\
  jumps (map coordsOf hopPath) = 1%nat /\
  simulationSegments (Some hopPath) = None /\
  (2 <= length lateHopPath)%nat /\
  jumps (map coordsOf lateHopPath) = 1%nat /\
  simulationSegments (Some lateHopPath) = Some [[(0, 178); (0, 179)]].
Proof.
  split; [simpl; lia |].
  split; [unfold hopPath; cbn [map coordsOf pt_lat pt_lng jumps jumpsFrom];
          settle_jumps; reflexivity |].
  split; [rewrite simulationSegments_runs; unfold hopPath;
          cbn [map coordsOf pt_lat pt_lng runs runsAcc last];
          settle_jumps; reflexivity |].
  split; [simpl; lia |].
  split; [unfold lateHopPath; cbn [map coordsOf pt_lat pt_lng jumps jumpsFrom];
          settle_jumps; reflexivity |].
  rewrite simulationSegments_runs. unfold lateHopPath.
  cbn [map coordsOf pt_lat pt_lng runs runsAcc last app].
  settle_jumps. cbn [runsAcc last app]. settle_jumps. reflexivity.
Qed.

(** C2 (amended). For every path with at least 2 samples: when no two
    consecutive samples differ in longitude by more than 180, the
    segmentation is exactly one segment, the whole path; in general the path
    is cut at every such pair into one run more than there are jumps, and
    the segments are those runs that have at least 2 points (null when there
    is none). *)
Theorem simulationSegments_cut_at_jumps (path : list PathPoint) :
  (2 <= length path)%nat ->
  (jumps (map coordsOf path) = 0%nat ->
   simulationSegments (Some path) = Some [map coordsOf path]) /\
  simulationSegments (Some path) =
  orNull (filter longRun (runs (map coordsOf path))) /\
  concat (runs (map coordsOf path)) = map coordsOf path /\
  length (runs (map coordsOf path)) = S (jumps (map coordsOf path)) /\
  Forall (fun r => r <> [] /\ jumps r = 0%nat) (runs (map coordsOf path)).
Proof.
  intros Hlen.
  destruct (runs_partition (map coordsOf path)) as (Hconcat & Hcount & Hfree).
  split.
  - intros Hnone. rewrite simulationSegments_runs.
    destruct path as [| p0 [| p1 rest]]; simpl in Hlen; try lia.
    unfold runs. cbn [map].
    rewrite (runsAcc_no_jump _ [coordsOf p0] (coordsOf p0));
      [reflexivity | discriminate | exact Hnone].
  - split; [apply simulationSegments_runs |].
    split; [assumption |]. split; [| assumption].
    apply Hcount. destruct path; [simpl in Hlen; lia | discriminate].
Qed.

(** Witness for C2: three samples drifting east by one degree each. *)
Lemma simulationSegments_cut_at_jumps_witness :
  (2 <= length plainPath)%nat /\
  jumps (map coordsOf plainPath) = 0%nat /\
  simulationSegments (Some plainPath) = Some [[(0, 10); (0, 11); (0, 12)]].
Proof.
  assert (Hlen : (2 <= length plainPath)%nat) by (simpl; lia).
  assert (Hnone : jumps (map coordsOf plainPath) = 0%nat).
  { unfold plainPath. cbn [map coordsOf pt_lat pt_lng jumps jumpsFrom].
    settle_jumps. reflexivity. }
  split; [exact Hlen |]. split; [exact Hnone |].
  destruct (simulationSegments_cut_at_jumps plainPath Hlen) as [Hone _].
  exact (Hone Hnone).
Defined.

(** C10. A segmentation is null or a non-empty list of segments of at least
    2 points each: it is the list of runs between jumps with the
    single-point runs dropped, and null when no run is left. *)
Theorem simulationSegments_null_or_long_segments
        (simulationPath : option (list PathPoint)) :
  match simulationSegments simulationPath with
  | None => True
  | Some segments =>
      segments <> [] /\ Forall (fun s => (2 <= length s)%nat) segments
  end /\
  simulationSegments simulationPath =
  match simulationPath with
  | None => None
  | Some path => orNull (filter longRun (runs (map coordsOf path)))
  end.
Proof.
  assert (Heq : simulationSegments simulationPath =
                match simulationPath with
                | None => None
                | Some path => orNull (filter longRun (runs (map coordsOf path)))
                end).
  { destruct simulationPath as [path |];
      [apply simulationSegments_runs | reflexivity]. }
  split; [| exact Heq].
  rewrite Heq. destruct simulationPath as [path |]; [| exact I].
  set (rs := runs (map coordsOf path)).
  destruct (filter longRun rs) as [| s segments] eqn:Hf; simpl; [exact I |].
  split; [discriminate |].
  rewrite <- Hf. apply Forall_forall. intros r Hr.
  apply filter_In in Hr. destruct Hr as [_ Hlong].
  unfold longRun in Hlong. apply Nat.ltb_lt in Hlong. lia.
Qed.

(** ** Playback clock *)

Lemma StronglySorted_Rle_last (t : R) (ts : list R) :
  StronglySorted Rle (t :: ts) -> t <= last ts t.
Proof.
  revert t. induction ts as [| u ts IH]; intros t Hs; simpl; [lra |].
  apply StronglySorted_inv in Hs. destruct Hs as [Hs Hall].
  apply Forall_inv in Hall.
  pose proof (IH u Hs) as Hu.
  rewrite <- (last_cons_default u ts t) in Hu. simpl in Hu.
  destruct ts; simpl in *; lra.
Qed.

(** Once the loop has stopped, later frames change nothing. *)
Lemma step_stopped (path : list PathPoint) (sf : R) (ts : list R)
      (prev : option R) (pb : PlaybackState) :
  fold_left (step path sf) ts (mkLoop false prev, pb) = (mkLoop false prev, pb).
Proof. induction ts as [| t ts IH]; [reflexivity | exact IH]. Qed.

(** The frames after the first, from a running loop below the end time. *)
Lemma step_running (path : list PathPoint) (sf : R) (playing : bool) (m : R)
      (ts : list R) :
  0 <= sf ->
  forall prev cur : R,
    cur < lastTime path ->
    StronglySorted Rle (prev :: ts) ->
    let target := cur + (last ts prev - prev) * sf in
    snd (fold_left (step path sf) ts
                   (mkLoop true (Some prev), mkPlayback playing (Some cur) m)) =
    if Rge_dec target (lastTime path)
    then mkPlayback false (Some (lastTime path)) m
    else mkPlayback playing (Some target) m.
Proof.
  intros Hsf. induction ts as [| t ts IH]; intros prev cur Hcur Hs; cbv zeta.
  - simpl. replace (cur + (prev - prev) * sf) with cur by ring.
    destruct (Rge_dec cur (lastTime path)); [lra | reflexivity].
  - pose proof (StronglySorted_Rle_last _ _ Hs) as Hlast.
    apply StronglySorted_inv in Hs. destruct Hs as [Hs Hall].
    pose proof (Forall_inv Hall) as Hpt.
    pose proof (StronglySorted_Rle_last _ _ Hs) as Hlast'.
    rewrite (last_cons_default t ts prev) in *.
    cbn [fold_left]. unfold step at 2. cbn [running negb previous simTimeMs
                                            isSimPlaying simSpeedMultiplier].
    destruct (Rge_dec (cur + (t - prev) * sf) (lastTime path)) as [Hend | Hgo].
    + rewrite step_stopped. cbn [snd].
      destruct (Rge_dec (cur + (last ts t - prev) * sf) (lastTime path))
        as [| Hn]; [reflexivity |].
      exfalso. apply Hn. nra.
    + rewrite IH; [| lra | assumption].
      replace (cur + (t - prev) * sf + (last ts t - t) * sf)
        with (cur + (last ts t - prev) * sf) by ring.
      reflexivity.
Qed.



(** ** Live telemetry *)

(** C8. However a telemetry fetch fails (the request throws, the response
    is not 2xx, or reading its JSON throws), the position and the history
    are left as they were; the only change is the error message, set unless
    the effect was already torn down. *)
Theorem failed_fetch_keeps_last_known_state
        (cancelled : bool) (st : TelemetryState) :
  let kept (outcome : FetchOutcome) (message : string) :=
    issPosition (fetchIssData cancelled outcome st) = issPosition st /\
    issHistory (fetchIssData cancelled outcome st) = issHistory st /\
    error (fetchIssData cancelled outcome st) =
    (if cancelled then error st else Some message) in
  (forall message, kept (FetchThrew message) message) /\
  kept ResponseNotOk "No se pudo leer la telemetría de la ISS"%string /\
  (forall message, kept (JsonThrew message) message).
Proof.
  cbv zeta. repeat split; destruct cancelled; reflexivity.
Qed.

(** ** Pass predictor: when the flag is exact *)

Section PredictorFlag.

Context {F : Float64}.
Variable m : OrbitalModel.
Variable tp : GeoPoint.
Variable thr : R.
Variable now : Z.

Let ev := groundDistance (Some m) (Some tp).

Lemma bestRefined_update (t : Z) (br : Best) :
  match ev t with
  | Some d =>
      if num_lt (Fin d) (best_distance br) then mkBest (Fin d) (Some t) else br
  | None => br
  end = snd (evaluatePoint (Some m) (Some tp) t br).
Proof.
  unfold evaluatePoint. fold ev.
  destruct (ev t) as [d |]; [| reflexivity].
  destruct (num_lt (Fin d) (best_distance br)); reflexivity.
Qed.

(** A refine scan that meets no sample within the threshold runs to the end
    of its range, keeping both [best] and [bestRefined] up to date. *)
Lemma refineScan_miss (ts seen seenR : list Z) (b br : Best) :
  (forall t, In t ts -> within (ev t) thr = false) ->
  BestOf ev seen b -> BestOf ev seenR br ->
  exists b' br',
    refineScan (Some m) (Some tp) thr ts b br = inr (b', br') /\
    BestOf ev (seen ++ ts) b' /\ BestOf ev (seenR ++ ts) br'.
Proof.
  revert seen seenR b br.
  induction ts as [| t ts IH]; intros seen seenR b br Hmiss Hb Hbr.
  - exists b, br. rewrite !app_nil_r. repeat split; assumption.
  - simpl.
    pose proof (evaluatePoint_fst m tp t b) as Hf.
    pose proof (evaluatePoint_BestOf m tp seen t b Hb) as Hs.
    pose proof (evaluatePoint_BestOf m tp seenR t br Hbr) as Hsr.
    rewrite <- bestRefined_update in Hsr.
    destruct (evaluatePoint (Some m) (Some tp) t b) as [dist b1].
    simpl in Hf, Hs. subst dist. fold ev in Hsr |- *.
    pose proof (Hmiss t (or_introl eq_refl)) as Ht.
    assert (Hrest : forall u, In u ts -> within (ev u) thr = false)
      by (intros u Hu; apply Hmiss; now right).
    destruct (ev t) as [d |]; simpl in Ht.
    + destruct (Rle_dec d thr); [discriminate |].
      destruct (IH _ _ _ _ Hrest Hs Hsr) as (b' & br' & Heq & Hb' & Hbr').
      exists b', br'. rewrite <- !app_assoc in *. repeat split; assumption.
    + destruct (IH _ _ _ _ Hrest Hs Hsr) as (b' & br' & Heq & Hb' & Hbr').
      exists b', br'. rewrite <- !app_assoc in *. repeat split; assumption.
Qed.

(** The coarse hit is itself one of the instants of its refine range. *)
Lemma coarse_hit_in_refineTimes (tc : Z) :
  In tc (loop_times now (lookaheadEnd now) coarseStepMs) ->
  In tc (refineTimes now tc).
Proof.
  intros Hin. apply loop_times_In in Hin; [| exact coarseStepMs_pos].
  destruct Hin as (k & Hk & Htc & Hle).
  unfold refineTimes. apply loop_times_In; [exact refineStepMs_pos |].
  unfold coarseStepMs, refineStepMs, refineWindowMs, PASS_COARSE_STEP_SECONDS,
    PASS_REFINE_STEP_SECONDS, PASS_REFINE_WINDOW_SECONDS in *.
  destruct (Z_le_gt_dec (tc - 240 * 1000) now) as [Hnear | Hfar].
  - exists (30 * k)%Z. rewrite Z.max_l by lia. repeat split; lia.
  - exists 240%Z. rewrite Z.max_r by lia. repeat split; lia.
Qed.

Lemma FirstCoarseHit_unique (tc tc' : Z) :
  FirstCoarseHit ev now tc -> FirstCoarseHit ev now tc' -> tc = tc'.
Proof.
  intros (Hin & Hhit & Hbefore) (Hin' & Hhit' & Hbefore').
  destruct (Z.lt_trichotomy tc tc') as [Hlt | [Heq | Hgt]]; [| assumption |].
  - rewrite (Hbefore' tc Hin Hlt) in Hhit. discriminate.
  - rewrite (Hbefore tc' Hin' Hgt) in Hhit'. discriminate.
Qed.

Lemma within_weaken (dist : option R) (lo hi : R) :
  lo <= hi -> within dist hi = false -> within dist lo = false.
Proof.
  intros Hle. unfold within. destruct dist as [d |]; [| reflexivity].
  destruct (Rle_dec d hi); [discriminate |]. intros _.
  destruct (Rle_dec d lo); [lra | reflexivity].
Qed.

(** With a configured threshold no looser than the coarse one, the flag of
    a prediction says exactly whether the search met a sample within the
    configured threshold: set, the returned sample is such a sample; clear,
    every evaluated sample is farther. *)
Lemma thresholdHit_exact_under_coarse (p : PassPrediction) :
  (0 < now)%Z ->
  thr <= PASS_THRESHOLD_COARSE_KM ->
  nextPassPrediction (Some m) (Some tp) thr now = Some p ->
  (thresholdHit p = true ->
   exists d, distance p = Fin d /\ ev (time p) = Some d /\ d <= thr /\
             Evaluated ev now (time p)) /\
  (thresholdHit p = false ->
   forall t, Evaluated ev now t -> within (ev t) thr = false).
Proof.
  intros Hnow Hthr Hp.
  set (coarse := loop_times now (lookaheadEnd now) coarseStepMs) in *.
  pose proof (loop_times_sorted now (lookaheadEnd now) _ coarseStepMs_pos)
    as Hsc. fold coarse in Hsc.
  destruct (existsb (fun t => within (ev t) PASS_THRESHOLD_COARSE_KM) coarse)
    eqn:Hex.
  - (* the coarse scan stops at some [tc] *)
    apply existsb_exists in Hex.
    destruct (first_split _ _ Hex) as (l1 & tc & l2 & Hsplit & Hhit & Hl1).
    assert (Hfirst : FirstCoarseHit ev now tc).
    { unfold FirstCoarseHit. fold coarse. rewrite Hsplit in Hsc |- *.
      destruct (StronglySorted_split _ _ _ Hsc) as [Hlt Hgt].
      split; [apply in_or_app; right; now left |]. split; [assumption |].
      intros u Hu Hutc. apply in_app_or in Hu.
      destruct Hu as [Hu | [<- | Hu]]; [now apply Hl1 | lia |].
      pose proof (Hgt u Hu). lia. }
    destruct (coarseScan_hit m tp now l1 l2 [] tc (mkBest PInf None)
                             Hl1 Hhit (BestOf_nil m tp))
      as (b' & Hscan & Hb').
    assert (Hinfine : In tc (refineTimes now tc))
      by (apply coarse_hit_in_refineTimes; apply Hfirst).
    unfold nextPassPrediction in Hp. fold coarse in Hp.
    rewrite Hsplit, Hscan in Hp. simpl w_start in Hp. simpl w_end in Hp.
    fold (refineTimes now tc) in Hp.
    destruct (existsb (fun t => within (ev t) thr) (refineTimes now tc))
      eqn:Hexf.
    + (* some fine sample qualifies: early return *)
      apply existsb_exists in Hexf.
      destruct (first_split _ _ Hexf) as (f1 & tq & f2 & Hfsplit & Hq & Hf1).
      assert (Hdq : exists dq, ev tq = Some dq /\ dq <= thr).
      { unfold within in Hq. destruct (ev tq) as [dq |]; [| discriminate].
        exists dq. split; [reflexivity |].
        destruct (Rle_dec dq thr); [assumption | discriminate]. }
      destruct Hdq as (dq & Hev & Hle).
      rewrite Hfsplit in Hp.
      rewrite (refineScan_hit m tp thr f1 f2 tq dq b' (mkBest PInf None)
                              Hf1 Hev Hle) in Hp.
      injection Hp as <-. simpl. split; [| discriminate].
      intros _. exists dq. repeat split; try assumption.
      right. exists tc. split; [assumption |].
      rewrite Hfsplit. apply in_or_app. right. now left.
    + (* no fine sample qualifies *)
      assert (Hfmiss : forall t, In t (refineTimes now tc) ->
                                 within (ev t) thr = false).
      { intros t Ht. destruct (within (ev t) thr) eqn:Hw; [| reflexivity].
        assert (Hsome : existsb (fun t => within (ev t) thr)
                                (refineTimes now tc) = true)
          by (apply existsb_exists; eauto).
        rewrite Hsome in Hexf. discriminate. }
      destruct (refineScan_miss (refineTimes now tc) _ [] b' (mkBest PInf None)
                                Hfmiss Hb' (BestOf_nil m tp))
        as (b1 & br & Hrs & _ & Hbr).
      rewrite Hrs in Hp. simpl app in Hbr.
      assert (Hclear : forall t, Evaluated ev now t -> within (ev t) thr = false).
      { intros t [[Hin Hbefore] | (tc' & Hfirst' & Hin)].
        - destruct (Z_lt_le_dec t tc) as [Hlt | Hge].
          + apply within_weaken with (hi := PASS_THRESHOLD_COARSE_KM);
              [assumption |].
            destruct Hfirst as (_ & _ & Hb). now apply Hb.
          + assert (t = tc).
            { destruct (Z.eq_dec t tc) as [| Hne]; [assumption |].
              destruct Hfirst as (Hintc & Hhittc & _).
              rewrite (Hbefore tc Hintc) in Hhittc by lia. discriminate. }
            subst t. now apply Hfmiss.
        - rewrite (FirstCoarseHit_unique _ _ Hfirst' Hfirst) in Hin.
          now apply Hfmiss. }
      destruct Hbr as [[_ Hnone] | (t & d & -> & Hec)].
      * exfalso. pose proof (Hnone tc Hinfine) as Hn.
        unfold within in Hhit. rewrite Hn in Hhit. discriminate.
      * destruct (EarliestClosest_In m tp _ _ _ Hec) as [Hint Hevt].
        assert (Htpos : (0 < t)%Z).
        { unfold refineTimes in Hint.
          apply loop_times_lower in Hint; [lia | exact refineStepMs_pos]. }
        cbn [best_time best_distance] in Hp.
        rewrite truthyTime_pos in Hp by assumption.
        injection Hp as <-. cbn [thresholdHit time distance].
        pose proof (Hfmiss t Hint) as Hw. fold ev in Hevt.
        rewrite Hevt in Hw. unfold within in Hw. unfold num_le.
        destruct (Rle_dec d thr); [discriminate |].
        split; [discriminate | intros _; exact Hclear].
  - (* the coarse scan never comes within its threshold *)
    assert (Hmiss : forall t, In t coarse ->
                              within (ev t) PASS_THRESHOLD_COARSE_KM = false).
    { intros t Ht.
      destruct (within (ev t) PASS_THRESHOLD_COARSE_KM) eqn:Hw; [| reflexivity].
      assert (Hsome : existsb (fun t => within (ev t) PASS_THRESHOLD_COARSE_KM)
                              coarse = true)
        by (apply existsb_exists; eauto).
      rewrite Hsome in Hex. discriminate. }
    destruct (nextPassPrediction_miss m tp thr now Hmiss) as (best & Hfb & _).
    rewrite Hfb in Hp. unfold fallbackPrediction in Hp.
    destruct (truthyTime (best_time best)); [| discriminate].
    injection Hp as <-. cbn [thresholdHit]. split; [discriminate |].
    intros _ t [[Hin _] | (tc & (Hin & Hhit & _) & _)].
    + apply within_weaken with (hi := PASS_THRESHOLD_COARSE_KM);
        [assumption | now apply Hmiss].
    + fold coarse in Hin. rewrite (Hmiss tc Hin) in Hhit. discriminate.
Qed.

End PredictorFlag.

(* ================================================================== *)
(** * Part III: further properties of the code *)
(* ================================================================== *)

(** ** Geodesy: range and periodicity *)

Lemma atan_nonneg (z : R) : 0 <= z -> 0 <= atan z.
Proof.
  intros [Hpos | <-].
  - left. rewrite <- atan_0. now apply atan_increasing.
  - rewrite atan_0. lra.
Qed.

Lemma atan2_first_quadrant (y x : R) :
  0 <= y -> 0 <= x -> 0 <= atan2 y x <= PI / 2.
Proof.
  intros Hy Hx. unfold atan2. pose proof PI_RGT_0 as Hpi.
  destruct (Rlt_dec 0 x) as [Hxpos | Hx0].
  - assert (Hz : 0 <= y / x).
    { unfold Rdiv. apply Rmult_le_pos; [assumption |].
      left. now apply Rinv_0_lt_compat. }
    pose proof (atan_nonneg _ Hz). pose proof (atan_bound (y / x)). lra.
  - destruct (Rlt_dec x 0); [lra |].
    destruct (Rlt_dec 0 y); [lra |].
    destruct (Rlt_dec y 0); lra.
Qed.

Lemma normalizeFinite_shift (x : R) :
  exists k : Z, normalizeFinite x = x + 360 * IZR k.
Proof.
  unfold normalizeFinite, js_rem.
  set (q := Rtrunc (x / 360)).
  destruct (Rgt_dec (x - 360 * IZR q) 180).
  - destruct (Rlt_dec (x - 360 * IZR q - 360) (-180)).
    + exists (- q)%Z. rewrite opp_IZR. ring.
    + exists (- q - 1)%Z. rewrite minus_IZR, opp_IZR. ring.
  - destruct (Rlt_dec (x - 360 * IZR q) (-180)).
    + exists (- q + 1)%Z. rewrite plus_IZR, opp_IZR. ring.
    + exists (- q)%Z. rewrite opp_IZR. ring.
Qed.

(** What the function returns between two non-null points. *)
Lemma haversine_cases {F : Float64} (a b : GeoPoint) :
  (haversineDistanceKm (Some a) (Some b) = Some NaN /\
   (haversineA a b < 0 \/ round (1 - haversineA a b) < 0)) \/
  (exists d, haversineDistanceKm (Some a) (Some b) = Some (Fin d) /\
             0 <= d /\
             0 <= haversineA a b /\ 0 <= round (1 - haversineA a b)).
Proof.
  unfold haversineDistanceKm.
  destruct (Rlt_dec (haversineA a b) 0) as [Hneg | Hpos];
    [left; split; [reflexivity | now left] |].
  destruct (Rlt_dec (round (1 - haversineA a b)) 0) as [Hover | Hin];
    [left; split; [reflexivity | now right] |].
  right. eexists. split; [reflexivity |].
  split; [| split; lra].
  apply round_nonneg. unfold EARTH_RADIUS_KM.
  apply Rmult_le_pos; [lra |].
  apply round_nonneg. apply Rmult_le_pos; [lra |].
  apply Math_atan2_nonneg; apply round_nonneg; apply sqrt_pos.
Qed.

Lemma greatCircleKm_range (a b : GeoPoint) :
  0 <= greatCircleKm a b <= EARTH_RADIUS_KM * PI.
Proof.
  unfold greatCircleKm.
  match goal with
  | |- context [atan2 ?y ?x] =>
      pose proof (atan2_first_quadrant y x (sqrt_pos _) (sqrt_pos _)) as Hq
  end.
  unfold EARTH_RADIUS_KM. split; nra.
Qed.

(** X1. The function has no clamp: between two non-null points it returns
    NaN exactly when the value computed for [a] is negative or, once
    rounded, exceeds 1, and a non-negative number otherwise; in exact
    arithmetic [a] stays within [0, 1] and the result is a number between
    0 and half the circumference of the Earth, 6371 * pi km. *)
Theorem haversineDistanceKm_range :
  (forall (F : Float64) (a b : GeoPoint),
      (haversineDistanceKm (Some a) (Some b) = Some NaN <->
       haversineA a b < 0 \/ round (1 - haversineA a b) < 0) /\
      (haversineDistanceKm (Some a) (Some b) = Some NaN \/
       exists d, haversineDistanceKm (Some a) (Some b) = Some (Fin d) /\
                 0 <= d)) /\
  (forall a b : GeoPoint,
      exists d,
        haversineDistanceKm (F := exactArithmetic) (Some a) (Some b) =
        Some (Fin d) /\
        0 <= d <= EARTH_RADIUS_KM * PI).
Proof.
  split.
  - intros F a b.
    destruct (haversine_cases a b)
      as [[Hnan Hwhy] | (d & Hd & Hpos & Ha & Hb)].
    + split; [split; [intros _; exact Hwhy | intros _; exact Hnan] |].
      now left.
    + split; [| right; exists d; split; assumption].
      rewrite Hd. split; [discriminate | intros [H | H]; lra].
  - intros a b. exists (greatCircleKm a b).
    split; [apply haversine_exact | apply greatCircleKm_range].
Qed.

(** X28. Near the antipode the doubles leave the domain: from (8, -180) to
    (-8, 0) the value computed for [a] is 1.0000000000000002, [1 - a] is
    negative, its square root is NaN and the function returns NaN, for every
    engine whose [Math.sin] and [Math.cos] return the nearest double at the
    four arguments met; such a library exists. *)
Theorem haversineDistanceKm_NaN_near_antipode :
  (exists Math, Double.nearestNearAntipode Math) /\
  (forall Math,
      Double.nearestNearAntipode Math ->
      Double.haversineDistanceKm Math (Some (Double.mkGeo 8 (-180)))
                                 (Some (Double.mkGeo (-8) 0)) =
      Some nan).
Proof.
  split.
  { exists (Double.mkMath
              (fun x =>
                 if PrimFloat.ltb x 0 then (-0x1.1d06c968d9e19p-3)%float
                 else 1%float)
              (fun _ => 0x1.fb046a930947ap-1%float)
              (fun _ _ => nan)).
    unfold Double.nearestNearAntipode.
    cbn [Double.sin Double.cos Double.atan2].
    repeat split; vm_compute; reflexivity. }
  intros [sin cos atan2] H. unfold Double.nearestNearAntipode in H.
  cbn [Double.sin Double.cos Double.atan2] in H.
  destruct H as (H1 & H2 & H3 & H4 & Hnan).
  vm_compute. rewrite H1, H2, H3, H4. vm_compute. rewrite Hnan.
  vm_compute. reflexivity.
Qed.

(** X3. A finite longitude and its normalization differ by a whole number
    of turns: normalizeLng(x) = x + 360 k for an integer k. *)
Theorem normalizeLng_whole_turns (x : R) :
  exists k : Z, normalizeLng (Fin x) = Fin (x + 360 * IZR k).
Proof.
  destruct (normalizeFinite_shift x) as (k & Hk).
  exists k. unfold normalizeLng. cbn [Number_isFinite]. now rewrite Hk.
Qed.

(** ** 3D globe *)

Lemma latLngToCartesian_norm2 (lat lng r : R) :
  norm2 (latLngToCartesian (Some lat) (Some lng) (Some r)) = r * r.
Proof.
  unfold latLngToCartesian, norm2.
  set (p := lat * PI / 180). set (l := lng * PI / 180).
  pose proof (sin2_cos2 p) as Hp. pose proof (sin2_cos2 l) as Hl.
  unfold Rsqr in Hp, Hl.
  replace (r * cos p * cos l * (r * cos p * cos l) + r * sin p * (r * sin p) +
           r * cos p * sin l * (r * cos p * sin l))
    with (r * r * (cos p * cos p * (sin l * sin l + cos l * cos l) +
                   sin p * sin p)) by ring.
  rewrite Hl. replace (cos p * cos p * 1 + sin p * sin p)
    with (sin p * sin p + cos p * cos p) by ring.
  rewrite Hp. ring.
Qed.

Lemma nth_error_combine_seq {A : Type} (l : list A) :
  forall (start i index : nat) (x : A),
    nth_error (combine (seq start (length l)) l) i = Some (index, x) ->
    index = (start + i)%nat /\ nth_error l i = Some x.
Proof.
  induction l as [| a l IH]; intros start i index x H.
  - destruct i; discriminate.
  - destruct i as [| i]; simpl in H.
    + injection H as <- <-. split; [lia | reflexivity].
    + apply IH in H. destruct H as [-> H]. split; [lia | exact H].
Qed.

Lemma trajectoryRadius_bounds (len index : nat) :
  (index < len)%nat ->
  TARGET_RADIUS <= trajectoryRadius len index <= ISS_RADIUS.
Proof.
  intros Hlt. unfold trajectoryRadius, ISS_RADIUS, TARGET_RADIUS.
  set (n := Nat.max (len - 1) 1).
  assert (Hn : 0 < INR n) by (apply lt_0_INR; unfold n; lia).
  assert (Hi : 0 <= INR index <= INR n).
  { split; [apply pos_INR | apply le_INR; unfold n; lia]. }
  assert (Hq : 0 <= INR index / INR n <= 1).
  { split.
    - apply Rmult_le_pos; [lra | left; now apply Rinv_0_lt_compat].
    - apply Rmult_le_reg_r with (r := INR n); [assumption |].
      unfold Rdiv. rewrite Rmult_assoc, Rinv_l by lra. lra. }
  replace ((115 / 100 - 103 / 100) * INR index / INR n)
    with ((12 / 100) * (INR index / INR n)) by (field; lra).
  lra.
Qed.

(** X4. The formula of [latLngToCartesian], read over the reals, puts a
    finite latitude/longitude pair on the sphere of the given radius, and
    on the sphere of radius 1 when no radius is given; an argument whose
    type is not number gives the origin, whatever the other arguments. *)
Theorem latLngToCartesian_on_sphere :
  (forall lat lng r : R,
      norm2 (latLngToCartesian (Some lat) (Some lng) (Some r)) = r * r) /\
  (forall lat lng : R,
      latLngToCartesian (Some lat) (Some lng) None =
      latLngToCartesian (Some lat) (Some lng) (Some EARTH_RADIUS) /\
      norm2 (latLngToCartesian (Some lat) (Some lng) None) = 1) /\
  (forall lat lng r : option R,
      latLngToCartesian None lng r = (0, 0, 0) /\
      latLngToCartesian lat None r = (0, 0, 0)).
Proof.
  split; [exact latLngToCartesian_norm2 |].
  split.
  { intros lat lng. split; [reflexivity |].
    change (latLngToCartesian (Some lat) (Some lng) None)
      with (latLngToCartesian (Some lat) (Some lng) (Some EARTH_RADIUS)).
    rewrite latLngToCartesian_norm2. unfold EARTH_RADIUS. ring. }
  intros lat lng r. split; [reflexivity |].
  destruct lat; reflexivity.
Qed.

(** X5. The 3D trajectory has one point per path sample; the point of index
    i lies on the sphere of radius trajectoryRadius, which starts at the ISS
    radius 1.15, never leaves [1.03, 1.15], does not increase along the
    path, and for a path of 2 or more samples ends at the target radius
    1.03. *)
Theorem Trajectory_descends_to_target (p0 : PathPoint) (rest : list PathPoint) :
  exists points,
    Trajectory (Some (p0 :: rest)) = Some points /\
    length points = length (p0 :: rest) /\
    (forall i v, nth_error points i = Some v ->
                 norm2 v = trajectoryRadius (length (p0 :: rest)) i *
                           trajectoryRadius (length (p0 :: rest)) i /\
                 TARGET_RADIUS <= trajectoryRadius (length (p0 :: rest)) i
                               <= ISS_RADIUS) /\
    trajectoryRadius (length (p0 :: rest)) 0 = ISS_RADIUS /\
    (forall i j, (i <= j)%nat ->
                 trajectoryRadius (length (p0 :: rest)) j <=
                 trajectoryRadius (length (p0 :: rest)) i) /\
    (rest <> [] ->
     trajectoryRadius (length (p0 :: rest)) (length rest) = TARGET_RADIUS).
Proof.
  eexists. split; [reflexivity |].
  set (samples := p0 :: rest).
  split; [now rewrite length_map, length_combine, length_seq, Nat.min_id |].
  split.
  { intros i v Hv.
    rewrite nth_error_map in Hv.
    destruct (nth_error (combine (seq 0 (length samples)) samples) i)
      as [[index point] |] eqn:Hi; [| discriminate].
    injection Hv as <-.
    apply nth_error_combine_seq in Hi. destruct Hi as [-> Hnth].
    simpl Nat.add. split; [apply latLngToCartesian_norm2 |].
    apply trajectoryRadius_bounds.
    apply nth_error_Some. congruence. }
  assert (Hn : 0 < INR (Nat.max (length samples - 1) 1))
    by (apply lt_0_INR; lia).
  split.
  { unfold trajectoryRadius. simpl INR at 1. unfold Rdiv at 1.
    rewrite Rmult_0_r, Rmult_0_l. ring. }
  split.
  { intros i j Hij. unfold trajectoryRadius, ISS_RADIUS, TARGET_RADIUS.
    apply le_INR in Hij.
    apply Rplus_le_compat_l, Ropp_le_contravar.
    unfold Rdiv. apply Rmult_le_compat_r; [left; now apply Rinv_0_lt_compat |].
    nra. }
  intros Hne. unfold trajectoryRadius, samples.
  destruct rest as [| p1 rest']; [contradiction |].
  replace (Nat.max (length (p0 :: p1 :: rest') - 1) 1)
    with (length (p1 :: rest')) by (simpl; lia).
  assert (Hpos : 0 < INR (length (p1 :: rest')))
    by (apply lt_0_INR; simpl; lia).
  field. lra.
Qed.

(** ** Pass predictor: what a prediction reports *)

Lemma groundDistance_nonneg {F : Float64} (satrec : option OrbitalModel)
      (targetPoint : option GeoPoint) (t : Z) (d : R) :
  groundDistance satrec targetPoint t = Some d -> 0 <= d.
Proof.
  unfold groundDistance.
  destruct (computeGroundPoint satrec t) as [gp |]; [| discriminate].
  destruct targetPoint as [tp |]; [| discriminate].
  destruct (haversine_cases (mkGeo (lat gp) (normalizeFinite (lng gp))) tp)
    as [[-> _] | (d' & -> & Hpos & _)]; [discriminate |].
  intros [= <-]. exact Hpos.
Qed.

Lemma refineTimes_bounds (now tc t : Z) :
  In t (refineTimes now tc) -> (now <= t <= lookaheadEnd now)%Z.
Proof.
  intros Hin. unfold refineTimes in Hin.
  apply loop_times_lower in Hin; [lia | exact refineStepMs_pos].
Qed.

Section PredictionReport.

Context {F : Float64}.
Variable m : OrbitalModel.
Variable tp : GeoPoint.
Variable thr : R.
Variable now : Z.

Let ev := groundDistance (Some m) (Some tp).

Lemma Evaluated_bounds (t : Z) :
  Evaluated ev now t -> (now <= t <= lookaheadEnd now)%Z.
Proof.
  intros [[Hin _] | (tc & _ & Hin)].
  - apply loop_times_lower in Hin; [lia | exact coarseStepMs_pos].
  - now apply refineTimes_bounds in Hin.
Qed.

(** Whatever [best] holds after the coarse scan stopped at [tc] and the
    refine range was scanned is an evaluated sample. *)
Lemma BestOf_evaluated (l1 l2 : list Z) (tc t : Z) (d : R) (seen : list Z) :
  loop_times now (lookaheadEnd now) coarseStepMs = l1 ++ tc :: l2 ->
  FirstCoarseHit ev now tc ->
  seen = (l1 ++ [tc]) ++ refineTimes now tc \/ seen = refineTimes now tc ->
  EarliestClosest ev seen t d ->
  Evaluated ev now t /\ ev t = Some d.
Proof.
  intros Hsplit Hfirst Hseen Hec.
  destruct (EarliestClosest_In m tp _ _ _ Hec) as [Hin Hev].
  split; [| exact Hev].
  assert (Hcases : In t (l1 ++ [tc]) \/ In t (refineTimes now tc)).
  { destruct Hseen as [-> | ->]; [now apply in_app_or in Hin | now right]. }
  destruct Hcases as [Hpre | Hfine].
  - left.
    pose proof (loop_times_sorted now (lookaheadEnd now) _ coarseStepMs_pos)
      as Hsc.
    rewrite Hsplit in Hsc |- *.
    destruct (StronglySorted_split _ _ _ Hsc) as [Hlt _].
    assert (Hle : (t <= tc)%Z).
    { apply in_app_or in Hpre. destruct Hpre as [H | [<- | []]]; [| lia].
      pose proof (Hlt t H). lia. }
    split.
    + apply in_app_or in Hpre. apply in_or_app.
      destruct Hpre as [H | [<- | []]]; [now left | right; now left].
    + intros u Hu Hut. destruct Hfirst as (_ & _ & Hbefore).
      apply Hbefore; [now rewrite Hsplit | lia].
  - right. exists tc. split; assumption.
Qed.

Lemma nextPassPrediction_sample (p : PassPrediction) :
  nextPassPrediction (Some m) (Some tp) thr now = Some p ->
  Evaluated ev now (time p) /\
  exists d,
    distance p = Fin d /\ ev (time p) = Some d /\
    (thresholdHit p = true -> d <= thr).
Proof.
  intros Hp.
  set (coarse := loop_times now (lookaheadEnd now) coarseStepMs) in *.
  pose proof (loop_times_sorted now (lookaheadEnd now) _ coarseStepMs_pos)
    as Hsc. fold coarse in Hsc.
  assert (Htruthy : forall t v, truthyTime (Some t) = Some v -> v = t).
  { intros t v. unfold truthyTime. destruct (Z.eqb_spec t 0); [discriminate |].
    now intros [= <-]. }
  destruct (existsb (fun t => within (ev t) PASS_THRESHOLD_COARSE_KM) coarse)
    eqn:Hex.
  - apply existsb_exists in Hex.
    destruct (first_split _ _ Hex) as (l1 & tc & l2 & Hsplit & Hhit & Hl1).
    assert (Hfirst : FirstCoarseHit ev now tc).
    { unfold FirstCoarseHit. fold coarse. rewrite Hsplit in Hsc |- *.
      destruct (StronglySorted_split _ _ _ Hsc) as [Hlt Hgt].
      split; [apply in_or_app; right; now left |]. split; [assumption |].
      intros u Hu Hutc. apply in_app_or in Hu.
      destruct Hu as [Hu | [<- | Hu]]; [now apply Hl1 | lia |].
      pose proof (Hgt u Hu). lia. }
    destruct (coarseScan_hit m tp now l1 l2 [] tc (mkBest PInf None)
                             Hl1 Hhit (BestOf_nil m tp))
      as (b' & Hscan & Hb').
    unfold nextPassPrediction in Hp. fold coarse in Hp.
    rewrite Hsplit, Hscan in Hp. simpl w_start in Hp. simpl w_end in Hp.
    fold (refineTimes now tc) in Hp.
    destruct (existsb (fun t => within (ev t) thr) (refineTimes now tc))
      eqn:Hexf.
    + apply existsb_exists in Hexf.
      destruct (first_split _ _ Hexf) as (f1 & tq & f2 & Hfsplit & Hq & Hf1).
      assert (Hdq : exists dq, ev tq = Some dq /\ dq <= thr).
      { unfold within in Hq. destruct (ev tq) as [dq |]; [| discriminate].
        exists dq. split; [reflexivity |].
        destruct (Rle_dec dq thr); [assumption | discriminate]. }
      destruct Hdq as (dq & Hev & Hle).
      rewrite Hfsplit in Hp.
      rewrite (refineScan_hit m tp thr f1 f2 tq dq b' (mkBest PInf None)
                              Hf1 Hev Hle) in Hp.
      injection Hp as <-. cbn [time distance thresholdHit].
      split.
      * right. exists tc. split; [assumption |].
        rewrite Hfsplit. apply in_or_app. right. now left.
      * exists dq. repeat split; try assumption. intros _. assumption.
    + assert (Hfmiss : forall t, In t (refineTimes now tc) ->
                                 within (ev t) thr = false).
      { intros t Ht. destruct (within (ev t) thr) eqn:Hw; [| reflexivity].
        assert (Hsome : existsb (fun t => within (ev t) thr)
                                (refineTimes now tc) = true)
          by (apply existsb_exists; eauto).
        rewrite Hsome in Hexf. discriminate. }
      destruct (refineScan_miss m tp thr (refineTimes now tc) _ []
                                b' (mkBest PInf None)
                                Hfmiss Hb' (BestOf_nil m tp))
        as (b1 & br & Hrs & Hb1 & Hbr).
      rewrite Hrs in Hp. simpl app in Hbr, Hb1.
      destruct (truthyTime (best_time br)) as [v |] eqn:Hv.
      * injection Hp as <-. cbn [time distance thresholdHit].
        destruct Hbr as [[-> _] | (t & d & -> & Hec)]; [discriminate |].
        cbn [best_time best_distance] in *.
        apply Htruthy in Hv. subst v.
        destruct (BestOf_evaluated l1 l2 tc t d _ Hsplit Hfirst
                                   (or_intror eq_refl) Hec) as [Hevd Hd].
        split; [assumption |]. exists d. repeat split; try assumption.
        unfold num_le. destruct (Rle_dec d thr); [trivial | discriminate].
      * unfold fallbackPrediction in Hp.
        destruct (truthyTime (best_time b1)) as [v |] eqn:Hv1; [| discriminate].
        injection Hp as <-. cbn [time distance thresholdHit].
        destruct Hb1 as [[-> _] | (t & d & -> & Hec)]; [discriminate |].
        cbn [best_time best_distance] in *.
        apply Htruthy in Hv1. subst v.
        destruct (BestOf_evaluated l1 l2 tc t d _ Hsplit Hfirst
                                   (or_introl eq_refl) Hec) as [Hevd Hd].
        split; [assumption |]. exists d. repeat split; try assumption.
        discriminate.
  - assert (Hmiss : forall t, In t coarse ->
                              within (ev t) PASS_THRESHOLD_COARSE_KM = false).
    { intros t Ht.
      destruct (within (ev t) PASS_THRESHOLD_COARSE_KM) eqn:Hw; [| reflexivity].
      assert (Hsome : existsb (fun t => within (ev t) PASS_THRESHOLD_COARSE_KM)
                              coarse = true)
        by (apply existsb_exists; eauto).
      rewrite Hsome in Hex. discriminate. }
    destruct (nextPassPrediction_miss m tp thr now Hmiss) as (best & Hfb & Hb).
    rewrite Hfb in Hp. unfold fallbackPrediction in Hp.
    destruct (truthyTime (best_time best)) as [v |] eqn:Hv; [| discriminate].
    injection Hp as <-. cbn [time distance thresholdHit].
    destruct Hb as [[-> _] | (t & d & -> & Hec)]; [discriminate |].
    cbn [best_time best_distance] in *.
    apply Htruthy in Hv. subst v.
    destruct (EarliestClosest_In m tp _ _ _ Hec) as [Hin Hev].
    split.
    + left. split; [assumption |]. intros u Hu _. now apply Hmiss.
    + exists d. repeat split; try assumption. discriminate.
Qed.

End PredictionReport.

(** X6. Every non-null prediction reports a sample the search evaluated:
    its time is an instant of the coarse or refine range, between now and
    the end of the 24 h lookahead; its distance is the non-negative distance
    of the ground track to the target at that time; and thresholdHit is set
    only if that distance is within the configured threshold. *)
Theorem nextPassPrediction_reports_evaluated_sample {F : Float64}
        (m : OrbitalModel) (tp : GeoPoint) (thr : R) (now : Z)
        (p : PassPrediction) :
  nextPassPrediction (Some m) (Some tp) thr now = Some p ->
  Evaluated (groundDistance (Some m) (Some tp)) now (time p) /\
  (now <= time p <= lookaheadEnd now)%Z /\
  exists d,
    distance p = Fin d /\
    groundDistance (Some m) (Some tp) (time p) = Some d /\
    0 <= d /\
    (thresholdHit p = true -> d <= thr).
Proof.
  intros Hp.
  destruct (nextPassPrediction_sample m tp thr now p Hp)
    as (Hev & d & Hd & Hg & Hflag).
  split; [assumption |].
  split; [now apply (Evaluated_bounds m tp) |].
  exists d. repeat split; try assumption.
  now apply groundDistance_nonneg in Hg.
Qed.

(** Witness for X6: the track resting two degrees east of the target. *)
Lemma nextPassPrediction_reports_evaluated_sample_witness :
  exists p,
    nextPassPrediction (Some (equatorTrack (fun _ => 2))) (Some origin)
                       PASS_THRESHOLD_DEFAULT_KM sampleNow = Some p /\
    (sampleNow <= time p <= lookaheadEnd sampleNow)%Z /\
    thresholdHit p = false.
Proof.
  assert (Hp : nextPassPrediction (Some (equatorTrack (fun _ => 2)))
                                  (Some origin) PASS_THRESHOLD_DEFAULT_KM
                                  sampleNow =
               Some (mkPrediction sampleNow (Fin (EARTH_RADIUS_KM * toRad 2))
                                  false)).
  { apply nextPassPrediction_constant_track; [reflexivity | lra |].
    destruct (equator_km_bounds 2) as [Hlo _]; [lra |].
    unfold PASS_THRESHOLD_COARSE_KM, EARTH_RADIUS_KM in *. lra. }
  eexists. split; [exact Hp |].
  destruct (nextPassPrediction_reports_evaluated_sample _ _ _ _ _ Hp)
    as (_ & Hbounds & _).
  split; [exact Hbounds | reflexivity].
Defined.

(** ** Simulation path: where the samples come from *)

Lemma In_removelast_cons {A : Type} (a x : A) (l : list A) :
  In x (removelast (a :: l)) -> x = a \/ In x (removelast l).
Proof.
  destruct l as [| b l]; [intros [] |].
  change (removelast (a :: b :: l)) with (a :: removelast (b :: l)).
  intros [<- | H]; [now left | now right].
Qed.

(** The position of an element set apart by a test is determined. *)
Lemma split_at_marked {A : Type} (P : A -> bool) (r tail : list A) (x : A) :
  (forall y, In y r -> P y = false) ->
  (forall y, In y tail -> P y = false) ->
  forall (l1 l2 : list A) (s : A),
    P s = true -> l1 ++ s :: l2 = r ++ x :: tail -> l2 = tail.
Proof.
  intros Hr Htail. induction r as [| y r IH]; intros l1 l2 s Hs Heq.
  - destruct l1 as [| a l1]; simpl in Heq.
    + now injection Heq.
    + injection Heq as _ Heq.
      assert (Hin : In s tail) by (rewrite <- Heq; apply in_or_app; right; now left).
      rewrite (Htail s Hin) in Hs. discriminate.
  - destruct l1 as [| a l1]; simpl in Heq.
    + injection Heq as -> _.
      rewrite (Hr y (or_introl eq_refl)) in Hs. discriminate.
    + injection Heq as _ Heq.
      apply (IH (fun z Hz => Hr z (or_intror Hz)) l1 l2 s Hs Heq).
Qed.

Section PathSamples.

Context {F : Float64}.
Variable satrec : option OrbitalModel.
Variable targetPoint : option GeoPoint.
Variable thr : R.
Variable now : Z.

Lemma stepSamples_from_model (ts : list Z) (path : list PathPoint) :
  exists extra,
    stepSamples satrec targetPoint thr ts path = path ++ extra /\
    (forall s, In s extra ->
               In (pt_time s) ts /\ FromModel satrec targetPoint now s) /\
    (forall s, In s (removelast extra) -> within (pt_distance s) thr = false).
Proof.
  revert path. induction ts as [| t ts IH]; intros path.
  - exists []. rewrite app_nil_r. split; [reflexivity |]. split; intros s [].
  - cbn [stepSamples]. destruct (computeGroundPoint satrec t) as [gp |] eqn:Hgp.
    + set (pt := mkPoint (lat gp) (normalizeFinite (lng gp)) t
                         (comparable
                            (haversineDistanceKm
                               (Some (mkGeo (lat gp)
                                            (normalizeFinite (lng gp))))
                               targetPoint))).
      assert (Hpt : In (pt_time pt) (t :: ts) /\
                    FromModel satrec targetPoint now pt).
      { split; [now left |]. exists gp. unfold pt. cbn [pt_time pt_lat pt_lng
                                                        pt_distance].
        repeat split; [assumption | now left | now right]. }
      cbn [lat lng]. fold pt.
      destruct (within (pt_distance pt) thr) eqn:Hw; cbn [pt_distance pt] in Hw;
        rewrite Hw.
      * exists [pt]. split; [reflexivity |]. split; [| intros s []].
        intros s [<- | []]. exact Hpt.
      * destruct (IH (path ++ [pt])) as (extra & Heq & Hfrom & Hstop).
        exists (pt :: extra). split; [rewrite Heq, <- app_assoc; reflexivity |].
        split.
        -- intros s [<- | Hs]; [exact Hpt |].
           destruct (Hfrom s Hs) as [Hin Hm]. split; [now right | exact Hm].
        -- intros s Hs. apply In_removelast_cons in Hs.
           destruct Hs as [-> | Hs]; [exact Hw | now apply Hstop].
    + destruct (IH path) as (extra & Heq & Hfrom & Hstop).
      exists extra. split; [assumption |]. split; [| assumption].
      intros s Hs. destruct (Hfrom s Hs) as [Hin Hm].
      split; [now right | exact Hm].
Qed.

Lemma gatheredSamples_from_model (endMs : Z) :
  (forall s, In s (gatheredSamples satrec targetPoint thr now endMs) ->
             (pt_time s = now \/
              In (pt_time s)
                 (loop_times (now + simStepMs) (endMs + simStepMs) simStepMs)) /\
             FromModel satrec targetPoint now s) /\
  (forall s,
      In s (removelast (gatheredSamples satrec targetPoint thr now endMs)) ->
      within (pt_distance s) thr = false).
Proof.
  unfold gatheredSamples.
  match goal with
  | |- context [stepSamples _ _ _ ?ts ?path] =>
      destruct (stepSamples_from_model ts path) as (extra & -> & Hfrom & Hstop);
      set (start := path) in *
  end.
  assert (Hstart : forall s, In s start ->
                             pt_time s = now /\ pt_distance s = None /\
                             FromModel satrec targetPoint now s).
  { intros s. unfold start.
    destruct (computeGroundPoint satrec now) as [sp |] eqn:Hsp; [| intros []].
    intros [<- | []]. cbn [pt_time pt_distance].
    split; [reflexivity |]. split; [reflexivity |].
    exists sp. cbn [pt_time pt_lat pt_lng pt_distance].
    split; [assumption |]. split; [reflexivity |].
    split; [right; now split | now left]. }
  split.
  - intros s Hs. apply in_app_or in Hs. destruct Hs as [Hs | Hs].
    + destruct (Hstart s Hs) as (Ht & _ & Hm). split; [now left | exact Hm].
    + destruct (Hfrom s Hs) as [Hin Hm]. split; [now right | exact Hm].
  - intros s Hs.
    destruct extra as [| e extra].
    + rewrite app_nil_r in Hs.
      assert (Hin : In s start).
      { clear -Hs. destruct start as [| a [| b l]]; [destruct Hs | destruct Hs |].
        revert Hs. generalize (a :: b :: l). intros l0 H0.
        induction l0 as [| c l0 IH]; [destruct H0 |].
        apply In_removelast_cons in H0.
        destruct H0 as [-> | H0]; [now left | right; now apply IH]. }
      destruct (Hstart s Hin) as (_ & -> & _). reflexivity.
    + rewrite removelast_app in Hs by discriminate.
      apply in_app_or in Hs. destruct Hs as [Hs | Hs].
      * destruct (Hstart s Hs) as (_ & -> & _). reflexivity.
      * now apply Hstop.
Qed.

End PathSamples.

(** Where the samples of a non-null path come from. *)
Lemma simulationPath_samples {F : Float64}
      (m : OrbitalModel) (tp : GeoPoint) (thr : R) (now : Z)
        (p : PassPrediction) (path : list PathPoint) :
  simulationPath (Some m) (Some tp) thr now (Some p) = Some path ->
  forall s, In s path ->
    FromModel (Some m) (Some tp) now s /\
    (now <= pt_time s <= time p + simStepMs)%Z /\
    (((pt_time s - now) mod simStepMs = 0)%Z \/ pt_time s = time p).
Proof.
  unfold simulationPath.
  destruct (Z.eqb_spec (time p) 0) as [| Hnz]; [discriminate |].
  destruct (Z.leb_spec (time p) now) as [| Hgt]; [discriminate |].
  destruct (gatheredSamples_from_model (Some m) (Some tp) thr now (time p))
    as [Hfrom _].
  set (g := gatheredSamples (Some m) (Some tp) thr now (time p)) in *.
  destruct (Nat.ltb_spec (length g) 2) as [| Hlen]; [discriminate |].
  pose proof simStepMs_pos as Hstep.
  assert (Hg : forall s, In s g ->
                 FromModel (Some m) (Some tp) now s /\
                 (now <= pt_time s <= time p + simStepMs)%Z /\
                 (((pt_time s - now) mod simStepMs = 0)%Z \/
                  pt_time s = time p)).
  { intros s Hs. destruct (Hfrom s Hs) as [[Ht | Ht] Hm].
    - split; [exact Hm |]. rewrite Ht, Z.sub_diag, Z.mod_0_l by lia.
      split; [lia | now left].
    - split; [exact Hm |].
      apply loop_times_In in Ht; [| exact Hstep].
      destruct Ht as (k & Hk & -> & Hle). split; [nia |]. left.
      replace (now + simStepMs + k * simStepMs - now)%Z
        with ((k + 1) * simStepMs)%Z by ring.
      apply Z.mod_mul. lia. }
  destruct (Z.ltb_spec (pt_time (last g (mkPoint 0 0 0 None))) (time p)).
  - simpl computeGroundPoint.
    destruct (m (time p)) as [fp |] eqn:Hfp; intros [= <-]; [| exact Hg].
    intros s Hs. apply in_app_or in Hs. destruct Hs as [Hs | [<- | []]];
      [now apply Hg |].
    cbn [pt_time]. split; [| split; [lia | now right]].
    exists fp. cbn [pt_time pt_lat pt_lng pt_distance].
    split; [exact Hfp |]. split; [reflexivity |].
    split; [now left | now left].
  - intros [= <-]. exact Hg.
Qed.

(** X7. Every sample of a non-null simulation path is read off the model at
    its own timestamp: its latitude is the model's, its longitude the
    model's normalized (raw for the start sample), its distance, when it has
    one, the haversine distance to the target.  Its timestamp lies between
    now and one step past the predicted pass time, and is now plus a whole
    number of 15 s steps or the pass time itself. *)
Theorem simulationPath_samples_from_model {F : Float64}
        (m : OrbitalModel) (tp : GeoPoint) (thr : R) (now : Z)
        (p : PassPrediction) (path : list PathPoint) :
  simulationPath (Some m) (Some tp) thr now (Some p) = Some path ->
  forall s, In s path ->
    FromModel (Some m) (Some tp) now s /\
    (now <= pt_time s <= time p + simStepMs)%Z /\
    (((pt_time s - now) mod simStepMs = 0)%Z \/ pt_time s = time p).
Proof. exact (simulationPath_samples m tp thr now p path). Qed.

(** The path built on the resting track for a pass predicted 20 s ahead. *)
Lemma resting_track_path :
  simulationPath (Some (equatorTrack (fun _ => 2))) (Some origin)
                 PASS_THRESHOLD_DEFAULT_KM sampleNow
                 (Some (mkPrediction (sampleNow + 20000) (Fin 0) true)) =
  Some [mkPoint 0 2 sampleNow None;
        mkPoint 0 (normalizeFinite 2) (sampleNow + 15000)
                (Some (EARTH_RADIUS_KM * toRad 2));
        mkPoint 0 (normalizeFinite 2) (sampleNow + 30000)
                (Some (EARTH_RADIUS_KM * toRad 2))].
Proof.
  assert (Hloop : loop_times (sampleNow + simStepMs)
                             (sampleNow + 20000 + simStepMs) simStepMs =
                  [sampleNow + 15000; sampleNow + 30000]%Z)
    by reflexivity.
  assert (Hd : comparable
                 (haversineDistanceKm (Some (mkGeo 0 (normalizeFinite 2)))
                                      (Some origin)) =
               Some (EARTH_RADIUS_KM * toRad 2))
    by (apply equator_distance; lra).
  assert (Hfar : within (Some (EARTH_RADIUS_KM * toRad 2))
                        PASS_THRESHOLD_DEFAULT_KM = false).
  { apply within_false_gt. destruct (equator_km_bounds 2) as [Hlo _]; [lra |].
    unfold PASS_THRESHOLD_DEFAULT_KM, EARTH_RADIUS_KM in *. lra. }
  unfold simulationPath. cbn [time].
  replace (sampleNow + 20000 =? 0)%Z with false by reflexivity.
  replace (sampleNow + 20000 <=? sampleNow)%Z with false by reflexivity.
  unfold gatheredSamples. rewrite Hloop.
  unfold computeGroundPoint, equatorTrack.
  cbn [stepSamples computeGroundPoint lat lng].
  rewrite Hd, Hfar. cbn [app length Nat.ltb Nat.leb last pt_time].
  replace (sampleNow + 30000 <? sampleNow + 20000)%Z with false by reflexivity.
  reflexivity.
Qed.

(** Witness for X7: the resting track and a pass predicted 20 s ahead. *)
Lemma simulationPath_samples_from_model_witness :
  exists path,
    simulationPath (Some (equatorTrack (fun _ => 2))) (Some origin)
                   PASS_THRESHOLD_DEFAULT_KM sampleNow
                   (Some (mkPrediction (sampleNow + 20000) (Fin 0) true)) =
    Some path /\
    forall s, In s path ->
              (sampleNow <= pt_time s <= sampleNow + 20000 + simStepMs)%Z.
Proof.
  pose proof resting_track_path as Hpath.
  eexists. split; [exact Hpath |].
  intros s Hs.
  destruct (simulationPath_samples_from_model _ _ _ _ _ _ Hpath s Hs)
    as (_ & Hb & _).
  exact Hb.
Defined.

(** X8. The stepping loop stops at the first sample within the pass
    threshold: in a non-null simulation path a sample within the threshold
    is the last sample, or is followed only by the closing sample at the
    pass time. *)
Theorem simulationPath_stops_at_threshold {F : Float64}
        (m : OrbitalModel) (tp : GeoPoint) (thr : R) (now : Z)
        (p : PassPrediction) (path l1 l2 : list PathPoint) (s : PathPoint) :
  simulationPath (Some m) (Some tp) thr now (Some p) = Some path ->
  path = l1 ++ s :: l2 ->
  within (pt_distance s) thr = true ->
  l2 = [] \/ exists f, l2 = [f] /\ pt_time f = time p /\ pt_distance f = None.
Proof.
  unfold simulationPath.
  destruct (Z.eqb_spec (time p) 0) as [| Hnz]; [discriminate |].
  destruct (Z.leb_spec (time p) now) as [| Hgt]; [discriminate |].
  destruct (gatheredSamples_from_model (Some m) (Some tp) thr now (time p))
    as [_ Hstop].
  set (g := gatheredSamples (Some m) (Some tp) thr now (time p)) in *.
  destruct (Nat.ltb_spec (length g) 2) as [| Hlen]; [discriminate |].
  assert (Hg : g = removelast g ++ [last g (mkPoint 0 0 0 None)]).
  { apply app_removelast_last. destruct g; [simpl in Hlen; lia | discriminate]. }
  intros Hpath Hsplit Hw.
  assert (Htail : exists tail,
             path = removelast g ++ last g (mkPoint 0 0 0 None) :: tail /\
             (tail = [] \/
              exists f, tail = [f] /\ pt_time f = time p /\
                        pt_distance f = None)).
  { destruct (pt_time (last g (mkPoint 0 0 0 None)) <? time p)%Z.
    - destruct (computeGroundPoint (Some m) (time p)) as [fp |].
      + injection Hpath as <-. eexists [_]. split.
        * rewrite Hg at 1. now rewrite <- app_assoc.
        * right. eexists. split; [reflexivity |]. split; reflexivity.
      + injection Hpath as <-. exists []. split; [exact Hg | now left].
    - injection Hpath as <-. exists []. split; [exact Hg | now left]. }
  destruct Htail as (tail & Heq & Htl).
  rewrite Hsplit in Heq.
  assert (Hl2 : l2 = tail).
  { apply (split_at_marked (fun q => within (pt_distance q) thr)
                           (removelast g) tail
                           (last g (mkPoint 0 0 0 None)) Hstop)
      with (l1 := l1) (s := s);
      [| assumption | exact Heq].
    intros y Hy. destruct Htl as [-> | (f & -> & _ & Hd)]; [destruct Hy |].
    destruct Hy as [<- | []]. now rewrite Hd. }
  now rewrite Hl2.
Qed.

(** Witness for X8: on the approaching track with a pass predicted 40 s
    ahead, the loop stops at the 30 s sample (0.03 degrees from the target)
    and only the closing sample follows it. *)
Lemma simulationPath_stops_at_threshold_witness :
  exists a b s f,
    simulationPath (Some (equatorTrack approachLng)) (Some origin)
                   PASS_THRESHOLD_DEFAULT_KM sampleNow
                   (Some (mkPrediction (sampleNow + 40000) (Fin 0) true)) =
    Some ([a; b] ++ s :: [f]) /\
    within (pt_distance s) PASS_THRESHOLD_DEFAULT_KM = true /\
    pt_time s = (sampleNow + 30000)%Z /\
    pt_time f = (sampleNow + 40000)%Z.
Proof.
  assert (Hloop : loop_times (sampleNow + simStepMs)
                             (sampleNow + 40000 + simStepMs) simStepMs =
                  [sampleNow + 15000; sampleNow + 30000; sampleNow + 45000]%Z)
    by reflexivity.
  assert (Hd1 : comparable
                  (haversineDistanceKm
                     (Some (mkGeo 0 (normalizeFinite 1))) (Some origin)) =
                Some (EARTH_RADIUS_KM * toRad 1))
    by (apply equator_distance; lra).
  assert (Hd3 : comparable
                  (haversineDistanceKm
                     (Some (mkGeo 0 (normalizeFinite (3 / 100)))) (Some origin)) =
                Some (EARTH_RADIUS_KM * toRad (3 / 100)))
    by (apply equator_distance; lra).
  assert (Hfar : within (Some (EARTH_RADIUS_KM * toRad 1))
                        PASS_THRESHOLD_DEFAULT_KM = false).
  { apply within_false_gt. destruct (equator_km_bounds 1) as [Hlo _]; [lra |].
    unfold PASS_THRESHOLD_DEFAULT_KM, EARTH_RADIUS_KM in *. lra. }
  assert (Hnear : within (Some (EARTH_RADIUS_KM * toRad (3 / 100)))
                         PASS_THRESHOLD_DEFAULT_KM = true).
  { apply within_true_le.
    destruct (equator_km_bounds (3 / 100)) as [_ Hhi]; [lra |].
    unfold PASS_THRESHOLD_DEFAULT_KM, EARTH_RADIUS_KM in *. lra. }
  assert (Hpath :
            simulationPath (Some (equatorTrack approachLng)) (Some origin)
                           PASS_THRESHOLD_DEFAULT_KM sampleNow
                           (Some (mkPrediction (sampleNow + 40000) (Fin 0) true)) =
            Some ([mkPoint 0 1 sampleNow None;
                   mkPoint 0 (normalizeFinite 1) (sampleNow + 15000)
                           (Some (EARTH_RADIUS_KM * toRad 1))] ++
                  mkPoint 0 (normalizeFinite (3 / 100)) (sampleNow + 30000)
                          (Some (EARTH_RADIUS_KM * toRad (3 / 100))) ::
                  [mkPoint 0 (normalizeFinite 0) (sampleNow + 40000) None])).
  { unfold simulationPath. cbn [time].
    replace (sampleNow + 40000 =? 0)%Z with false by reflexivity.
    replace (sampleNow + 40000 <=? sampleNow)%Z with false by reflexivity.
    unfold gatheredSamples. rewrite Hloop.
    unfold computeGroundPoint, equatorTrack.
    cbn [stepSamples computeGroundPoint lat lng].
    rewrite (approachLng_far sampleNow) by lia.
    rewrite (approachLng_far (sampleNow + 15000)) by lia.
    rewrite (approachLng_near (sampleNow + 30000)) by lia.
    rewrite (approachLng_over (sampleNow + 40000)) by lia.
    rewrite Hd1, Hfar, Hd3, Hnear.
    cbn [app length Nat.ltb Nat.leb last pt_time].
    replace (sampleNow + 30000 <? sampleNow + 40000)%Z with true by reflexivity.
    reflexivity. }
  eexists _, _, _, _. split; [exact Hpath |].
  cbn [pt_distance pt_time]. split; [exact Hnear |].
  split; [reflexivity |].
  destruct (simulationPath_stops_at_threshold
              _ _ _ _ _ _ _ _ _ Hpath eq_refl Hnear)
    as [Hnil | (f & Hf & Ht & _)]; [discriminate |].
  injection Hf as <-. reflexivity.
Defined.

(** ** Simulation path: shape *)

(** The first sample pushed by the stepping loop into an empty path sits at
    the first instant of the range where the model has a ground point. *)
Lemma stepSamples_first {F : Float64} (satrec : option OrbitalModel)
      (targetPoint : option GeoPoint) (thr : R) (ts : list Z)
      (first : PathPoint) (rest : list PathPoint) :
  stepSamples satrec targetPoint thr ts [] = first :: rest ->
  exists l1 l2,
    ts = l1 ++ pt_time first :: l2 /\
    (forall u, In u l1 -> computeGroundPoint satrec u = None) /\
    computeGroundPoint satrec (pt_time first) <> None.
Proof.
  induction ts as [| t ts IH]; [discriminate |].
  cbn [stepSamples].
  destruct (computeGroundPoint satrec t) as [gp |] eqn:Hgp.
  - cbn [app lat lng].
    match goal with
    | |- context [within ?d thr] => destruct (within d thr)
    end.
    + intros [= <- _]. exists [], ts. cbn [pt_time app].
      split; [reflexivity |]. split; [intros u [] | congruence].
    + match goal with
      | |- stepSamples _ _ _ _ [?pt] = _ -> _ =>
          destruct (stepSamples_from_model satrec targetPoint thr 0%Z ts [pt])
            as (extra & -> & _)
      end.
      intros [= <- _]. exists [], ts. cbn [pt_time app].
      split; [reflexivity |]. split; [intros u [] | congruence].
  - intros Hstep. destruct (IH Hstep) as (l1 & l2 & -> & Hnone & Hsome).
    exists (t :: l1), l2. split; [reflexivity |].
    split; [| exact Hsome].
    intros u [<- | Hu]; [exact Hgp | now apply Hnone].
Qed.

(** Where the samples gathered before the length test start. *)
Lemma gatheredSamples_first {F : Float64} (m : OrbitalModel) (tp : GeoPoint)
      (thr : R) (now endMs : Z) (first : PathPoint) (rest : list PathPoint) :
  gatheredSamples (Some m) (Some tp) thr now endMs = first :: rest ->
  (m now <> None -> pt_time first = now) /\
  (m now = None ->
   exists l1 l2,
     loop_times (now + simStepMs) (endMs + simStepMs) simStepMs =
     l1 ++ pt_time first :: l2 /\
     (forall u, In u l1 -> m u = None) /\
     m (pt_time first) <> None).
Proof.
  intros Hg. split.
  - intros Hnow.
    destruct (gatheredSamples_sorted (Some m) (Some tp) thr now endMs)
      as [_ Hfirst].
    destruct (Hfirst Hnow) as (first' & rest' & Heq & Ht).
    rewrite Heq in Hg. now injection Hg as <- _.
  - intros Hnone. unfold gatheredSamples in Hg.
    cbn [computeGroundPoint] in Hg. rewrite Hnone in Hg.
    exact (stepSamples_first (Some m) (Some tp) thr _ first rest Hg).
Qed.

(** A prediction is issued only at an instant where the model has a ground
    point. *)
Lemma nextPassPrediction_has_ground_point {F : Float64}
      (m : OrbitalModel) (tp : GeoPoint) (thr : R) (now : Z)
      (p : PassPrediction) :
  nextPassPrediction (Some m) (Some tp) thr now = Some p ->
  m (time p) <> None.
Proof.
  intros Hp.
  destruct (nextPassPrediction_sample m tp thr now p Hp)
    as (_ & d & _ & Hd & _).
  unfold groundDistance in Hd. cbn [computeGroundPoint] in Hd.
  destruct (m (time p)); [discriminate | discriminate Hd].
Qed.

(** The distance of [lateTrack] to the origin. *)
Lemma lateTrack_distance (t : Z) :
  groundDistance (Some lateTrack) (Some origin) t =
  if (sampleNow + 10000 <? t)%Z then Some (EARTH_RADIUS_KM * toRad 2)
  else None.
Proof.
  unfold groundDistance, computeGroundPoint, lateTrack.
  destruct (sampleNow + 10000 <? t)%Z; [| reflexivity].
  cbn [lat lng]. apply equator_distance. lra.
Qed.

Lemma resting_distance_far :
  within (Some (EARTH_RADIUS_KM * toRad 2)) PASS_THRESHOLD_COARSE_KM = false /\
  within (Some (EARTH_RADIUS_KM * toRad 2)) PASS_THRESHOLD_DEFAULT_KM = false.
Proof.
  destruct (equator_km_bounds 2) as [Hlo _]; [lra |].
  unfold PASS_THRESHOLD_COARSE_KM, PASS_THRESHOLD_DEFAULT_KM,
    EARTH_RADIUS_KM in *.
  split; apply within_false_gt; lra.
Qed.

(** On [lateTrack] the predictor, run at [sampleNow], settles on the first
    coarse sample that has a position, 30 s after [sampleNow]. *)
Lemma lateTrack_prediction :
  nextPassPrediction (Some lateTrack) (Some origin) PASS_THRESHOLD_DEFAULT_KM
                     sampleNow =
  Some (mkPrediction (sampleNow + 30000) (Fin (EARTH_RADIUS_KM * toRad 2))
                     false).
Proof.
  destruct (nextPassPrediction_miss lateTrack origin PASS_THRESHOLD_DEFAULT_KM
                                    sampleNow) as (best & -> & Hb).
  { intros t _. rewrite lateTrack_distance.
    destruct (sampleNow + 10000 <? t)%Z;
      [apply resting_distance_far | reflexivity]. }
  pose proof (loop_times_sorted sampleNow (lookaheadEnd sampleNow) _
                                coarseStepMs_pos) as Hsorted.
  assert (Hin : In (sampleNow + 30000)%Z
                   (loop_times sampleNow (lookaheadEnd sampleNow)
                               coarseStepMs)).
  { apply loop_times_In; [exact coarseStepMs_pos |].
    exists 1%Z. unfold coarseStepMs, lookaheadEnd, PASS_COARSE_STEP_SECONDS,
                  PASS_LOOKAHEAD_MINUTES, sampleNow. repeat split; lia. }
  assert (Hev30 : groundDistance (Some lateTrack) (Some origin)
                                 (sampleNow + 30000) =
                  Some (EARTH_RADIUS_KM * toRad 2)).
  { rewrite lateTrack_distance.
    destruct (Z.ltb_spec (sampleNow + 10000) (sampleNow + 30000));
      [reflexivity | lia]. }
  destruct Hb as [[_ Hnone] | (t & d & -> & Hec)].
  - specialize (Hnone _ Hin). rewrite Hev30 in Hnone. discriminate Hnone.
  - destruct (EarliestClosest_sorted _ _ _ _ Hsorted Hec)
      as (Ht & Hd & Hmin).
    rewrite lateTrack_distance in Hd.
    destruct (Z.ltb_spec (sampleNow + 10000) t) as [Hlate |];
      [| discriminate Hd].
    injection Hd as <-.
    assert (Hle : (t <= sampleNow + 30000)%Z)
      by (apply (Hmin _ (EARTH_RADIUS_KM * toRad 2) Hin Hev30); reflexivity).
    apply loop_times_In in Ht; [| exact coarseStepMs_pos].
    destruct Ht as (k & Hk & Ht & _).
    unfold coarseStepMs, PASS_COARSE_STEP_SECONDS in Ht.
    assert (Heq : t = (sampleNow + 30000)%Z) by lia.
    rewrite Heq. unfold fallbackPrediction. cbn [best_time best_distance].
    rewrite truthyTime_pos by (unfold sampleNow; lia). reflexivity.
Qed.

(** The path built on [lateTrack] for that prediction at [sampleLater]:
    samples 15 s and 30 s after [sampleLater]. *)
Lemma lateTrack_path :
  simulationPath (Some lateTrack) (Some origin) PASS_THRESHOLD_DEFAULT_KM
                 sampleLater
                 (Some (mkPrediction (sampleNow + 30000)
                                     (Fin (EARTH_RADIUS_KM * toRad 2)) false)) =
  Some [mkPoint 0 (normalizeFinite 2) (sampleLater + 15000)
                (Some (EARTH_RADIUS_KM * toRad 2));
        mkPoint 0 (normalizeFinite 2) (sampleLater + 30000)
                (Some (EARTH_RADIUS_KM * toRad 2))].
Proof.
  assert (Hloop : loop_times (sampleLater + simStepMs)
                             (sampleNow + 30000 + simStepMs) simStepMs =
                  [sampleLater + 15000; sampleLater + 30000]%Z)
    by reflexivity.
  assert (Hd : comparable
                 (haversineDistanceKm (Some (mkGeo 0 (normalizeFinite 2)))
                                      (Some origin)) =
               Some (EARTH_RADIUS_KM * toRad 2))
    by (apply equator_distance; lra).
  destruct resting_distance_far as [_ Hfar].
  unfold simulationPath. cbn [time].
  replace (sampleNow + 30000 =? 0)%Z with false by reflexivity.
  replace (sampleNow + 30000 <=? sampleLater)%Z with false by reflexivity.
  unfold gatheredSamples. rewrite Hloop.
  unfold computeGroundPoint.
  replace (lateTrack sampleLater) with (@None GeoPoint) by reflexivity.
  cbn [stepSamples computeGroundPoint].
  replace (lateTrack (sampleLater + 15000)%Z) with (Some (mkGeo 0 2))
    by reflexivity.
  replace (lateTrack (sampleLater + 30000)%Z) with (Some (mkGeo 0 2))
    by reflexivity.
  cbn [lat lng]. rewrite Hd, Hfar.
  cbn [app length Nat.ltb Nat.leb last pt_time].
  replace (sampleLater + 30000 <? sampleNow + 30000)%Z with false
    by reflexivity.
  reflexivity.
Qed.

(** C4, as stated, fails on a model that has no position at the current
    time.  On [lateTrack] the predictor, run at [sampleNow], issues a
    prediction 30 s ahead; the path built for it 40 ms later, at
    [sampleLater], is not null, and its first sample is 15 s after
    [sampleLater], not at [sampleLater]. *)
Lemma simulationPath_late_track_starts_after_now :
  exists p first rest,
    nextPassPrediction (Some lateTrack) (Some origin)
                       PASS_THRESHOLD_DEFAULT_KM sampleNow = Some p /\
    (sampleLater < time p)%Z /\
    simulationPath (Some lateTrack) (Some origin) PASS_THRESHOLD_DEFAULT_KM
                   sampleLater (Some p) = Some (first :: rest) /\
    pt_time first = (sampleLater + 15000)%Z /\
    pt_time first <> sampleLater.
Proof.
  eexists _, _, _.
  split; [exact lateTrack_prediction |].
  split; [reflexivity |].
  split; [exact lateTrack_path |].
  cbn [pt_time]. split; [reflexivity | unfold sampleLater; lia].
Qed.

(** C4 (amended). A non-null simulation path is built only for a prediction
    with time > now; it has at least 2 samples and strictly increasing
    timestamps.  Its first sample is at the current time when the model has
    a position at the current time; otherwise it is at the first of the 15 s
    steps after now at which the model has a position.  Its last timestamp
    is at or after the predicted pass time when the model has a position at
    the pass time, which is the case for every prediction the predictor
    issues for the same model and target.  Without a prediction, with a
    prediction whose time is not after now, or with fewer than 2 samples
    gathered by the start sample and the stepping loop, the path is null. *)
Theorem simulationPath_shape_or_null {F : Float64}
        (m : OrbitalModel) (tp : GeoPoint) (thr : R) (now : Z) :
  (forall p path,
      simulationPath (Some m) (Some tp) thr now (Some p) = Some path ->
      (now < time p)%Z /\
      (2 <= length path)%nat /\
      StronglySorted Z.lt (map pt_time path) /\
      (exists first rest,
          path = first :: rest /\
          (m now <> None -> pt_time first = now) /\
          (m now = None ->
           exists l1 l2,
             loop_times (now + simStepMs) (time p + simStepMs) simStepMs =
             l1 ++ pt_time first :: l2 /\
             (forall u, In u l1 -> m u = None) /\
             m (pt_time first) <> None)) /\
      (m (time p) <> None ->
       (time p <= pt_time (last path (mkPoint 0 0 0 None)))%Z) /\
      (forall thr0 now0,
          nextPassPrediction (Some m) (Some tp) thr0 now0 = Some p ->
          (time p <= pt_time (last path (mkPoint 0 0 0 None)))%Z)) /\
  simulationPath (Some m) (Some tp) thr now None = None /\
  (forall p, (time p <= now)%Z ->
             simulationPath (Some m) (Some tp) thr now (Some p) = None) /\
  (forall p,
      (length (gatheredSamples (Some m) (Some tp) thr now (time p)) < 2)%nat ->
      simulationPath (Some m) (Some tp) thr now (Some p) = None).
Proof.
  split; [| split; [reflexivity | split]].
  - intros p path Hpath.
    assert (Hmain :
              (now < time p)%Z /\
              (2 <= length path)%nat /\
              StronglySorted Z.lt (map pt_time path) /\
              (exists first rest,
                  path = first :: rest /\
                  (m now <> None -> pt_time first = now) /\
                  (m now = None ->
                   exists l1 l2,
                     loop_times (now + simStepMs) (time p + simStepMs)
                                simStepMs =
                     l1 ++ pt_time first :: l2 /\
                     (forall u, In u l1 -> m u = None) /\
                     m (pt_time first) <> None)) /\
              (m (time p) <> None ->
               (time p <= pt_time (last path (mkPoint 0 0 0 None)))%Z)).
    { revert Hpath. unfold simulationPath.
      destruct (Z.eqb_spec (time p) 0) as [| Hnz]; [discriminate |].
      destruct (Z.leb_spec (time p) now) as [| Hgt]; [discriminate |].
      destruct (gatheredSamples_sorted (Some m) (Some tp) thr now (time p))
        as [Hsorted _].
      pose proof (gatheredSamples_first m tp thr now (time p)) as Hfirst.
      set (g := gatheredSamples (Some m) (Some tp) thr now (time p)) in *.
      destruct (Nat.ltb_spec (length g) 2) as [| Hlen]; [discriminate |].
      destruct g as [| first rest] eqn:Hg; [simpl in Hlen; lia |].
      specialize (Hfirst first rest eq_refl).
      rewrite <- Hg in *. clearbody g.
      cbn [computeGroundPoint].
      destruct (Z.ltb_spec (pt_time (last g (mkPoint 0 0 0 None))) (time p))
        as [Hlag | Hreach].
      - destruct (m (time p)) as [fp |] eqn:Hfp.
        + intros [= <-]. split; [assumption |].
          split; [rewrite length_app; simpl; lia |].
          split.
          { rewrite map_app. simpl. apply StronglySorted_snoc; [assumption |].
            intros y Hy.
            pose proof (StronglySorted_last_max _ 0%Z Hsorted y Hy) as Hmax.
            rewrite (last_map_time g (mkPoint 0 0 0 None)) in Hlag.
            simpl pt_time in Hlag. lia. }
          split.
          { exists first,
              (rest ++ [mkPoint (lat fp) (normalizeFinite (lng fp))
                                (time p) None]).
            split; [rewrite Hg; reflexivity | exact Hfirst]. }
          intros _. rewrite last_last. simpl. lia.
        + intros [= <-]. split; [assumption |]. split; [assumption |].
          split; [assumption |].
          split; [exists first, rest; split; [exact Hg | exact Hfirst] |].
          intros H. now elim H.
      - intros [= <-]. split; [assumption |]. split; [assumption |].
        split; [assumption |].
        split; [exists first, rest; split; [exact Hg | exact Hfirst] |].
        intros _. assumption. }
    destruct Hmain as (Hafter & Hlen & Hsorted & Hstart & Hend).
    split; [assumption |]. split; [assumption |]. split; [assumption |].
    split; [assumption |]. split; [assumption |].
    intros thr0 now0 Hp. apply Hend.
    exact (nextPassPrediction_has_ground_point m tp thr0 now0 p Hp).
  - intros p Hle. unfold simulationPath.
    destruct (Z.eqb_spec (time p) 0); [reflexivity |].
    destruct (Z.leb_spec (time p) now); [reflexivity | lia].
  - intros p Hlt. unfold simulationPath.
    destruct (Z.eqb_spec (time p) 0); [reflexivity |].
    destruct (Z.leb_spec (time p) now); [reflexivity |].
    destruct (Nat.ltb_spec
                (length (gatheredSamples (Some m) (Some tp) thr now (time p))) 2);
      [reflexivity | lia].
Qed.

(** Witness for C4: on [lateTrack], which has no position at
    [sampleLater], the path built for the predictor's own prediction starts
    at the first 15 s step and reaches past the predicted pass. *)
Lemma simulationPath_shape_or_null_witness :
  exists p path,
    nextPassPrediction (Some lateTrack) (Some origin)
                       PASS_THRESHOLD_DEFAULT_KM sampleNow = Some p /\
    simulationPath (Some lateTrack) (Some origin) PASS_THRESHOLD_DEFAULT_KM
                   sampleLater (Some p) = Some path /\
    map pt_time path = [sampleLater + 15000; sampleLater + 30000]%Z /\
    (sampleLater < time p)%Z /\
    (2 <= length path)%nat /\
    StronglySorted Z.lt (map pt_time path) /\
    (time p <= pt_time (last path (mkPoint 0 0 0 None)))%Z.
Proof.
  eexists _, _.
  split; [exact lateTrack_prediction |].
  split; [exact lateTrack_path |].
  split; [reflexivity |].
  destruct (simulationPath_shape_or_null
              lateTrack origin PASS_THRESHOLD_DEFAULT_KM sampleLater)
    as [Hshape _].
  destruct (Hshape _ _ lateTrack_path)
    as (Hafter & Hlen & Hsorted & _ & _ & Hissued).
  split; [exact Hafter |]. split; [exact Hlen |]. split; [exact Hsorted |].
  exact (Hissued _ _ lateTrack_prediction).
Defined.

(** ** Simulated position, progress and remaining time *)

Lemma sorted_times_around (l1 l2 : list PathPoint) (a : PathPoint) :
  StronglySorted Z.lt (map pt_time (l1 ++ a :: l2)) ->
  (forall x, In x l1 -> (pt_time x < pt_time a)%Z) /\
  (forall x, In x l2 -> (pt_time a < pt_time x)%Z).
Proof.
  rewrite map_app. simpl. intros Hs.
  destruct (StronglySorted_split _ _ _ Hs) as [H1 H2].
  split; intros x Hx; [apply H1 | apply H2]; now apply in_map.
Qed.

Lemma sorted_last_time (l : list PathPoint) (d x : PathPoint) :
  StronglySorted Z.lt (map pt_time l) -> In x l ->
  (pt_time x <= pt_time (last l d))%Z.
Proof.
  intros Hs Hx. rewrite last_map_time.
  apply StronglySorted_last_max; [assumption | now apply in_map].
Qed.

(** The loop finds the pair of consecutive samples around [t], or runs out
    when [t] is past the last sample. *)
Lemma interpolate_bracket (rest : list PathPoint) :
  forall (current : PathPoint) (t : R),
    StronglySorted Z.lt (map pt_time (current :: rest)) ->
    IZR (pt_time current) <= t ->
    (t <= IZR (pt_time (last rest current)) -> rest <> [] ->
     exists l1 a b l2,
       current :: rest = l1 ++ a :: b :: l2 /\
       IZR (pt_time a) <= t <= IZR (pt_time b) /\
       interpolate current rest t =
       Some (between a b ((t - IZR (pt_time a)) /
                          (IZR (pt_time b) - IZR (pt_time a))) t)) /\
    (IZR (pt_time (last rest current)) < t ->
     interpolate current rest t = None).
Proof.
  induction rest as [| next rest IH]; intros current t Hs Hcur.
  - split; [intros _ Hne; now elim Hne | reflexivity].
  - assert (Hs' : StronglySorted Z.lt (map pt_time (next :: rest))).
    { simpl in Hs. apply StronglySorted_inv in Hs. apply Hs. }
    assert (Hstep : IZR (pt_time current) < IZR (pt_time next)).
    { simpl in Hs. apply StronglySorted_inv in Hs. destruct Hs as [_ Hall].
      apply Forall_inv in Hall. now apply IZR_lt. }
    assert (Hlast : IZR (pt_time next) <= IZR (pt_time (last rest next))).
    { destruct rest as [| r rest']; [simpl; lra |].
      apply IZR_le.
      rewrite <- (last_cons_default next (r :: rest') next).
      apply sorted_last_time; [assumption | now left]. }
    rewrite (last_cons_default next rest current).
    cbn [interpolate].
    destruct (Rge_dec t (IZR (pt_time current))) as [_ | Hn]; [| lra].
    destruct (Rle_dec t (IZR (pt_time next))) as [Hle | Hgt].
    + split; [| lra].
      intros _ _. exists [], current, next, rest.
      split; [reflexivity |]. split; [lra |].
      destruct (Req_dec_T (IZR (pt_time next) - IZR (pt_time current)) 0);
        [lra | reflexivity].
    + destruct (IH next t Hs') as [Hin Hout]; [lra |].
      split; [| exact Hout].
      intros Ht _.
      destruct Hin as (l1 & a & b & l2 & Heq & Hab & Hres);
        [assumption | destruct rest; [simpl in Ht; lra | discriminate] |].
      exists (current :: l1), a, b, l2.
      split; [simpl; now rewrite Heq |]. split; assumption.
Qed.

(** X9. On a path with strictly increasing timestamps the simulated
    position is defined at every time: the first sample up to its time, the
    last sample after its time, and in between the linear interpolation of
    the two consecutive samples around the time, at the ratio the code
    computes, which lies between 0 and 1 (the formula read over the
    reals). *)
Theorem simulatedPosition_interpolates
        (first : PathPoint) (rest : list PathPoint) (t : R) :
  StronglySorted Z.lt (map pt_time (first :: rest)) ->
  exists r,
    simulatedPosition (Some (first :: rest)) (Some t) = Some r /\
    (t <= IZR (pt_time first) -> r = atSample first) /\
    (IZR (pt_time (last rest first)) < t -> r = atSample (last rest first)) /\
    (IZR (pt_time first) < t <= IZR (pt_time (last rest first)) ->
     exists l1 a b l2 ratio,
       first :: rest = l1 ++ a :: b :: l2 /\
       IZR (pt_time a) <= t <= IZR (pt_time b) /\
       0 <= ratio <= 1 /\
       ratio = (t - IZR (pt_time a)) / (IZR (pt_time b) - IZR (pt_time a)) /\
       r = between a b ratio t).
Proof.
  intros Hs.
  assert (Hlast_def : last (first :: rest) first = last rest first)
    by apply last_cons_default.
  assert (Hmax : forall s, In s (first :: rest) ->
                           IZR (pt_time s) <= IZR (pt_time (last rest first))).
  { intros s Hin. rewrite <- Hlast_def. apply IZR_le.
    now apply sorted_last_time. }
  unfold simulatedPosition.
  destruct (Rle_dec t (IZR (pt_time first))) as [Hle | Hgt].
  - eexists. split; [reflexivity |]. split; [reflexivity |].
    split; [intros Hlt; pose proof (Hmax first (or_introl eq_refl)); lra |].
    lra.
  - destruct (interpolate_bracket rest first t Hs) as [Hin Hout]; [lra |].
    destruct (Rle_dec t (IZR (pt_time (last rest first)))) as [Hmid | Hpast].
    + destruct Hin as (l1 & a & b & l2 & Heq & Hab & Hres);
        [assumption | destruct rest; [simpl in Hmid; lra | discriminate] |].
      rewrite Hres. eexists. split; [reflexivity |].
      assert (Hlt : IZR (pt_time a) < IZR (pt_time b)).
      { rewrite Heq in Hs.
        destruct (sorted_times_around l1 (b :: l2) a Hs) as [_ H].
        apply IZR_lt. apply H. now left. }
      split; [lra |]. split; [lra |].
      intros _. exists l1, a, b, l2. eexists.
      split; [exact Heq |]. split; [exact Hab |].
      split; [| split; reflexivity].
      split.
      * apply Rmult_le_pos; [lra |]. left. apply Rinv_0_lt_compat. lra.
      * apply Rmult_le_reg_r with (r := IZR (pt_time b) - IZR (pt_time a));
          [lra |].
        unfold Rdiv. rewrite Rmult_assoc, Rinv_l by lra. lra.
    + rewrite Hout by lra. rewrite Hlast_def.
      eexists. split; [reflexivity |]. split; [lra |].
      split; [reflexivity |]. lra.
Qed.

(** Witness for X9: half-way between the first two samples of
    [plainPath]. *)
Lemma simulatedPosition_interpolates_witness :
  StronglySorted Z.lt (map pt_time plainPath) /\
  exists r,
    simulatedPosition (Some plainPath) (Some 7500) = Some r /\
    sim_lat r = 0 /\ sim_lng r = 21 / 2.
Proof.
  assert (Hs : StronglySorted Z.lt (map pt_time plainPath)).
  { simpl. repeat constructor; lia. }
  split; [exact Hs |].
  destruct (simulatedPosition_interpolates
              (mkPoint 0 10 0 None)
              [mkPoint 0 11 15000 None; mkPoint 0 12 30000 None] 7500 Hs)
    as (r & Hr & _ & _ & Hmid).
  exists r. split; [exact Hr |].
  destruct Hmid as (l1 & a & b & l2 & ratio & Heq & Hab & _ & Hratio & ->);
    [simpl; lra |].
  destruct l1 as [| x [| y l1]]; cbn [app] in Heq.
  - injection Heq as <- <- _. subst ratio. simpl. split; lra.
  - injection Heq as _ <- _. simpl in Hab. lra.
  - apply (f_equal (@length PathPoint)) in Heq.
    cbn [length] in Heq. rewrite length_app in Heq. cbn [length] in Heq. lia.
Defined.

Lemma simProgress_range (simulationPath : option (list PathPoint))
      (simTimeMs : option R) :
  0 <= simProgress simulationPath simTimeMs <= 1.
Proof.
  unfold simProgress.
  destruct simulationPath as [[| p0 rest] |]; try lra.
  destruct simTimeMs as [t |]; try lra.
  destruct (Rle_dec _ 0); [lra |].
  unfold Rmin, Rmax.
  repeat match goal with
         | |- context [Rle_dec ?a ?b] => destruct (Rle_dec a b)
         end; lra.
Qed.

(** X10. The progress ratio always lies in [0, 1] and the remaining
    simulated time is never negative; while the clock is between the first
    and the last timestamp of a path of positive duration, progress times
    the duration is the time elapsed, so elapsed and remaining time add up
    to the duration; without a path or without a clock progress is 0 and
    the remaining time is null. *)
Theorem simProgress_and_simEtaMs_consistent :
  (forall path t, 0 <= simProgress path t <= 1) /\
  (forall path t e, simEtaMs path t = Some e -> 0 <= e) /\
  (forall p0 rest t,
      firstTime (p0 :: rest) < lastTime (p0 :: rest) ->
      firstTime (p0 :: rest) <= t <= lastTime (p0 :: rest) ->
      simProgress (Some (p0 :: rest)) (Some t) *
      (lastTime (p0 :: rest) - firstTime (p0 :: rest)) =
      t - firstTime (p0 :: rest) /\
      simEtaMs (Some (p0 :: rest)) (Some t) =
      Some (lastTime (p0 :: rest) - t)) /\
  (forall path t,
      path = None \/ path = Some [] \/ t = None ->
      simProgress path t = 0 /\ simEtaMs path t = None).
Proof.
  split; [exact simProgress_range |].
  split.
  { intros path t e. unfold simEtaMs.
    destruct path as [[| p0 rest] |]; try discriminate.
    destruct t as [t |]; try discriminate.
    intros [= <-]. unfold Rmax. destruct (Rle_dec _ _); lra. }
  split.
  { intros p0 rest t Hdur Ht. unfold simProgress, simEtaMs.
    set (f := firstTime (p0 :: rest)) in *.
    set (l := lastTime (p0 :: rest)) in *.
    destruct (Rle_dec (l - f) 0); [lra |].
    assert (Hq : 0 <= (t - f) / (l - f) <= 1).
    { split.
      - apply Rmult_le_pos; [lra |]. left. apply Rinv_0_lt_compat. lra.
      - apply Rmult_le_reg_r with (r := l - f); [lra |].
        unfold Rdiv. rewrite Rmult_assoc, Rinv_l by lra. lra. }
    split.
    - unfold Rmin, Rmax.
      destruct (Rle_dec 0 ((t - f) / (l - f))) as [H0 | H0]; [| lra].
      destruct (Rle_dec 1 ((t - f) / (l - f))) as [H1 | H1].
      + assert (Heq : (t - f) / (l - f) = 1) by lra.
        assert (Hmul : (t - f) / (l - f) * (l - f) = t - f) by (field; lra).
        rewrite Heq in Hmul. lra.
      + field. lra.
    - f_equal. unfold Rmax. destruct (Rle_dec (l - t) 0); lra. }
  intros path t [-> | [-> | ->]]; try (split; reflexivity).
  destruct path as [[| p0 rest] |]; split; reflexivity.
Qed.

(** ** Playback on a fresh path *)

(** The outcome of one run of the animation loop. *)
Lemma playFrames_outcome (path : list PathPoint) (clock : option R) (m : R)
      (t0 : R) (ts : list R) :
  path <> [] -> 0 <= m -> StronglySorted Rle (t0 :: ts) ->
  let base := match clock with Some c => c | None => firstTime path end in
  let target := base + (last ts t0 - t0) * (SIM_TIME_SCALE * m) in
  playFrames (Some path) (mkPlayback true clock m) (t0 :: ts) =
  if Rge_dec target (lastTime path)
  then mkPlayback false (Some (lastTime path)) m
  else mkPlayback true (Some target) m.
Proof.
  intros Hne Hm Hs. cbv zeta.
  set (base := match clock with Some c => c | None => firstTime path end).
  set (sf := SIM_TIME_SCALE * m).
  assert (Hsf : 0 <= sf) by (unfold sf, SIM_TIME_SCALE; nra).
  pose proof (StronglySorted_Rle_last _ _ Hs) as Hlast.
  unfold playFrames. destruct path as [| p0 rest]; [contradiction |].
  cbn [isSimPlaying simSpeedMultiplier fold_left]. fold sf.
  unfold step at 2. cbn [running negb previous simTimeMs isSimPlaying
                         simSpeedMultiplier].
  fold base. replace (base + (t0 - t0) * sf) with base by ring.
  destruct (Rge_dec base (lastTime (p0 :: rest))) as [Hend | Hgo].
  - rewrite step_stopped. cbn [snd].
    destruct (Rge_dec (base + (last ts t0 - t0) * sf)
                      (lastTime (p0 :: rest))) as [| Hn]; [reflexivity |].
    exfalso. apply Hn. nra.
  - apply step_running; [assumption | lra | assumption].
Qed.

Lemma sorted_first_le_last (path : list PathPoint) :
  StronglySorted Z.lt (map pt_time path) -> firstTime path <= lastTime path.
Proof.
  intros Hs. unfold firstTime, lastTime. apply IZR_le.
  destruct path as [| p0 rest]; [simpl; lia |].
  cbn [hd]. apply sorted_last_time; [assumption | now left].
Qed.

(** X11. After a fresh path has reset the playback and play has been
    pressed, any run of the animation loop leaves the clock between the
    first and the last timestamp of the path; playback has stopped exactly
    when the clock stands on the last timestamp, and then the remaining
    simulated time is 0 and, on a path of positive duration, the progress
    is 1. *)
Theorem playback_from_fresh_path_stays_on_path
        (path : list PathPoint) (pb : PlaybackState) (t0 : R) (ts : list R) :
  path <> [] ->
  StronglySorted Z.lt (map pt_time path) ->
  0 <= simSpeedMultiplier pb ->
  StronglySorted Rle (t0 :: ts) ->
  let started :=
    handleSimPlayPause (Some path) (onSimulationPath (Some path) pb) in
  let after := playFrames (Some path) started (t0 :: ts) in
  exists c,
    simTimeMs after = Some c /\
    firstTime path <= c <= lastTime path /\
    (isSimPlaying after = false <-> c = lastTime path) /\
    (isSimPlaying after = false ->
     simEtaMs (Some path) (Some c) = Some 0 /\
     (firstTime path < lastTime path ->
      simProgress (Some path) (Some c) = 1)).
Proof.
  intros Hne Hsorted Hm Hs. cbv zeta.
  pose proof (sorted_first_le_last path Hsorted) as Hfl.
  destruct path as [| p0 rest]; [contradiction |].
  set (path := p0 :: rest) in *.
  assert (Hstarted :
            handleSimPlayPause (Some path) (onSimulationPath (Some path) pb) =
            mkPlayback true (Some (firstTime path)) (simSpeedMultiplier pb))
    by reflexivity.
  rewrite Hstarted.
  rewrite (playFrames_outcome path (Some (firstTime path))
                              (simSpeedMultiplier pb) t0 ts Hne Hm Hs).
  pose proof (StronglySorted_Rle_last _ _ Hs) as Hlast.
  set (target := firstTime path +
                 (last ts t0 - t0) * (SIM_TIME_SCALE * simSpeedMultiplier pb)).
  assert (Hadv : firstTime path <= target).
  { unfold target, SIM_TIME_SCALE. nra. }
  destruct (Rge_dec target (lastTime path)) as [Hend | Hgo];
    cbn [simTimeMs isSimPlaying].
  - exists (lastTime path). split; [reflexivity |]. split; [lra |].
    split; [split; reflexivity |].
    intros _. split.
    + unfold simEtaMs, path. fold path. f_equal. unfold Rmax.
      destruct (Rle_dec _ _); lra.
    + intros Hdur. unfold simProgress, path. fold path.
      destruct (Rle_dec (lastTime path - firstTime path) 0); [lra |].
      replace ((lastTime path - firstTime path) /
               (lastTime path - firstTime path)) with 1 by (field; lra).
      unfold Rmin, Rmax.
      repeat match goal with
             | |- context [Rle_dec ?a ?b] => destruct (Rle_dec a b)
             end; lra.
  - exists target. split; [reflexivity |]. split; [lra |].
    split; [split; [discriminate | lra] | discriminate].
Qed.

(** Witness for X11: three frames on [plainPath] at multiplier 1. *)
Lemma playback_from_fresh_path_stays_on_path_witness :
  exists c,
    simTimeMs (playFrames (Some plainPath)
                 (handleSimPlayPause (Some plainPath)
                    (onSimulationPath (Some plainPath)
                                      (mkPlayback false None 1)))
                 [1000; 1016; 1033]) = Some c /\
    0 <= c <= 30000.
Proof.
  destruct (playback_from_fresh_path_stays_on_path
              plainPath (mkPlayback false None 1) 1000 [1016; 1033])
    as (c & Hc & Hrange & _).
  - discriminate.
  - simpl. repeat constructor; lia.
  - simpl. lra.
  - repeat constructor; lra.
  - exists c. split; [exact Hc |].
    unfold firstTime, lastTime, plainPath in Hrange.
    cbn [hd last pt_time] in Hrange. exact Hrange.
Defined.

(** ** Simulation path: order *)

Lemma simulationPath_sorted {F : Float64}
      (m : OrbitalModel) (tp : GeoPoint) (thr : R)
      (now : Z) (p : PassPrediction) (path : list PathPoint) :
  simulationPath (Some m) (Some tp) thr now (Some p) = Some path ->
  path <> [] /\ StronglySorted Z.lt (map pt_time path).
Proof.
  unfold simulationPath.
  destruct (Z.eqb_spec (time p) 0) as [| Hnz]; [discriminate |].
  destruct (Z.leb_spec (time p) now) as [| Hgt]; [discriminate |].
  destruct (gatheredSamples_sorted (Some m) (Some tp) thr now (time p))
    as [Hsorted _].
  set (g := gatheredSamples (Some m) (Some tp) thr now (time p)) in *.
  destruct (Nat.ltb_spec (length g) 2) as [| Hlen]; [discriminate |].
  assert (Hg : g <> []) by (destruct g; [simpl in Hlen; lia | discriminate]).
  destruct (Z.ltb_spec (pt_time (last g (mkPoint 0 0 0 None))) (time p))
    as [Hlag | Hreach].
  - destruct (computeGroundPoint (Some m) (time p)) as [fp |];
      intros [= <-]; [| split; assumption].
    split; [destruct g; discriminate |].
    rewrite map_app. simpl. apply StronglySorted_snoc; [assumption |].
    intros y Hy.
    pose proof (StronglySorted_last_max _ 0%Z Hsorted y Hy) as Hmax.
    rewrite (last_map_time g (mkPoint 0 0 0 None)) in Hlag.
    simpl pt_time in Hlag. lia.
  - intros [= <-]. split; assumption.
Qed.

(** ** Pass predictor: the remaining branches *)

Section PredictorBranches.

Context {F : Float64}.
Variable m : OrbitalModel.
Variable tp : GeoPoint.
Variable thr : R.
Variable now : Z.

Let ev := groundDistance (Some m) (Some tp).
Let coarse := loop_times now (lookaheadEnd now) coarseStepMs.

Lemma all_false_or_some {A : Type} (p : A -> bool) (l : list A) :
  (exists x, In x l /\ p x = true) \/ (forall x, In x l -> p x = false).
Proof.
  destruct (existsb p l) eqn:Hex.
  - left. now apply existsb_exists in Hex.
  - right. intros x Hx. destruct (p x) eqn:Hp; [| reflexivity].
    assert (Hsome : existsb p l = true) by (apply existsb_exists; eauto).
    congruence.
Qed.

(** Either the coarse scan stops at a first hit or it misses throughout. *)
Lemma coarse_hit_or_miss :
  (exists tc, FirstCoarseHit ev now tc) \/
  (forall t, In t coarse -> within (ev t) PASS_THRESHOLD_COARSE_KM = false).
Proof.
  destruct (all_false_or_some
              (fun t => within (ev t) PASS_THRESHOLD_COARSE_KM) coarse)
    as [Hex | Hmiss]; [left | now right].
  pose proof (loop_times_sorted now (lookaheadEnd now) _ coarseStepMs_pos)
    as Hsc. fold coarse in Hsc.
  destruct (first_split _ _ Hex) as (l1 & tc & l2 & Hsplit & Hhit & Hl1).
  exists tc. unfold FirstCoarseHit. fold coarse. rewrite Hsplit in Hsc |- *.
  destruct (StronglySorted_split _ _ _ Hsc) as [Hlt Hgt].
  split; [apply in_or_app; right; now left |]. split; [assumption |].
  intros u Hu Hutc. apply in_app_or in Hu.
  destruct Hu as [Hu | [<- | Hu]]; [now apply Hl1 | lia |].
  pose proof (Hgt u Hu). lia.
Qed.

(** After a first coarse hit at [tc] the prediction is decided by the
    refine scan of the range around [tc]. *)
Lemma nextPassPrediction_at_first_hit (tc : Z) :
  FirstCoarseHit ev now tc ->
  exists b' seen,
    BestOf ev seen b' /\
    nextPassPrediction (Some m) (Some tp) thr now =
    match refineScan (Some m) (Some tp) thr (refineTimes now tc)
                     b' (mkBest PInf None) with
    | inl prediction => Some prediction
    | inr (best1, bestRefined) =>
        match truthyTime (best_time bestRefined) with
        | Some t =>
            Some (mkPrediction t (best_distance bestRefined)
                    (num_le (best_distance bestRefined) (Fin thr)))
        | None => fallbackPrediction best1
        end
    end.
Proof.
  intros (Hin & Hhit & Hbefore). fold coarse in Hin, Hbefore.
  pose proof (loop_times_sorted now (lookaheadEnd now) _ coarseStepMs_pos)
    as Hsc. fold coarse in Hsc.
  destruct (in_split _ _ Hin) as (l1 & l2 & Hsplit).
  rewrite Hsplit in Hsc, Hbefore.
  destruct (StronglySorted_split _ _ _ Hsc) as [Hlt _].
  assert (Hmiss : forall t, In t l1 ->
                            within (ev t) PASS_THRESHOLD_COARSE_KM = false).
  { intros t Ht. apply Hbefore; [| now apply Hlt].
    apply in_or_app. now left. }
  destruct (coarseScan_hit m tp now l1 l2 [] tc (mkBest PInf None)
                           Hmiss Hhit (BestOf_nil m tp))
    as (b' & Hscan & Hb').
  exists b', ([] ++ l1 ++ [tc]). split; [exact Hb' |].
  unfold nextPassPrediction. fold coarse. rewrite Hsplit, Hscan.
  reflexivity.
Qed.

(** The refine range holds no sample within the configured threshold: the
    prediction is the closest sample of that range, flagged as a miss. *)
Lemma nextPassPrediction_refine_miss (tc : Z) :
  (0 < now)%Z ->
  FirstCoarseHit ev now tc ->
  (forall t, In t (refineTimes now tc) -> within (ev t) thr = false) ->
  exists t d,
    nextPassPrediction (Some m) (Some tp) thr now =
    Some (mkPrediction t (Fin d) false) /\
    EarliestClosest ev (refineTimes now tc) t d.
Proof.
  intros Hnow Hfirst Hfmiss.
  destruct (nextPassPrediction_at_first_hit tc Hfirst)
    as (b' & seen & Hb' & ->).
  destruct (refineScan_miss m tp thr (refineTimes now tc) seen [] b'
                            (mkBest PInf None) Hfmiss Hb' (BestOf_nil m tp))
    as (b1 & br & -> & _ & Hbr).
  simpl app in Hbr.
  assert (Hinfine : In tc (refineTimes now tc))
    by (apply coarse_hit_in_refineTimes; apply Hfirst).
  destruct Hbr as [[_ Hnone] | (t & d & -> & Hec)].
  - exfalso. destruct Hfirst as (_ & Hhit & _).
    unfold within in Hhit. fold ev in Hnone.
    rewrite (Hnone tc Hinfine) in Hhit. discriminate.
  - exists t, d. split; [| exact Hec].
    destruct (EarliestClosest_In m tp _ _ _ Hec) as [Hint Hevt].
    assert (Htpos : (0 < t)%Z).
    { apply refineTimes_bounds in Hint. lia. }
    cbn [best_time best_distance].
    rewrite truthyTime_pos by assumption.
    pose proof (Hfmiss t Hint) as Hw. fold ev in Hevt.
    rewrite Hevt in Hw. unfold within in Hw. unfold num_le.
    destruct (Rle_dec d thr); [discriminate | reflexivity].
Qed.

(** The refine range holds a sample within the configured threshold: the
    prediction is flagged as a hit. *)
Lemma nextPassPrediction_refine_hit (tc : Z) :
  FirstCoarseHit ev now tc ->
  (exists t, In t (refineTimes now tc) /\ within (ev t) thr = true) ->
  exists tq dq,
    nextPassPrediction (Some m) (Some tp) thr now =
    Some (mkPrediction tq (Fin dq) true).
Proof.
  intros Hfirst Hfine.
  destruct (nextPassPrediction_at_first_hit tc Hfirst)
    as (b' & seen & _ & ->).
  destruct (first_split (fun t => within (ev t) thr) _ Hfine)
    as (f1 & tq & f2 & Hsplit & Hq & Hf1).
  unfold within in Hq. destruct (ev tq) as [dq |] eqn:Hev; [| discriminate].
  destruct (Rle_dec dq thr) as [Hle |]; [| discriminate].
  exists tq, dq. rewrite Hsplit.
  now rewrite (refineScan_hit m tp thr f1 f2 tq dq b' (mkBest PInf None)
                              Hf1 Hev Hle).
Qed.

End PredictorBranches.

(** X13. When the coarse scan first comes within its threshold at [tc] but
    the one-second scan of the window around [tc] meets no sample within
    the configured threshold, the prediction is the closest sample of that
    window (the earliest one at the minimum distance) with thresholdHit =
    false; it is farther than the configured threshold and no farther than
    the coarse sample that opened the window, hence within 75 km. *)
Theorem refine_miss_returns_closest_refined {F : Float64}
        (m : OrbitalModel) (tp : GeoPoint) (thr : R) (now tc : Z) :
  (0 < now)%Z ->
  FirstCoarseHit (groundDistance (Some m) (Some tp)) now tc ->
  (forall t, In t (refineTimes now tc) ->
             within (groundDistance (Some m) (Some tp) t) thr = false) ->
  exists t d,
    nextPassPrediction (Some m) (Some tp) thr now =
    Some (mkPrediction t (Fin d) false) /\
    EarliestClosest (groundDistance (Some m) (Some tp))
                    (refineTimes now tc) t d /\
    thr < d /\ d <= PASS_THRESHOLD_COARSE_KM /\
    (forall dc, groundDistance (Some m) (Some tp) tc = Some dc -> d <= dc).
Proof.
  intros Hnow Hfirst Hfmiss.
  destruct (nextPassPrediction_refine_miss m tp thr now tc Hnow Hfirst Hfmiss)
    as (t & d & Hp & Hec).
  exists t, d. split; [exact Hp |]. split; [exact Hec |].
  destruct (EarliestClosest_In m tp _ _ _ Hec) as [Hint Hevt].
  assert (Hinfine : In tc (refineTimes now tc))
    by (apply coarse_hit_in_refineTimes; apply Hfirst).
  assert (Hdc : forall dc, groundDistance (Some m) (Some tp) tc = Some dc ->
                           d <= dc).
  { intros dc Hc. exact (EarliestClosest_all m tp _ _ _ Hec tc dc Hinfine Hc). }
  split.
  - pose proof (Hfmiss t Hint) as Hw. rewrite Hevt in Hw.
    unfold within in Hw. destruct (Rle_dec d thr); [discriminate | lra].
  - split; [| exact Hdc].
    destruct Hfirst as (_ & Hhit & _). unfold within in Hhit.
    destruct (groundDistance (Some m) (Some tp) tc) as [dc |] eqn:Hc;
      [| discriminate].
    destruct (Rle_dec dc PASS_THRESHOLD_COARSE_KM); [| discriminate].
    pose proof (Hdc dc eq_refl). lra.
Qed.

(** Witness for X13: a track resting half a degree east of the target,
    about 56 km away, with the default threshold of 5 km. *)
Lemma refine_miss_returns_closest_refined_witness :
  exists t d,
    nextPassPrediction (Some (equatorTrack (fun _ => 1 / 2))) (Some origin)
                       PASS_THRESHOLD_DEFAULT_KM sampleNow =
    Some (mkPrediction t (Fin d) false) /\
    PASS_THRESHOLD_DEFAULT_KM < d /\ d <= PASS_THRESHOLD_COARSE_KM.
Proof.
  assert (Hev : forall t,
             groundDistance (Some (equatorTrack (fun _ => 1 / 2)))
                            (Some origin) t =
             Some (EARTH_RADIUS_KM * toRad (1 / 2))).
  { intros t. apply (groundDistance_equator (fun _ => 1 / 2) t). lra. }
  destruct (equator_km_bounds (1 / 2)) as [Hlo Hhi]; [lra |].
  destruct (refine_miss_returns_closest_refined
              (equatorTrack (fun _ => 1 / 2)) origin
              PASS_THRESHOLD_DEFAULT_KM sampleNow sampleNow)
    as (t & d & Hp & _ & Hfar & Hnear & _).
  - reflexivity.
  - split; [rewrite now_in_coarse; now left |]. split.
    + rewrite Hev. apply within_true_le.
      unfold PASS_THRESHOLD_COARSE_KM, EARTH_RADIUS_KM in *. lra.
    + intros u Hu Hlt. apply loop_times_lower in Hu;
        [lia | exact coarseStepMs_pos].
  - intros t _. rewrite Hev. apply within_false_gt.
    unfold PASS_THRESHOLD_DEFAULT_KM, EARTH_RADIUS_KM in *. lra.
  - exists t, d. repeat split; assumption.
Defined.

(** A sample has no usable distance when the model gives no ground point
    there or the distance computed is NaN. *)
Lemma groundDistance_None {F : Float64} (m : OrbitalModel) (tp : GeoPoint)
      (t : Z) :
  groundDistance (Some m) (Some tp) t = None <->
  computeGroundPoint (Some m) t = None \/
  exists gp,
    computeGroundPoint (Some m) t = Some gp /\
    haversineDistanceKm (Some (mkGeo (lat gp) (normalizeFinite (lng gp))))
                        (Some tp) = Some NaN.
Proof.
  unfold groundDistance.
  destruct (computeGroundPoint (Some m) t) as [gp |]; [| tauto].
  destruct (haversine_cases (mkGeo (lat gp) (normalizeFinite (lng gp))) tp)
    as [[Hnan _] | (d & Hd & _)].
  - rewrite Hnan. split; [intros _; right; now exists gp | reflexivity].
  - rewrite Hd. split; [discriminate |].
    intros [Hnone | (gp' & [= <-] & Hnan)]; [discriminate |].
    rewrite Hd in Hnan. discriminate.
Qed.

(** X14. For a reading of the clock after the epoch, the prediction is null
    exactly when no coarse sample of the 24 h lookahead has a distance that
    is a number: at each of them the orbital model yields no ground point,
    or the distance computed is NaN.  In particular one coarse sample with
    a distance that is a number is enough for a prediction. *)
Theorem nextPassPrediction_null_iff_no_sample {F : Float64}
        (m : OrbitalModel) (tp : GeoPoint) (thr : R) (now : Z) :
  (0 < now)%Z ->
  nextPassPrediction (Some m) (Some tp) thr now = None <->
  (forall t,
      In t (loop_times now (lookaheadEnd now) coarseStepMs) ->
      computeGroundPoint (Some m) t = None \/
      exists gp,
        computeGroundPoint (Some m) t = Some gp /\
        haversineDistanceKm (Some (mkGeo (lat gp) (normalizeFinite (lng gp))))
                            (Some tp) = Some NaN).
Proof.
  intros Hnow.
  set (ev := groundDistance (Some m) (Some tp)).
  set (coarse := loop_times now (lookaheadEnd now) coarseStepMs).
  pose proof (groundDistance_None m tp) as Hnone. fold ev in Hnone.
  destruct (coarse_hit_or_miss m tp now) as [[tc Hfirst] | Hmiss].
  - (* a coarse hit: some prediction, and a sample at [tc] *)
    assert (Hsome : exists p,
               nextPassPrediction (Some m) (Some tp) thr now = Some p).
    { destruct (all_false_or_some
                  (fun t => within (ev t) thr) (refineTimes now tc))
        as [Hfine | Hfmiss].
      - destruct (nextPassPrediction_refine_hit m tp thr now tc Hfirst Hfine)
          as (tq & dq & ->). eauto.
      - destruct (nextPassPrediction_refine_miss m tp thr now tc
                                                 Hnow Hfirst Hfmiss)
          as (t & d & -> & _). eauto. }
    destruct Hsome as (p & ->). split; [discriminate |].
    intros Hall. exfalso. destruct Hfirst as (Hin & Hhit & _).
    apply Hall in Hin. apply Hnone in Hin. fold ev in Hhit.
    rewrite Hin in Hhit. discriminate.
  - destruct (nextPassPrediction_miss m tp thr now Hmiss)
      as (best & -> & Hb).
    fold ev coarse in Hb.
    destruct Hb as [[-> Hall] | (t & d & -> & Hec)].
    + split; [| reflexivity].
      intros _ t Ht. apply Hnone. now apply Hall.
    + destruct (EarliestClosest_In m tp _ _ _ Hec) as [Hin Hev].
      unfold fallbackPrediction. cbn [best_time best_distance].
      rewrite truthyTime_pos.
      * split; [discriminate |]. intros Hall. exfalso.
        apply Hall in Hin. apply Hnone in Hin. fold ev in Hev. congruence.
      * apply loop_times_lower in Hin; [lia | exact coarseStepMs_pos].
Qed.

(** Witness for X14: the track known only during the 30 s after
    [sampleNow] has a coarse sample with a distance, so it is predicted. *)
Lemma nextPassPrediction_null_iff_no_sample_witness :
  exists p,
    nextPassPrediction (Some gapTrack) (Some origin)
                       PASS_THRESHOLD_DEFAULT_KM sampleNow = Some p.
Proof.
  destruct (nextPassPrediction (Some gapTrack) (Some origin)
                               PASS_THRESHOLD_DEFAULT_KM sampleNow)
    as [p |] eqn:Hnull; [now exists p | exfalso].
  assert (Hnow : (0 < sampleNow)%Z) by reflexivity.
  pose proof (proj1 (nextPassPrediction_null_iff_no_sample
                       gapTrack origin PASS_THRESHOLD_DEFAULT_KM sampleNow
                       Hnow) Hnull (sampleNow + 30000)%Z) as Hall.
  assert (Hin : In (sampleNow + 30000)%Z
                   (loop_times sampleNow (lookaheadEnd sampleNow)
                               coarseStepMs)).
  { apply loop_times_In; [exact coarseStepMs_pos |].
    exists 1%Z. unfold coarseStepMs, lookaheadEnd, PASS_COARSE_STEP_SECONDS,
                  PASS_LOOKAHEAD_MINUTES, sampleNow. repeat split; lia. }
  destruct (Hall Hin) as [Hnone | (gp & Hgp & Hnan)]; [discriminate Hnone |].
  injection Hgp as <-. cbn [lat lng] in Hnan.
  rewrite normalizeFinite_fixed in Hnan by lra.
  unfold origin in Hnan. rewrite haversine_equator in Hnan by lra.
  discriminate Hnan.
Defined.

(** X15. With a configured threshold no looser than the coarse one (the
    default 5 km, and every slider value up to 75 km) and a reading of the
    clock after the epoch, thresholdHit says exactly whether the search met
    a sample within the configured threshold: when set, the reported sample
    is such a sample; when clear, every sample the search evaluated is
    farther than the threshold. *)
Theorem thresholdHit_exact_up_to_coarse_threshold {F : Float64}
        (m : OrbitalModel) (tp : GeoPoint) (thr : R) (now : Z)
        (p : PassPrediction) :
  (0 < now)%Z ->
  thr <= PASS_THRESHOLD_COARSE_KM ->
  nextPassPrediction (Some m) (Some tp) thr now = Some p ->
  (thresholdHit p = true ->
   exists d, distance p = Fin d /\
             groundDistance (Some m) (Some tp) (time p) = Some d /\
             d <= thr /\
             Evaluated (groundDistance (Some m) (Some tp)) now (time p)) /\
  (thresholdHit p = false ->
   forall t, Evaluated (groundDistance (Some m) (Some tp)) now t ->
             within (groundDistance (Some m) (Some tp) t) thr = false).
Proof.
  intros Hnow Hthr Hp.
  exact (thresholdHit_exact_under_coarse m tp thr now p Hnow Hthr Hp).
Qed.

(** Witness for X15: the resting track two degrees east, at the default
    threshold; the flag is clear and the first sample is indeed farther. *)
Lemma thresholdHit_exact_up_to_coarse_threshold_witness :
  within (groundDistance (Some (equatorTrack (fun _ => 2))) (Some origin)
                         sampleNow)
         PASS_THRESHOLD_DEFAULT_KM = false.
Proof.
  assert (Hfar : PASS_THRESHOLD_COARSE_KM < EARTH_RADIUS_KM * toRad 2).
  { destruct (equator_km_bounds 2) as [Hlo _]; [lra |].
    unfold PASS_THRESHOLD_COARSE_KM, EARTH_RADIUS_KM in *. lra. }
  assert (Hmiss : forall t,
             within (groundDistance (Some (equatorTrack (fun _ => 2)))
                                    (Some origin) t)
                    PASS_THRESHOLD_COARSE_KM = false).
  { intros t. rewrite (groundDistance_equator (fun _ => 2) t) by lra.
    now apply within_false_gt. }
  destruct (thresholdHit_exact_up_to_coarse_threshold
              (equatorTrack (fun _ => 2)) origin PASS_THRESHOLD_DEFAULT_KM
              sampleNow
              (mkPrediction sampleNow (Fin (EARTH_RADIUS_KM * toRad 2)) false))
    as [_ Hclear].
  - reflexivity.
  - unfold PASS_THRESHOLD_DEFAULT_KM, PASS_THRESHOLD_COARSE_KM. lra.
  - apply nextPassPrediction_constant_track; [reflexivity | lra | exact Hfar].
  - apply Hclear; [reflexivity |].
    left. split; [rewrite now_in_coarse; now left |].
    intros u _ _. apply Hmiss.
Defined.

(** ** The shared position and history *)

Lemma sliceLast_length {A : Type} (n : nat) (l : list A) :
  length (sliceLast n l) = Nat.min n (length l).
Proof. unfold sliceLast. rewrite length_skipn. lia. Qed.

Lemma sliceLast_short {A : Type} (n : nat) (l : list A) :
  (length l <= n)%nat -> sliceLast n l = l.
Proof.
  intros Hle. unfold sliceLast.
  replace (length l - n)%nat with 0%nat by lia. reflexivity.
Qed.

(** Slicing before appending more entries is absorbed by the later slice. *)
Lemma sliceLast_app_slice {A : Type} (n : nat) (l r : list A) :
  sliceLast n (sliceLast n l ++ r) = sliceLast n (l ++ r).
Proof.
  destruct (Nat.le_gt_cases (length l) n) as [Hle | Hgt].
  - now rewrite (sliceLast_short n l Hle).
  - unfold sliceLast. rewrite !length_app, length_skipn.
    set (k := (length l - n)%nat).
    replace (length l - k + length r - n)%nat with (length r) by lia.
    replace (length l + length r - n)%nat with (length r + k)%nat by lia.
    rewrite <- skipn_skipn, (skipn_app k l r).
    replace (k - length l)%nat with 0%nat by lia. reflexivity.
Qed.

Lemma computeIssState_timestamp (satrec : option OrbitalModel)
      (velocity : VelocityModel) (t : Z) (s : IssPosition) :
  computeIssState satrec velocity t = Some s -> iss_timestamp s = IZR t.
Proof.
  unfold computeIssState. destruct satrec as [propagate |]; [| discriminate].
  destruct (propagate t); [| discriminate].
  intros [= <-]. reflexivity.
Qed.

Lemma liveRun_snoc (satrec : option OrbitalModel) (velocity : VelocityModel)
      (init : list LiveEvent) (e : LiveEvent) (st : LiveState) :
  liveRun satrec velocity (init ++ [e]) st =
  liveStep satrec velocity (liveRun satrec velocity init st) e.
Proof. unfold liveRun. now rewrite fold_left_app. Qed.

Section SharedHistory.

Variable satrec : option OrbitalModel.
Variable velocity : VelocityModel.

(** A synthetic entry appended during [events], no sooner than 10 s after
    the reference instant [ref]. *)
Let fromTick (events : list LiveEvent) (ref : Z) (s : IssPosition) : Prop :=
  exists now,
    In (Tick now) events /\
    computeIssState satrec velocity now = Some s /\
    (ref + HISTORY_SAMPLE_INTERVAL_MS <= now)%Z.

Let spaced (a b : IssPosition) : Prop :=
  iss_timestamp a + 10000 <= iss_timestamp b.

(** What any interleaving of the two writers leaves in the history and in
    the reference instant. *)
Lemma liveRun_state (events : list LiveEvent) (st : LiveState) :
  (length (issHistory (live_telemetry st)) <= 120)%nat ->
  exists added : list (Writer * IssPosition),
    issHistory (live_telemetry (liveRun satrec velocity events st)) =
    sliceLast 120 (issHistory (live_telemetry st) ++ map snd added) /\
    entriesOf Telemetry added = storedPositions (pollsOf events) /\
    IZR (lastHistoryUpdateRef (liveRun satrec velocity events st)) =
    last (map iss_timestamp (entriesOf Synthetic added))
         (IZR (lastHistoryUpdateRef st)) /\
    StronglySorted spaced (entriesOf Synthetic added) /\
    Forall (fromTick events (lastHistoryUpdateRef st))
           (entriesOf Synthetic added).
Proof.
  revert st. induction events as [| e events IH]; intros st Hlen.
  - exists []. cbn [liveRun fold_left map entriesOf filter pollsOf flat_map
                    storedPositions last].
    rewrite app_nil_r.
    split; [symmetry; now apply sliceLast_short |].
    split; [reflexivity |]. split; [reflexivity |]. split; constructor.
  - change (liveRun satrec velocity (e :: events) st)
      with (liveRun satrec velocity events (liveStep satrec velocity st e)).
    assert (Hlater : forall (ref : Z) (l : list IssPosition),
               (lastHistoryUpdateRef st <= ref)%Z ->
               Forall (fromTick events ref) l ->
               Forall (fromTick (e :: events) (lastHistoryUpdateRef st)) l).
    { intros ref l Hle Hall. eapply Forall_impl; [| exact Hall].
      intros s (now & Hin & Hs & Hgap). exists now.
      split; [now right |]. split; [assumption | lia]. }
    destruct e as [o | now].
    + (* a round of [fetchIssData] *)
      cbn [liveStep].
      destruct (positionOf o) as [p |] eqn:Hp.
      * assert (Hst : fetchIssData false o (live_telemetry st) =
                      mkTelemetry (Some p)
                        (sliceLast 120 (issHistory (live_telemetry st) ++ [p]))
                        None).
        { destruct o; try discriminate. injection Hp as <-. reflexivity. }
        rewrite Hst.
        destruct (IH (mkLive (mkTelemetry (Some p)
                                (sliceLast 120
                                   (issHistory (live_telemetry st) ++ [p]))
                                None)
                             (lastHistoryUpdateRef st)))
          as (added & Hh & Hpolls & Hr & Hsorted & Hall).
        { cbn [live_telemetry issHistory]. rewrite sliceLast_length. lia. }
        cbn [live_telemetry issHistory lastHistoryUpdateRef] in Hh, Hr, Hall.
        exists ((Telemetry, p) :: added).
        split; [rewrite Hh, sliceLast_app_slice, <- app_assoc; reflexivity |].
        split.
        { change (entriesOf Telemetry ((Telemetry, p) :: added))
            with (p :: entriesOf Telemetry added).
          rewrite Hpolls. cbn [pollsOf flat_map app storedPositions].
          rewrite Hp. reflexivity. }
        change (entriesOf Synthetic ((Telemetry, p) :: added))
          with (entriesOf Synthetic added).
        split; [exact Hr |]. split; [exact Hsorted |].
        apply (Hlater (lastHistoryUpdateRef st)); [lia | exact Hall].
      * assert (Hst : issHistory (fetchIssData false o (live_telemetry st)) =
                      issHistory (live_telemetry st))
          by (destruct o; try discriminate; reflexivity).
        destruct (IH (mkLive (fetchIssData false o (live_telemetry st))
                             (lastHistoryUpdateRef st)))
          as (added & Hh & Hpolls & Hr & Hsorted & Hall).
        { cbn [live_telemetry]. now rewrite Hst. }
        cbn [live_telemetry lastHistoryUpdateRef] in Hh, Hr, Hall.
        rewrite Hst in Hh.
        exists added. split; [exact Hh |].
        split.
        { rewrite Hpolls. cbn [pollsOf flat_map app storedPositions].
          rewrite Hp. reflexivity. }
        split; [exact Hr |]. split; [exact Hsorted |].
        apply (Hlater (lastHistoryUpdateRef st)); [lia | exact Hall].
    + (* a call of [updateFromTle] *)
      cbn [liveStep]. unfold updateFromTle.
      destruct (computeIssState satrec velocity now) as [state |] eqn:Hstate.
      * pose proof (computeIssState_timestamp _ _ _ _ Hstate) as Hts.
        destruct (Z.geb_spec (now - lastHistoryUpdateRef st)
                             HISTORY_SAMPLE_INTERVAL_MS) as [Hdue | Hearly].
        -- destruct (IH (mkLive
                           (mkTelemetry (Some state)
                              (sliceLast 120
                                 (issHistory (live_telemetry st) ++ [state]))
                              (error (live_telemetry st)))
                           now))
             as (added & Hh & Hpolls & Hr & Hsorted & Hall).
           { cbn [live_telemetry issHistory]. rewrite sliceLast_length. lia. }
           cbn [live_telemetry issHistory lastHistoryUpdateRef] in Hh, Hr, Hall.
           exists ((Synthetic, state) :: added).
           split; [rewrite Hh, sliceLast_app_slice, <- app_assoc;
                   reflexivity |].
           change (entriesOf Telemetry ((Synthetic, state) :: added))
             with (entriesOf Telemetry added).
           change (entriesOf Synthetic ((Synthetic, state) :: added))
             with (state :: entriesOf Synthetic added).
           split; [exact Hpolls |].
           split; [rewrite Hr; cbn [map]; rewrite Hts; symmetry;
                   apply last_cons_default |].
           split.
           ++ constructor; [assumption |].
              eapply Forall_impl; [| exact Hall].
              intros s (now' & _ & Hs & Hgap). unfold spaced.
              rewrite Hts, (computeIssState_timestamp _ _ _ _ Hs).
              unfold HISTORY_SAMPLE_INTERVAL_MS in Hgap.
              apply IZR_le in Hgap. rewrite plus_IZR in Hgap. exact Hgap.
           ++ constructor.
              ** exists now. split; [now left |].
                 split; [assumption | lia].
              ** apply (Hlater now); [| exact Hall].
                 unfold HISTORY_SAMPLE_INTERVAL_MS in Hdue. lia.
        -- destruct (IH (mkLive
                           (mkTelemetry (Some state)
                              (issHistory (live_telemetry st))
                              (error (live_telemetry st)))
                           (lastHistoryUpdateRef st)) Hlen)
             as (added & Hh & Hpolls & Hr & Hsorted & Hall).
           cbn [live_telemetry issHistory lastHistoryUpdateRef] in Hh, Hr, Hall.
           exists added. split; [exact Hh |]. split; [exact Hpolls |].
           split; [exact Hr |]. split; [exact Hsorted |].
           apply (Hlater (lastHistoryUpdateRef st)); [lia | exact Hall].
      * destruct (IH st Hlen) as (added & Hh & Hpolls & Hr & Hsorted & Hall).
        exists added. split; [exact Hh |]. split; [exact Hpolls |].
        split; [exact Hr |]. split; [exact Hsorted |].
        apply (Hlater (lastHistoryUpdateRef st)); [lia | exact Hall].
Qed.

(** What the last event leaves in the current position and in the error. *)
Lemma liveStep_position_error (st : LiveState) (e : LiveEvent) :
  issPosition (live_telemetry (liveStep satrec velocity st e)) =
  match writtenPosition satrec velocity e with
  | Some p => Some p
  | None => issPosition (live_telemetry st)
  end /\
  match e with
  | Poll o =>
      error (live_telemetry (liveStep satrec velocity st e)) = None <->
      positionOf o <> None
  | Tick _ =>
      error (live_telemetry (liveStep satrec velocity st e)) =
      error (live_telemetry st)
  end.
Proof.
  destruct e as [o | now]; cbn [liveStep writtenPosition].
  - destruct o; cbn [fetchIssData positionOf live_telemetry issPosition error];
      (split; [reflexivity | split; intros H; congruence]).
  - unfold updateFromTle.
    destruct (computeIssState satrec velocity now) as [state |];
      [| split; reflexivity].
    destruct (now - lastHistoryUpdateRef st >=? HISTORY_SAMPLE_INTERVAL_MS)%Z;
      split; reflexivity.
Qed.

End SharedHistory.

(** X16. Over any interleaving of telemetry rounds and synthetic updates,
    starting from a history of at most 120 entries: the history is the last
    120 entries of the old history followed by the entries appended, in
    order, so it never exceeds 120 entries; the entries appended by the
    telemetry are the positions of all its successful rounds, in order;
    the current position is the one the last event wrote, if it wrote one;
    the error is cleared by a round exactly when it succeeds, and is never
    touched by a synthetic update. *)
Theorem liveRun_history_keeps_last_120
        (satrec : option OrbitalModel) (velocity : VelocityModel)
        (events : list LiveEvent) (st : LiveState) :
  (length (issHistory (live_telemetry st)) <= 120)%nat ->
  let after := live_telemetry (liveRun satrec velocity events st) in
  (exists added : list (Writer * IssPosition),
      issHistory after =
      sliceLast 120 (issHistory (live_telemetry st) ++ map snd added) /\
      entriesOf Telemetry added = storedPositions (pollsOf events) /\
      Forall (fun s => exists now,
                  In (Tick now) events /\
                  computeIssState satrec velocity now = Some s)
             (entriesOf Synthetic added)) /\
  (length (issHistory after) <= 120)%nat /\
  (forall init e,
      events = init ++ [e] ->
      let before := live_telemetry (liveRun satrec velocity init st) in
      issPosition after =
      match writtenPosition satrec velocity e with
      | Some p => Some p
      | None => issPosition before
      end /\
      match e with
      | Poll o => error after = None <-> positionOf o <> None
      | Tick _ => error after = error before
      end).
Proof.
  intros Hlen. cbv zeta.
  destruct (liveRun_state satrec velocity events st Hlen)
    as (added & Hh & Hpolls & _ & _ & Hall).
  split.
  - exists added. split; [exact Hh |]. split; [exact Hpolls |].
    eapply Forall_impl; [| exact Hall].
    intros s (now & Hin & Hs & _). now exists now.
  - split; [rewrite Hh, sliceLast_length; lia |].
    intros init e ->. rewrite liveRun_snoc.
    apply liveStep_position_error.
Qed.

(** Witness for X16: a synthetic update, a successful round, another
    update and a failed round, from an empty history: the failed round
    leaves the position of the update before it and an error. *)
Lemma liveRun_history_keeps_last_120_witness :
  let satrec := Some (equatorTrack (fun _ => 2)) in
  let velocity : VelocityModel := fun _ => None in
  let init := [Tick sampleNow; Poll (ResponseData 10 20 1700000000 27600);
               Tick (sampleNow + 1000)] in
  let st := mkLive (mkTelemetry None [] None) 0 in
  let after := live_telemetry
                 (liveRun satrec velocity (init ++ [Poll ResponseNotOk]) st) in
  (length (issHistory (live_telemetry st)) <= 120)%nat /\
  (length (issHistory after) <= 120)%nat /\
  issPosition after =
  issPosition (live_telemetry (liveRun satrec velocity init st)) /\
  error after <> None.
Proof.
  cbv zeta.
  assert (Hlen : (length (issHistory
                            (live_telemetry
                               (mkLive (mkTelemetry None [] None) 0))) <=
                  120)%nat) by (simpl; lia).
  destruct (liveRun_history_keeps_last_120
              (Some (equatorTrack (fun _ => 2))) (fun _ => None)
              ([Tick sampleNow; Poll (ResponseData 10 20 1700000000 27600);
                Tick (sampleNow + 1000)%Z] ++ [Poll ResponseNotOk])
              (mkLive (mkTelemetry None [] None) 0) Hlen)
    as (_ & Hbound & Hlast).
  split; [exact Hlen |]. split; [exact Hbound |].
  destruct (Hlast _ _ eq_refl) as [Hpos Herr].
  split; [exact Hpos |].
  intros Hnone. apply Herr in Hnone. now apply Hnone.
Defined.

(** X17. Over any interleaving of telemetry rounds and synthetic updates,
    starting from a history of at most 120 entries: every entry the
    synthetic update appends is the state computed at one of its calls, at
    least 10 s after the previous history update that preceded the run;
    any two such entries are at least 10 s apart, whatever the telemetry
    appends in between; and the reference instant ends on the last of them
    (it is left alone when there is none). *)
Theorem liveRun_synthetic_entries_every_10s
        (satrec : option OrbitalModel) (velocity : VelocityModel)
        (events : list LiveEvent) (st : LiveState) :
  (length (issHistory (live_telemetry st)) <= 120)%nat ->
  exists added : list (Writer * IssPosition),
    issHistory (live_telemetry (liveRun satrec velocity events st)) =
    sliceLast 120 (issHistory (live_telemetry st) ++ map snd added) /\
    IZR (lastHistoryUpdateRef (liveRun satrec velocity events st)) =
    last (map iss_timestamp (entriesOf Synthetic added))
         (IZR (lastHistoryUpdateRef st)) /\
    StronglySorted (fun a b => iss_timestamp a + 10000 <= iss_timestamp b)
                   (entriesOf Synthetic added) /\
    Forall (fun s => exists now,
                In (Tick now) events /\
                computeIssState satrec velocity now = Some s /\
                (lastHistoryUpdateRef st + 10000 <= now)%Z)
           (entriesOf Synthetic added).
Proof.
  intros Hlen.
  destruct (liveRun_state satrec velocity events st Hlen)
    as (added & Hh & _ & Hr & Hsorted & Hall).
  exists added. split; [exact Hh |]. split; [exact Hr |].
  split; [exact Hsorted | exact Hall].
Qed.

(** Witness for X17: updates every second for 11 s with a telemetry round
    in between, from an empty history. *)
Lemma liveRun_synthetic_entries_every_10s_witness :
  exists added : list (Writer * IssPosition),
    issHistory
      (live_telemetry
         (liveRun (Some (equatorTrack (fun _ => 2))) (fun _ => None)
                  (map Tick [sampleNow; sampleNow + 1000; sampleNow + 2000]%Z ++
                   Poll (ResponseData 10 20 1700000002 27600) ::
                   map Tick [sampleNow + 9000; sampleNow + 10000;
                             sampleNow + 11000]%Z)
                  (mkLive (mkTelemetry None [] None) 0))) =
    sliceLast 120 ([] ++ map snd added) /\
    StronglySorted (fun a b => iss_timestamp a + 10000 <= iss_timestamp b)
                   (entriesOf Synthetic added).
Proof.
  destruct (liveRun_synthetic_entries_every_10s
              (Some (equatorTrack (fun _ => 2))) (fun _ => None)
              (map Tick [sampleNow; sampleNow + 1000; sampleNow + 2000]%Z ++
               Poll (ResponseData 10 20 1700000002 27600) ::
               map Tick [sampleNow + 9000; sampleNow + 10000;
                         sampleNow + 11000]%Z)
              (mkLive (mkTelemetry None [] None) 0))
    as (added & Hh & _ & Hsorted & _).
  - simpl. lia.
  - exists added. split; [exact Hh | exact Hsorted].
Defined.

(** X18. The synthetic state and the ground point come from the same
    model reading: [computeIssState] is null exactly when
    [computeGroundPoint] is; otherwise it carries the requested timestamp,
    the same latitude, the longitude moved by whole turns into [-180, 180],
    and a speed that is null or the non-negative 3600 |v|; and the live
    distance to a target computed from it is the distance the predictor
    evaluates at that instant. *)
Theorem computeIssState_agrees_with_ground_point {F : Float64}
        (satrec : option OrbitalModel) (velocity : VelocityModel) (t : Z)
        (tp : GeoPoint) :
  (computeIssState satrec velocity t = None <->
   computeGroundPoint satrec t = None) /\
  (forall s,
      computeIssState satrec velocity t = Some s ->
      iss_timestamp s = IZR t /\
      -180 <= iss_lng s <= 180 /\
      (exists gp k,
          computeGroundPoint satrec t = Some gp /\
          iss_lat s = lat gp /\
          iss_lng s = lng gp + 360 * IZR k) /\
      (forall v, velocityKmh s = Some v -> 0 <= v) /\
      comparable (distanceKm (Some s) (Some tp)) =
      groundDistance satrec (Some tp) t).
Proof.
  unfold computeIssState, groundDistance, computeGroundPoint.
  destruct satrec as [propagate |]; [| split; [tauto | discriminate]].
  destruct (propagate t) as [gp |]; [| split; [tauto | discriminate]].
  split; [split; discriminate |].
  intros s [= <-]. cbn [iss_timestamp iss_lng iss_lat velocityKmh].
  split; [reflexivity |].
  split; [apply normalizeFinite_range |].
  split.
  { destruct (normalizeFinite_shift (lng gp)) as (k & Hk).
    exists gp, k. split; [reflexivity |]. split; [reflexivity | exact Hk]. }
  split; [| reflexivity].
  intros v. destruct (velocity t) as [[[x y] z] |]; [| discriminate].
  intros [= <-]. pose proof (sqrt_pos (x * x + y * y + z * z)). lra.
Qed.

(** ** Arrival estimates *)

(** X20. A prediction made at a clock reading after the epoch always
    supplies the ETA (the fallback is not consulted): the minutes from the
    display instant to the predicted time, which lie within the 24 h
    lookahead counted from the instant the prediction was made. *)
Theorem eta_from_prediction_within_lookahead {F : Float64}
        (m : OrbitalModel) (tp : GeoPoint) (thr : R) (now dateNow : Z)
        (p : PassPrediction) (fallback : option R) :
  (0 < now)%Z ->
  nextPassPrediction (Some m) (Some tp) thr now = Some p ->
  exists eta,
    etaMinutes (Some p) dateNow fallback = Some eta /\
    eta = IZR (time p - dateNow) / 60000 /\
    IZR (now - dateNow) / 60000 <= eta <= IZR (now - dateNow) / 60000 + 1440 /\
    orbitsRemaining (Some eta) = Some (eta / ORBIT_MINUTES).
Proof.
  intros Hnow Hp.
  destruct (nextPassPrediction_sample m tp thr now p Hp) as (Hev & _).
  apply (Evaluated_bounds m tp) in Hev.
  unfold lookaheadEnd, PASS_LOOKAHEAD_MINUTES in Hev.
  exists (IZR (time p - dateNow) / 60000).
  split.
  { unfold etaMinutes. destruct (Z.eqb_spec (time p) 0); [lia | reflexivity]. }
  split; [reflexivity |]. split; [| reflexivity].
  assert (Hlo : IZR (now - dateNow) <= IZR (time p - dateNow))
    by (apply IZR_le; lia).
  assert (Hhi : IZR (time p - dateNow) <= IZR (now - dateNow + 86400000))
    by (apply IZR_le; lia).
  rewrite plus_IZR in Hhi. lra.
Qed.

(** Witness for X20: the resting track two degrees east, displayed at the
    instant the prediction was made. *)
Lemma eta_from_prediction_within_lookahead_witness :
  exists eta,
    etaMinutes (Some (mkPrediction sampleNow
                                   (Fin (EARTH_RADIUS_KM * toRad 2)) false))
               sampleNow None = Some eta /\
    0 <= eta <= 1440.
Proof.
  destruct (eta_from_prediction_within_lookahead
              (equatorTrack (fun _ => 2)) origin PASS_THRESHOLD_DEFAULT_KM
              sampleNow sampleNow
              (mkPrediction sampleNow (Fin (EARTH_RADIUS_KM * toRad 2)) false)
              None)
    as (eta & Heta & _ & Hrange & _).
  - reflexivity.
  - apply nextPassPrediction_constant_track; [reflexivity | lra |].
    destruct (equator_km_bounds 2) as [Hlo _]; [lra |].
    unfold PASS_THRESHOLD_COARSE_KM, EARTH_RADIUS_KM in *. lra.
  - exists eta. split; [exact Heta |].
    replace (sampleNow - sampleNow)%Z with 0%Z in Hrange by lia. lra.
Defined.

(** ** TLE download *)

Lemma truthyString_Some (s : option string) (x : string) :
  truthyString s = Some x -> s = Some x /\ x <> EmptyString.
Proof.
  destruct s as [[| c r] |]; try discriminate.
  intros [= <-]. split; [reflexivity | discriminate].
Qed.

Lemma truthyString_nonempty (x : string) :
  x <> EmptyString -> truthyString (Some x) = Some x.
Proof. destruct x; [congruence | reflexivity]. Qed.

(** The loop stops at the first source that answers; what follows it plays
    no part. *)
Lemma downloadLoop_first (pre post : list Attempt) (a : Attempt)
      (text : string) (e : option string) :
  Forall fails pre -> attemptText a = inr text ->
  downloadLoop (pre ++ a :: post) e = (Some text, snd (downloadLoop pre e)).
Proof.
  intros Hpre Ha. revert e.
  induction Hpre as [| b pre [message Hb] _ IH]; intros e; simpl.
  - now rewrite Ha.
  - rewrite Hb. apply IH.
Qed.

(** When every source fails the loop ends without a text, holding the
    message of the last failure. *)
Lemma downloadLoop_all_fail (init : list Attempt) (a : Attempt)
      (message : string) (e : option string) :
  Forall fails init -> attemptText a = inl message ->
  downloadLoop (init ++ [a]) e = (None, Some message).
Proof.
  intros Hinit Ha. revert e.
  induction Hinit as [| b init [m Hb] _ IH]; intros e; simpl.
  - now rewrite Ha.
  - rewrite Hb. apply IH.
Qed.

Lemma splitLines_cons (a rest : string) :
  singleLine a = true ->
  splitLines (a ++ newline ++ rest) = a :: splitLines rest.
Proof.
  induction a as [| c a IH]; intros Hline.
  - reflexivity.
  - simpl in Hline. apply andb_prop in Hline. destruct Hline as [Hc Ha].
    apply negb_true_iff in Hc.
    change ((String c a ++ newline ++ rest)%string)
      with (String c (a ++ newline ++ rest)%string).
    cbn [splitLines]. rewrite Hc, (IH Ha). reflexivity.
Qed.

Lemma splitLines_single (a : string) :
  singleLine a = true -> splitLines a = [a].
Proof.
  induction a as [| c a IH]; intros Hline; [reflexivity |].
  simpl in Hline. apply andb_prop in Hline. destruct Hline as [Hc Ha].
  apply negb_true_iff in Hc.
  cbn [splitLines]. rewrite Hc, (IH Ha). reflexivity.
Qed.

Section TleDownloadFacts.

Variable trim : string -> string.
Variable toUpperCase : string -> string.

Lemma fetchTle_text (cancelled : bool) (attempts : list Attempt)
      (text : string) (e : option string) (dateNow : Z) (st : AppState) :
  downloadLoop attempts None = (Some text, e) ->
  text <> EmptyString ->
  fetchTle trim toUpperCase cancelled attempts dateNow st =
  if cancelled then st
  else
    match parseTle trim toUpperCase text with
    | Some (line1, line2) =>
        setError None (mkApp (telemetry st) (Some (mkTle line1 line2 dateNow)))
    | None => setError (Some "No encontramos el TLE de la ISS"%string) st
    end.
Proof.
  intros Hloop Htext. unfold fetchTle. rewrite Hloop.
  rewrite (truthyString_nonempty text Htext).
  destruct cancelled; reflexivity.
Qed.

End TleDownloadFacts.

(** X21. Whatever the sources answer, a TLE download never touches the
    position or the history, and it ends in one of two ways: the stored
    TLE is left as it was (nothing changes at all if the effect was torn
    down; otherwise the error becomes 'No encontramos el TLE de la ISS' or
    'Fuentes TLE inalcanzables (...)'), or a new TLE is stored with two
    non-empty lines and the download instant, and the error is cleared. *)
Theorem fetchTle_stores_complete_tle_or_keeps_old
        (trim toUpperCase : string -> string) (cancelled : bool)
        (attempts : list Attempt) (dateNow : Z) (st : AppState) :
  let after := fetchTle trim toUpperCase cancelled attempts dateNow st in
  issPosition (telemetry after) = issPosition (telemetry st) /\
  issHistory (telemetry after) = issHistory (telemetry st) /\
  ((tle after = tle st /\
    if cancelled then after = st
    else exists message,
        error (telemetry after) = Some message /\
        (message = "No encontramos el TLE de la ISS"%string \/
         exists why,
           message = ("Fuentes TLE inalcanzables (" ++ why ++ ")")%string)) \/
   (cancelled = false /\
    exists l1 l2,
      tle after = Some (mkTle l1 l2 dateNow) /\
      l1 <> EmptyString /\ l2 <> EmptyString /\
      error (telemetry after) = None)).
Proof.
  cbv zeta. unfold fetchTle.
  destruct (downloadLoop attempts None) as [text lastError].
  destruct (truthyString text) as [body |].
  - destruct cancelled; [repeat split; left; split; reflexivity |].
    unfold parseTle.
    set (lines := map trim (splitLines body)).
    destruct (findIndex _ lines) as [index |].
    + destruct (truthyString (nth_error lines (index + 1))) as [l1 |] eqn:H1.
      * destruct (truthyString (nth_error lines (index + 2))) as [l2 |] eqn:H2.
        -- apply truthyString_Some in H1, H2.
           split; [reflexivity |]. split; [reflexivity |].
           right. split; [reflexivity |]. exists l1, l2.
           repeat split; [apply H1 | apply H2].
        -- split; [reflexivity |]. split; [reflexivity |].
           left. split; [reflexivity |]. eexists. split; [reflexivity |].
           now left.
      * split; [reflexivity |]. split; [reflexivity |].
        left. split; [reflexivity |]. eexists. split; [reflexivity |].
        now left.
    + split; [reflexivity |]. split; [reflexivity |].
      left. split; [reflexivity |]. eexists. split; [reflexivity |].
      now left.
  - destruct cancelled; [repeat split; left; split; reflexivity |].
    split; [reflexivity |]. split; [reflexivity |].
    left. split; [reflexivity |]. eexists. split; [reflexivity |].
    right. eexists. reflexivity.
Qed.

(** X22. The sources are tried in order and the first one that answers
    decides: sources listed after it are never consulted, and when its
    text is not empty the failures before it leave no trace.  An empty
    answer also ends the loop: from the first source it makes the download
    fail with the default message, the other sources untried. *)
Theorem fetchTle_first_answer_wins
        (trim toUpperCase : string -> string) (cancelled : bool)
        (pre post : list Attempt) (a : Attempt) (text : string)
        (dateNow : Z) (st : AppState) :
  Forall fails pre ->
  attemptText a = inr text ->
  fetchTle trim toUpperCase cancelled (pre ++ a :: post) dateNow st =
  fetchTle trim toUpperCase cancelled (pre ++ [a]) dateNow st /\
  (text <> EmptyString ->
   fetchTle trim toUpperCase cancelled (pre ++ a :: post) dateNow st =
   fetchTle trim toUpperCase cancelled [a] dateNow st) /\
  (text = EmptyString -> pre = [] -> cancelled = false ->
   fetchTle trim toUpperCase cancelled (pre ++ a :: post) dateNow st =
   setError
     (Some ("Fuentes TLE inalcanzables (" ++
            "No se pudo descargar el TLE de la ISS" ++ ")")%string) st).
Proof.
  intros Hpre Ha.
  pose proof (downloadLoop_first pre post a text None Hpre Ha) as Hall.
  pose proof (downloadLoop_first pre [] a text None Hpre Ha) as Hone.
  assert (Honly : downloadLoop [a] None = (Some text, None))
    by (simpl; now rewrite Ha).
  split; [| split].
  - unfold fetchTle. now rewrite Hall, Hone.
  - intros Htext.
    rewrite (fetchTle_text trim toUpperCase cancelled _ text _ dateNow st
                           Hall Htext).
    rewrite (fetchTle_text trim toUpperCase cancelled _ text _ dateNow st
                           Honly Htext).
    reflexivity.
  - intros -> -> ->. unfold fetchTle. rewrite Hall. reflexivity.
Qed.

(** Witness for X22: the first mirror is down, the second answers, the JSON
    source is never reached. *)
Lemma fetchTle_first_answer_wins_witness :
  fetchTle (fun s => s) (fun s => s) false
           (TLE_SOURCES (NotOk "503") (Body "ISS"%string) (Threw "offline"))
           sampleNow (mkApp (mkTelemetry None [] None) None) =
  fetchTle (fun s => s) (fun s => s) false
           [TextAttempt (Body "ISS"%string)]
           sampleNow (mkApp (mkTelemetry None [] None) None).
Proof.
  apply (fetchTle_first_answer_wins
           (fun s => s) (fun s => s) false
           [TextAttempt (NotOk "503")] [JsonAttempt (Threw "offline")]
           (TextAttempt (Body "ISS"%string)) "ISS"%string
           sampleNow (mkApp (mkTelemetry None [] None) None)).
  - constructor; [| constructor]. eexists. reflexivity.
  - reflexivity.
  - discriminate.
Defined.

(** X23. When every source fails, the TLE is kept and the error reported
    is 'Fuentes TLE inalcanzables (...)' around the message of the last
    source tried (the earlier messages are overwritten). *)
Theorem fetchTle_all_sources_fail_reports_last
        (trim toUpperCase : string -> string)
        (init : list Attempt) (a : Attempt) (message : string)
        (dateNow : Z) (st : AppState) :
  Forall fails init ->
  attemptText a = inl message ->
  message <> EmptyString ->
  fetchTle trim toUpperCase false (init ++ [a]) dateNow st =
  setError (Some ("Fuentes TLE inalcanzables (" ++ message ++ ")")%string) st.
Proof.
  intros Hinit Ha Hmessage. unfold fetchTle.
  rewrite (downloadLoop_all_fail init a message None Hinit Ha).
  destruct message as [| c message]; [congruence | reflexivity].
Qed.

(** Witness for X23: both mirrors unreachable and a JSON body without
    lines. *)
Lemma fetchTle_all_sources_fail_reports_last_witness :
  fetchTle (fun s => s) (fun s => s) false
           (TLE_SOURCES (Threw "Failed to fetch") (NotOk "503") (Body None))
           sampleNow (mkApp (mkTelemetry None [] None) None) =
  setError (Some ("Fuentes TLE inalcanzables (" ++ "JSON sin lineas TLE" ++
                  ")")%string)
           (mkApp (mkTelemetry None [] None) None).
Proof.
  apply (fetchTle_all_sources_fail_reports_last
           (fun s => s) (fun s => s)
           [TextAttempt (Threw "Failed to fetch"); TextAttempt (NotOk "503")]
           (JsonAttempt (Body None)) "JSON sin lineas TLE"%string
           sampleNow (mkApp (mkTelemetry None [] None) None)).
  - repeat constructor; eexists; reflexivity.
  - reflexivity.
  - discriminate.
Defined.

(** X24. The JSON source as a fallback: when the sources before it fail
    and it answers with two non-empty single-line TLE lines and no name,
    the text built from it ('ISS (ZARYA)' and the two lines) parses back
    to those lines, trimmed, and they are stored with the error cleared;
    provided trimming leaves the lines non-empty and the station's name
    recognisable. *)
Theorem fetchTle_json_fallback_round_trip
        (trim toUpperCase : string -> string)
        (pre post : list Attempt) (d : JsonTle) (l1 l2 : string)
        (dateNow : Z) (st : AppState) :
  Forall fails pre ->
  truthyString (json_name d) = None ->
  json_line1 d = Some l1 -> json_line2 d = Some l2 ->
  l1 <> EmptyString -> l2 <> EmptyString ->
  singleLine l1 = true -> singleLine l2 = true ->
  trim l1 <> EmptyString -> trim l2 <> EmptyString ->
  String.prefix "ISS (ZARYA)" (toUpperCase (trim "ISS (ZARYA)"%string)) = true ->
  fetchTle trim toUpperCase false
           (pre ++ JsonAttempt (Body (Some d)) :: post) dateNow st =
  setError None
           (mkApp (telemetry st) (Some (mkTle (trim l1) (trim l2) dateNow))).
Proof.
  intros Hpre Hname H1 H2 Hl1 Hl2 Hs1 Hs2 Ht1 Ht2 Hprefix.
  set (text := ("ISS (ZARYA)" ++ newline ++ l1 ++ newline ++ l2)%string).
  assert (Ha : attemptText (JsonAttempt (Body (Some d))) = inr text).
  { cbn [attemptText]. rewrite H1, H2, Hname.
    rewrite (truthyString_nonempty l1 Hl1), (truthyString_nonempty l2 Hl2).
    reflexivity. }
  rewrite (fetchTle_text trim toUpperCase false _ text _ dateNow st
                         (downloadLoop_first pre post _ text None Hpre Ha));
    [| discriminate].
  unfold parseTle, text.
  rewrite (splitLines_cons "ISS (ZARYA)"%string _ eq_refl).
  rewrite (splitLines_cons l1 _ Hs1), (splitLines_single l2 Hs2).
  cbn [map findIndex]. rewrite Hprefix.
  cbn [Nat.add nth_error].
  rewrite (truthyString_nonempty _ Ht1), (truthyString_nonempty _ Ht2).
  reflexivity.
Qed.

(** Witness for X24: both mirrors down, the JSON source answers. *)
Lemma fetchTle_json_fallback_round_trip_witness :
  fetchTle (fun s => s) (fun s => s) false
           (TLE_SOURCES (Threw "Failed to fetch") (NotOk "503")
                        (Body (Some (mkJsonTle None (Some "1 25544U"%string)
                                               (Some "2 25544"%string)))))
           sampleNow (mkApp (mkTelemetry None [] (Some "old"%string)) None) =
  setError None
           (mkApp (mkTelemetry None [] (Some "old"%string))
                  (Some (mkTle "1 25544U"%string "2 25544"%string
                               sampleNow))).
Proof.
  apply (fetchTle_json_fallback_round_trip
           (fun s => s) (fun s => s)
           [TextAttempt (Threw "Failed to fetch"); TextAttempt (NotOk "503")]
           []
           (mkJsonTle None (Some "1 25544U"%string) (Some "2 25544"%string))
           "1 25544U"%string "2 25544"%string sampleNow
           (mkApp (mkTelemetry None [] (Some "old"%string)) None)).
  - repeat constructor; eexists; reflexivity.
  - reflexivity.
  - reflexivity.
  - reflexivity.
  - discriminate.
  - discriminate.
  - reflexivity.
  - reflexivity.
  - discriminate.
  - discriminate.
  - reflexivity.
Defined.

(** ** The earlier single-phase predictor *)

Section LegacyPredictor.

Context {F : Float64}.
Variable m : OrbitalModel.
Variable tp : GeoPoint.

Let ev := groundDistance (Some m) (Some tp).

Lemma Legacy_scan_miss (ts seen : list Z) (b : Best) :
  (forall t, In t ts -> within (ev t) Legacy.PASS_THRESHOLD_KM = false) ->
  BestOf ev seen b ->
  exists b', Legacy.scan (Some m) (Some tp) ts b = inr b' /\
             BestOf ev (seen ++ ts) b'.
Proof.
  revert seen b. induction ts as [| t ts IH]; intros seen b Hmiss Hb.
  - exists b. rewrite app_nil_r. split; [reflexivity | assumption].
  - cbn [Legacy.scan].
    pose proof (evaluatePoint_BestOf m tp seen t b Hb) as Hs.
    rewrite <- (bestRefined_update m tp) in Hs. fold ev in Hs |- *.
    pose proof (Hmiss t (or_introl eq_refl)) as Ht.
    assert (Hrest : forall u, In u ts ->
                              within (ev u) Legacy.PASS_THRESHOLD_KM = false)
      by (intros u Hu; apply Hmiss; now right).
    destruct (ev t) as [d |]; cbn [within] in Ht.
    + destruct (Rle_dec d Legacy.PASS_THRESHOLD_KM); [discriminate |].
      destruct (IH _ _ Hrest Hs) as (b' & Heq & Hb').
      exists b'. rewrite <- app_assoc in Hb'. split; assumption.
    + destruct (IH _ _ Hrest Hs) as (b' & Heq & Hb').
      exists b'. rewrite <- app_assoc in Hb'. split; assumption.
Qed.

Lemma Legacy_scan_hit (l1 l2 : list Z) (tq : Z) (dq : R) (b : Best) :
  (forall t, In t l1 -> within (ev t) Legacy.PASS_THRESHOLD_KM = false) ->
  ev tq = Some dq -> dq <= Legacy.PASS_THRESHOLD_KM ->
  Legacy.scan (Some m) (Some tp) (l1 ++ tq :: l2) b =
  inl (mkPrediction tq (Fin dq) true).
Proof.
  revert b. induction l1 as [| t l1 IH]; intros b Hmiss Hq Hle.
  - cbn [app Legacy.scan]. fold ev. rewrite Hq.
    destruct (Rle_dec dq Legacy.PASS_THRESHOLD_KM);
      [reflexivity | contradiction].
  - cbn [app Legacy.scan]. fold ev.
    pose proof (Hmiss t (or_introl eq_refl)) as Ht.
    assert (Hrest : forall u, In u l1 ->
                              within (ev u) Legacy.PASS_THRESHOLD_KM = false)
      by (intros u Hu; apply Hmiss; now right).
    destruct (ev t) as [d |]; cbn [within] in Ht.
    + destruct (Rle_dec d Legacy.PASS_THRESHOLD_KM); [discriminate |].
      now apply IH.
    + now apply IH.
Qed.

End LegacyPredictor.

(** X25. In the earlier single-phase predictor the flag of a prediction is
    exact: the reported sample is one of the 30 s samples of the lookahead
    with its own distance, thresholdHit is set exactly when that distance
    is within the 75 km threshold; when set, no earlier sample is within
    the threshold; when clear, the sample is the closest one (the earliest
    at the minimum distance). *)
Theorem Legacy_thresholdHit_exact {F : Float64}
        (m : OrbitalModel) (tp : GeoPoint) (now : Z) (p : PassPrediction) :
  Legacy.nextPassPrediction (Some m) (Some tp) now = Some p ->
  let ev := groundDistance (Some m) (Some tp) in
  let times :=
    loop_times now (lookaheadEnd now) (Legacy.PASS_STEP_SECONDS * 1000)%Z in
  exists d,
    distance p = Fin d /\ ev (time p) = Some d /\ In (time p) times /\
    (thresholdHit p = true <-> d <= Legacy.PASS_THRESHOLD_KM) /\
    (thresholdHit p = true ->
     forall u, In u times -> (u < time p)%Z ->
               within (ev u) Legacy.PASS_THRESHOLD_KM = false) /\
    (thresholdHit p = false -> EarliestClosest ev times (time p) d).
Proof.
  intros Hp ev times. unfold Legacy.nextPassPrediction in Hp.
  fold times in Hp.
  assert (Hsorted : StronglySorted Z.lt times)
    by (apply loop_times_sorted; reflexivity).
  destruct (all_false_or_some
              (fun t => within (ev t) Legacy.PASS_THRESHOLD_KM) times)
    as [Hex | Hmiss].
  - destruct (first_split _ _ Hex) as (l1 & tq & l2 & Hsplit & Hq & Hl1).
    unfold within in Hq. destruct (ev tq) as [dq |] eqn:Hev; [| discriminate].
    destruct (Rle_dec dq Legacy.PASS_THRESHOLD_KM) as [Hle |]; [| discriminate].
    rewrite Hsplit in Hp, Hsorted |- *.
    rewrite (Legacy_scan_hit m tp l1 l2 tq dq _ Hl1 Hev Hle) in Hp.
    injection Hp as <-. cbn [time distance thresholdHit].
    exists dq. split; [reflexivity |]. split; [assumption |].
    split; [apply in_or_app; right; now left |].
    split; [tauto |]. split; [| discriminate].
    intros _ u Hu Hlt.
    destruct (StronglySorted_split _ _ _ Hsorted) as [_ Hafter].
    apply in_app_or in Hu. destruct Hu as [Hu | [<- | Hu]];
      [now apply Hl1 | lia | pose proof (Hafter u Hu); lia].
  - destruct (Legacy_scan_miss m tp times [] (mkBest PInf None) Hmiss
                               (BestOf_nil m tp)) as (b' & Hscan & Hb').
    rewrite Hscan in Hp. simpl app in Hb'. unfold fallbackPrediction in Hp.
    destruct Hb' as [[-> _] | (t & d & -> & Hec)]; [discriminate |].
    cbn [best_time best_distance truthyTime] in Hp.
    destruct (Z.eqb_spec t 0); [discriminate |].
    injection Hp as <-. cbn [time distance thresholdHit].
    destruct (EarliestClosest_In m tp _ _ _ Hec) as [Hin Hev].
    exists d. split; [reflexivity |]. split; [assumption |].
    split; [assumption |].
    pose proof (Hmiss t Hin) as Hw. fold ev in Hev. rewrite Hev in Hw.
    unfold within in Hw.
    destruct (Rle_dec d Legacy.PASS_THRESHOLD_KM); [discriminate |].
    split; [split; [discriminate | contradiction] |].
    split; [discriminate | intros _; exact Hec].
Qed.

(** Witness for X25: a track resting half a degree east of the target is
    within 75 km at once. *)
Lemma Legacy_thresholdHit_exact_witness :
  exists d,
    groundDistance (Some (equatorTrack (fun _ => 1 / 2))) (Some origin)
                   sampleNow = Some d /\
    d <= Legacy.PASS_THRESHOLD_KM.
Proof.
  assert (Hev : forall t,
             groundDistance (Some (equatorTrack (fun _ => 1 / 2)))
                            (Some origin) t =
             Some (EARTH_RADIUS_KM * toRad (1 / 2))).
  { intros t. apply (groundDistance_equator (fun _ => 1 / 2) t). lra. }
  assert (Hnear : EARTH_RADIUS_KM * toRad (1 / 2) <= Legacy.PASS_THRESHOLD_KM).
  { destruct (equator_km_bounds (1 / 2)) as [_ Hhi]; [lra |].
    unfold Legacy.PASS_THRESHOLD_KM, EARTH_RADIUS_KM in *. lra. }
  destruct (Legacy_thresholdHit_exact
              (equatorTrack (fun _ => 1 / 2)) origin sampleNow
              (mkPrediction sampleNow (Fin (EARTH_RADIUS_KM * toRad (1 / 2)))
                            true))
    as (d & _ & Hd & _ & Hflag & _).
  - unfold Legacy.nextPassPrediction.
    change (loop_times sampleNow (lookaheadEnd sampleNow)
                       (Legacy.PASS_STEP_SECONDS * 1000)%Z)
      with (loop_times sampleNow (lookaheadEnd sampleNow) coarseStepMs).
    rewrite now_in_coarse.
    pose proof (Legacy_scan_hit
                  (equatorTrack (fun _ => 1 / 2)) origin []
                  (loop_times (sampleNow + coarseStepMs)
                              (lookaheadEnd sampleNow) coarseStepMs)
                  sampleNow _ (mkBest PInf None)
                  (fun t (H : In t []) => match H with end)
                  (Hev sampleNow) Hnear) as Hscan.
    cbn [app] in Hscan. rewrite Hscan. reflexivity.
  - exists d. split; [exact Hd |]. now apply Hflag.
Defined.

(** ** Playback controls *)

(** X26. The speed button only ever switches between the multipliers 1 and
    8: after one press the multiplier is 1 or 8 (8 exactly when it was 1),
    a further two presses change nothing, and a second press restores a
    state whose multiplier was 1 or 8; the clock and the play flag are
    never touched. *)
Theorem handleSimSpeedToggle_switches_1_and_8 (pb : PlaybackState) :
  let once := handleSimSpeedToggle pb in
  (simSpeedMultiplier once = 1 \/ simSpeedMultiplier once = 8) /\
  (simSpeedMultiplier once = 8 <-> simSpeedMultiplier pb = 1) /\
  isSimPlaying once = isSimPlaying pb /\
  simTimeMs once = simTimeMs pb /\
  handleSimSpeedToggle (handleSimSpeedToggle once) = once /\
  (simSpeedMultiplier pb = 1 \/ simSpeedMultiplier pb = 8 ->
   handleSimSpeedToggle once = pb).
Proof.
  destruct pb as [playing clock mult]. cbv zeta.
  unfold handleSimSpeedToggle.
  cbn [simSpeedMultiplier isSimPlaying simTimeMs].
  destruct (Req_dec_T mult 1) as [-> | Hne].
  - destruct (Req_dec_T 8 1) as [H81 | _]; [lra |].
    destruct (Req_dec_T 1 1) as [_ | H11]; [| lra].
    split; [now right |]. split; [tauto |].
    split; [reflexivity |]. split; [reflexivity |]. split; [reflexivity |].
    intros _. reflexivity.
  - destruct (Req_dec_T 1 1) as [_ | H11]; [| lra].
    destruct (Req_dec_T 8 1) as [H81 | _]; [lra |].
    split; [now left |]. split; [split; intros; lra |].
    split; [reflexivity |]. split; [reflexivity |]. split; [reflexivity |].
    intros [-> | ->]; [lra | reflexivity].
Qed.
